(** * MOLA MEGDR label analysis: coverage, gaps and overlaps

    A shallow embedding of [analyze_mola_labels.py] (class [MolaLabelParser])
    and of [check_jezero_coverage.py] (function [check_coverage]), with the
    properties of the coverage analysis proved about it.

    Numbers.  Every bound the scripts handle is produced by [float] applied
    to a decimal literal, so it is a finite decimal.  The embedding keeps such
    a number as the rational it denotes ([Q]) and computes with exact
    arithmetic; comparisons are the rational ones and "equal" on numbers is
    [Qeq] (written [==]), which is what Python's [==] decides on them.
    Resolutions are non-negative integers ([N]).

    Absent values.  A dictionary slot holding [None] is an [option] at
    [None].  Operations that Python refuses on [None] return [Raise] in the
    [result] monad below, so that a guard's role is visible in the model. *)

From Stdlib Require Import List String Ascii Bool Arith NArith ZArith.
From Stdlib Require Import QArith Qabs Qminmax Lia Lqa Permutation Sorted.
Import ListNotations.

Local Open Scope string_scope.
Local Open Scope Q_scope.

(** ** Python primitives used by the two scripts *)

Module Py.

(** The exceptions the modelled statements can raise. *)
Inductive exn : Set :=
| ValueError
| TypeError
| IndexError.

(** A computation either returns a value or raises. *)
Inductive result (A : Type) : Type :=
| Ok (a : A)
| Raise (e : exn).

Arguments Ok {A} a.
Arguments Raise {A} e.

Definition bind {A B : Type} (m : result A) (k : A -> result B) : result B :=
  match m with
  | Ok a => k a
  | Raise e => Raise e
  end.

(** [for x in l: body], the body possibly raising; results are collected. *)
Fixpoint mapM {A B : Type} (f : A -> result B) (l : list A) : result (list B) :=
  match l with
  | [] => Ok []
  | x :: l' =>
      bind (f x) (fun y => bind (mapM f l') (fun ys => Ok (y :: ys)))
  end.

(** *** Numbers *)

(** [a < b] and [a > b] on numbers, as booleans. *)
Definition Qltb (a b : Q) : bool := negb (Qle_bool b a).
Definition Qgtb (a b : Q) : bool := Qltb b a.

(** Truth value of a slot: [None] and [0.0] are false, the rest is true. *)
Definition truthy (x : option Q) : bool :=
  match x with
  | Some q => negb (Qeq_bool q 0)
  | None => false
  end.

(** [a - b]; [TypeError] when an operand is [None]. *)
Definition sub (a b : option Q) : result Q :=
  match a, b with
  | Some x, Some y => Ok (x - y)
  | _, _ => Raise TypeError
  end.

(** [a <= b]; [TypeError] when an operand is [None]. *)
Definition le (a b : option Q) : result bool :=
  match a, b with
  | Some x, Some y => Ok (Qle_bool x y)
  | _, _ => Raise TypeError
  end.

(** [max(a, b)] returns [a] unless [b > a]; [min(a, b)] returns [a] unless
    [b < a]. *)
Definition max (a b : Q) : Q := if Qgtb b a then b else a.
Definition min (a b : Q) : Q := if Qltb b a then b else a.

(** *** Strings *)

(** [sub in s]: [sub] occurs in [s] as a contiguous substring. *)
Fixpoint contains (sub s : string) : bool :=
  String.prefix sub s ||
  match s with
  | EmptyString => false
  | String _ s' => contains sub s'
  end.

Definition is_space (c : ascii) : bool :=
  match c with
  | " "%char | "009"%char | "010"%char | "011"%char | "012"%char | "013"%char => true
  | _ => false
  end.

Fixpoint lstrip (s : string) : string :=
  match s with
  | String c s' => if is_space c then lstrip s' else s
  | EmptyString => EmptyString
  end.

Fixpoint take_token (s : string) : string :=
  match s with
  | String c s' => if is_space c then EmptyString else String c (take_token s')
  | EmptyString => EmptyString
  end.

(** [s.split()[0]]: the first whitespace-delimited token; [IndexError] when
    [s] has none. *)
Definition split_first (s : string) : result string :=
  match lstrip s with
  | EmptyString => Raise IndexError
  | t => Ok (take_token t)
  end.

Definition digit_of (c : ascii) : option N :=
  let n := N_of_ascii c in
  if (48 <=? n)%N && (n <=? 57)%N then Some (n - 48)%N else None.

Fixpoint digits_value (acc : N) (s : string) : option N :=
  match s with
  | EmptyString => Some acc
  | String c s' =>
      match digit_of c with
      | Some d => digits_value (10 * acc + d)%N s'
      | None => None
      end
  end.

(** The text consists of decimal digits. *)
Definition all_digits (s : string) : Prop :=
  Forall (fun c => digit_of c <> None) (list_ascii_of_string s).

(** The digits of [int(s)], after the sign: one or more decimal digits. *)
Definition int_digits (negative : bool) (body : string) : result Z :=
  match body with
  | EmptyString => Raise ValueError
  | _ =>
      match digits_value 0%N body with
      | Some n => Ok (if negative then (- Z.of_N n)%Z else Z.of_N n)
      | None => Raise ValueError
      end
  end.

(** [int(s)] on a token: an optional sign followed by one or more decimal
    digits; anything else (the text [None] for one) is a [ValueError]. *)
Definition int (s : string) : result Z :=
  match s with
  | String c body =>
      if Ascii.eqb c "-" then int_digits true body
      else if Ascii.eqb c "+" then int_digits false body
      else int_digits false s
  | EmptyString => Raise ValueError
  end.

Fixpoint digits_of_pos (fuel : nat) (n : N) (acc : string) : string :=
  match fuel with
  | O => acc
  | S fuel' =>
      let acc' := String (ascii_of_N (48 + n mod 10)%N) acc in
      if (n <? 10)%N then acc' else digits_of_pos fuel' (n / 10)%N acc'
  end.

(** [str(n)] for a non-negative integer: its decimal digits, no leading
    zero.  A number has [N.size n] binary digits, hence no more decimal
    ones; one more step of fuel covers [0]. *)
Definition str_of_N (n : N) : string :=
  digits_of_pos (S (N.to_nat (N.size n))) n EmptyString.

(** *** [sorted] *)

Section Sorted.
Context {A K : Type}.
Variable leb : K -> K -> bool.
Variable key : A -> K.

(** [x] may stand before [y] in the result: its key is not larger, or not
    smaller under [reverse=True]. *)
Definition before (reverse : bool) (x y : A) : bool :=
  if reverse then leb (key y) (key x) else leb (key x) (key y).

(** The key of [y] equals [k] for the order. *)
Definition same_key (k : K) (y : A) : bool :=
  leb k (key y) && leb (key y) k.

(** Place [x], which came before every element of [l] in the input, into
    the sorted [l]: ahead of the first element it may stand before, so ahead
    of the elements with an equal key. *)
Fixpoint insert_by (reverse : bool) (x : A) (l : list A) : list A :=
  match l with
  | [] => [x]
  | y :: l' =>
      if before reverse x y then x :: l else y :: insert_by reverse x l'
  end.

(** [sorted(l, key=key, reverse=reverse)].  Python's sort is stable, also
    under [reverse=True]; a stable sort has one possible result, which
    this insertion sort computes. *)
Definition sorted (reverse : bool) (l : list A) : list A :=
  fold_right (insert_by reverse) [] l.
End Sorted.

End Py.

Notation "x <- m ;; k" := (Py.bind m (fun x => k))
  (at level 61, m at next level, right associativity).

Import Py.

(** ** analyze_mola_labels.py *)

Module Mola.

(** The dictionary [extract_key_info] returns.  The slots [resolution],
    [lines] and [samples] are never read by the analysis and are left out.
    [region] is always set by [extract_key_info], so every [.get('region',
    default)] reads the stored text. *)
Record file_info : Type := {
  filename : string;
  lat_min : option Q;
  lat_max : option Q;
  lon_min : option Q;
  lon_max : option Q;
  pixels_per_degree : option N;
  region : string
}.

(** [self.datasets]: a [defaultdict(list)], kept in insertion order. *)
Definition dict (V : Type) : Type := list (string * list V).

(** [d[k].append(v)] on a [defaultdict(list)]. *)
Fixpoint dict_append {V : Type} (k : string) (v : V) (d : dict V) : dict V :=
  match d with
  | [] => [(k, [v])]
  | (k', vs) :: d' =>
      if String.eqb k k' then (k', (vs ++ [v])%list) :: d'
      else (k', vs) :: dict_append k v d'
  end.

(** [d[k]] on a [defaultdict(list)]. *)
Fixpoint dict_get {V : Type} (k : string) (d : dict V) : list V :=
  match d with
  | [] => []
  | (k', vs) :: d' => if String.eqb k k' then vs else dict_get k d'
  end.

(** Every entry of the dictionary holds at least one value, and values
    that satisfy [P] and are filed under their own key. *)
Definition filed {V : Type} (key_of : V -> string) (P : V -> Prop) (d : dict V)
  : Prop :=
  Forall (fun entry => snd entry <> []
                       /\ Forall (fun v => P v /\ key_of v = fst entry)
                                 (snd entry)) d.

(** [f"{info['pixels_per_degree']} pixels/degree"]. *)
Definition resolution_key (info : file_info) : string :=
  (match pixels_per_degree info with
   | Some n => str_of_N n
   | None => "None"
   end ++ " pixels/degree")%string.

(** [analyze_all_labels], from the records [extract_key_info] gave for
    [self.label_files], in that order. *)
Definition analyze_all_labels (infos : list file_info) : dict file_info :=
  fold_left (fun d info => dict_append (resolution_key info) info d) infos [].

(** *** print_summary *)

(** [int(x.split()[0])], the sort key of a resolution. *)
Definition key_int (k : string) : result Z :=
  t <- split_first k ;; Py.int t.

(** [sorted(l, key=lambda x: int(name(x).split()[0]), reverse=True)]: the
    keys are computed for every element before anything is ordered, so one
    key that cannot be read aborts the sort. *)
Definition sort_by_resolution {A : Type} (name : A -> string) (l : list A)
  : result (list A) :=
  keyed <- mapM (fun x => n <- key_int (name x) ;; Ok (n, x)) l ;;
  Ok (map snd (sorted Z.leb fst true keyed)).

Definition region_groups : list string :=
  ["Equatorial"; "Mid-North"; "Mid-South"; "Near-Polar North";
   "Near-Polar South"; "North Polar"; "South Polar"].

(** [abs(hi - lo) if (hi and lo) else 0]. *)
Definition range (hi lo : option Q) : result Q :=
  if truthy hi && truthy lo then d <- sub hi lo ;; Ok (Qabs d) else Ok 0.

Definition lat_range (f : file_info) : result Q := range (lat_max f) (lat_min f).
Definition lon_range (f : file_info) : result Q := range (lon_max f) (lon_min f).

Definition coverage (f : file_info) : result Q :=
  la <- lat_range f ;; lo <- lon_range f ;; Ok (la * lo).

(** The loop over the files of one region: [total_coverage += coverage]. *)
Fixpoint sum_coverage (files : list file_info) (total_coverage : Q) : result Q :=
  match files with
  | [] => Ok total_coverage
  | f :: rest => c <- coverage f ;; sum_coverage rest (total_coverage + c)
  end.

(** What is printed for one region: a line per file, then the totals. *)
Record region_report : Type := {
  rr_region : string;
  rr_listing : list file_info;
  rr_total : Q;
  rr_percent : Q
}.

Definition region_files (region_group : string) (files : list file_info)
  : list file_info :=
  filter (fun f => contains region_group (region f)) files.

Definition region_summary (files : list file_info) (region_group : string)
  : result (option region_report) :=
  match region_files region_group files with
  | [] => Ok None
  | members =>
      let listing := sorted String.leb filename false members in
      total <- sum_coverage listing 0 ;;
      Ok (Some {| rr_region := region_group;
                  rr_listing := listing;
                  rr_total := total;
                  rr_percent := total / (4125296 # 100) * 100 |})
  end.

Definition present_reports (l : list (option region_report)) : list region_report :=
  flat_map (fun o => match o with Some r => [r] | None => [] end) l.

Record resolution_report : Type := {
  res_key : string;
  res_count : nat;
  res_regions : list region_report
}.

Definition resolution_summary (item : string * list file_info)
  : result resolution_report :=
  regs <- mapM (region_summary (snd item)) region_groups ;;
  Ok {| res_key := fst item;
        res_count := List.length (snd item);
        res_regions := present_reports regs |}.

(** *** _analyze_coverage_gaps *)

(** The test of the south-polar scan; [or] and [and] short-circuit. *)
Definition south_polar_test (f : file_info) : result bool :=
  if contains "South Polar" (region f) then Ok true
  else if contains "Near-Polar South" (region f)
       then Py.le (lat_min f) (Some (-75 # 1))
       else Ok false.

Fixpoint scan_dataset (dataset : list file_info) : result bool :=
  match dataset with
  | [] => Ok false
  | f :: rest =>
      b <- south_polar_test f ;;
      if b then Ok true else scan_dataset rest
  end.

Fixpoint has_south_polar (values : list (list file_info)) : result bool :=
  match values with
  | [] => Ok false
  | dataset :: rest =>
      b <- scan_dataset dataset ;;
      if b then Ok true else has_south_polar rest
  end.

(** [regions[file_info.get('region', 'Unknown')].append(file_info)]. *)
Definition group_by_region (dataset : list file_info) : dict file_info :=
  fold_left (fun d f => dict_append (region f) f d) dataset [].

(** [x.get('lon_min', 0) or 0]. *)
Definition lon_key (f : file_info) : Q :=
  match lon_min f with
  | Some q => if Qeq_bool q 0 then 0 else q
  | None => 0
  end.

(** The intervals of the files that have both longitudes. *)
Fixpoint longitude_coverage (files_sorted : list file_info) : list (Q * Q) :=
  match files_sorted with
  | [] => []
  | f :: rest =>
      match lon_min f, lon_max f with
      | Some lo, Some hi => (lo, hi) :: longitude_coverage rest
      | _, _ => longitude_coverage rest
      end
  end.

(** [for i in range(1, len(longitude_coverage))], with the loop's state
    [prev_max] and [gaps]. *)
Fixpoint walk_gaps (prev_max : Q) (rest : list (Q * Q)) (gaps : list (Q * Q))
  : list (Q * Q) :=
  match rest with
  | [] => gaps
  | (current_min, current_max) :: rest' =>
      walk_gaps current_max rest'
        (if Qgtb (current_min - prev_max) 1
         then (gaps ++ [(prev_max, current_min)])%list
         else gaps)
  end.

(** The wrap-around test on the first and the last interval. *)
Definition wraps (first last : Q * Q) : bool :=
  Qltb (snd last) 359 && Qgtb (fst first) 1.

(** The body of [if longitude_coverage:]. *)
Definition check_gaps (longitude_coverage : list (Q * Q)) : list (Q * Q) :=
  match longitude_coverage with
  | [] => []
  | first :: rest =>
      let gaps := walk_gaps (snd first) rest [] in
      let final := last longitude_coverage first in
      if wraps first final then (gaps ++ [(snd final, fst first)])%list else gaps
  end.

(** The gaps found for the files of one region; empty when the check is
    not made. *)
Definition region_gaps (files : list file_info) : list (Q * Q) :=
  let files_sorted := sorted Qle_bool lon_key false files in
  if (1 <? List.length files_sorted)%nat
  then check_gaps (longitude_coverage files_sorted)
  else [].

Record gap_warning : Type := {
  gw_resolution : string;
  gw_region : string;
  gw_gaps : list (Q * Q)
}.

Definition region_warning (resolution : string) (entry : string * list file_info)
  : list gap_warning :=
  if contains "Polar" (fst entry) then []
  else match region_gaps (snd entry) with
       | [] => []
       | gaps => [{| gw_resolution := resolution;
                     gw_region := fst entry;
                     gw_gaps := gaps |}]
       end.

Definition dataset_warnings (item : string * list file_info) : list gap_warning :=
  flat_map (region_warning (fst item)) (group_by_region (snd item)).

Record gap_report : Type := {
  south_polar_missing : bool;
  warnings : list gap_warning
}.

Definition analyze_coverage_gaps (datasets : dict file_info) : result gap_report :=
  found <- has_south_polar (map snd datasets) ;;
  Ok {| south_polar_missing := negb found;
        warnings := flat_map dataset_warnings datasets |}.

(** *** _analyze_resolution_overlaps *)

(** The four bounds of a file that has them all. *)
Record rect : Type := {
  r_lat_min : Q;
  r_lat_max : Q;
  r_lon_min : Q;
  r_lon_max : Q
}.

(** [None in [lat_min, lat_max, lon_min, lon_max]] holds exactly when this
    is [None]; otherwise the four values are read. *)
Definition bounds (f : file_info) : option rect :=
  match lat_min f, lat_max f, lon_min f, lon_max f with
  | Some a, Some b, Some c, Some d =>
      Some {| r_lat_min := a; r_lat_max := b; r_lon_min := c; r_lon_max := d |}
  | _, _, _, _ => None
  end.

(** An entry of the list [overlaps]. *)
Record overlap : Type := {
  o_file : string;
  o_region : string;
  o_area : Q;
  o_lat_range : Q * Q;
  o_lon_range : Q * Q
}.

Definition lat_overlap (high low : rect) : bool :=
  Qle_bool (r_lat_min high) (r_lat_max low)
  && Qle_bool (r_lat_min low) (r_lat_max high).

Definition lon_overlap (high low : rect) : bool :=
  Qle_bool (r_lon_min high) (r_lon_max low)
  && Qle_bool (r_lon_min low) (r_lon_max high).

(** The entry appended when the two rectangles overlap. *)
Definition overlap_entry (high : rect) (low_file : file_info) (low : rect) : overlap :=
  let lat_overlap_min := Py.max (r_lat_min high) (r_lat_min low) in
  let lat_overlap_max := Py.min (r_lat_max high) (r_lat_max low) in
  let lon_overlap_min := Py.max (r_lon_min high) (r_lon_min low) in
  let lon_overlap_max := Py.min (r_lon_max high) (r_lon_max low) in
  {| o_file := filename low_file;
     o_region := region low_file;
     o_area := (lat_overlap_max - lat_overlap_min)
               * (lon_overlap_max - lon_overlap_min);
     o_lat_range := (lat_overlap_min, lat_overlap_max);
     o_lon_range := (lon_overlap_min, lon_overlap_max) |}.

(** One turn of the loop over the low-resolution files: what it appends. *)
Definition overlap_with (high : rect) (low_file : file_info) : list overlap :=
  match bounds low_file with
  | None => []
  | Some low =>
      if lat_overlap high low && lon_overlap high low
      then [overlap_entry high low_file low]
      else []
  end.

(** The list [overlaps] once the loop over the low-resolution files ends. *)
Fixpoint find_overlaps (high : rect) (low_files : list file_info) : list overlap :=
  match low_files with
  | [] => []
  | low_file :: rest => (overlap_with high low_file ++ find_overlaps high rest)%list
  end.

(** What is printed for a high-resolution file that overlaps something. *)
Record overlap_report : Type := {
  or_file : string;
  or_region : string;
  or_overlaps : list overlap
}.

(** [sorted(overlaps, key=lambda x: x['area'], reverse=True)]. *)
Definition by_area (overlaps : list overlap) : list overlap :=
  sorted Qle_bool o_area true overlaps.

Definition report_high (low_files : list file_info) (high_file : file_info)
  : list overlap_report :=
  match bounds high_file with
  | None => []
  | Some high =>
      match find_overlaps high low_files with
      | [] => []
      | overlaps => [{| or_file := filename high_file;
                        or_region := region high_file;
                        or_overlaps := by_area overlaps |}]
      end
  end.

(** [(resolutions[i], resolutions[i+1])] for [i] in
    [range(len(resolutions)-1)]. *)
Fixpoint adjacent {A : Type} (l : list A) : list (A * A) :=
  match l with
  | a :: (b :: _) as rest => (a, b) :: adjacent rest
  | _ => []
  end.

Record comparison_report : Type := {
  cmp_high : string;
  cmp_low : string;
  cmp_files : list overlap_report
}.

Definition compare_resolutions (datasets : dict file_info) (pair : string * string)
  : comparison_report :=
  {| cmp_high := fst pair;
     cmp_low := snd pair;
     cmp_files := flat_map (report_high (dict_get (snd pair) datasets))
                           (dict_get (fst pair) datasets) |}.

Definition analyze_resolution_overlaps (datasets : dict file_info)
  : result (list comparison_report) :=
  if (1 <? List.length datasets)%nat then
    resolutions <- sort_by_resolution (fun k => k) (map fst datasets) ;;
    Ok (map (compare_resolutions datasets) (adjacent resolutions))
  else Ok [].

(** The comparison of [highs] with [lows] finds entry [e] for the pair of
    [high_file] and [low_file]. *)
Definition reports_pair (highs lows : list file_info)
  (high_file low_file : file_info) (e : overlap) : Prop :=
  In high_file highs /\ In low_file lows /\
  exists high, bounds high_file = Some high /\ In e (overlap_with high low_file).

(** *** The whole report *)

Record summary : Type := {
  sum_resolutions : list resolution_report;
  sum_gaps : gap_report;
  sum_overlaps : list comparison_report
}.

Definition print_summary (datasets : dict file_info) : result summary :=
  items <- sort_by_resolution fst datasets ;;
  resolutions <- mapM resolution_summary items ;;
  gaps <- analyze_coverage_gaps datasets ;;
  overlaps <- analyze_resolution_overlaps datasets ;;
  Ok {| sum_resolutions := resolutions;
        sum_gaps := gaps;
        sum_overlaps := overlaps |}.

(** [main], after the label files were found and read. *)
Definition run (infos : list file_info) : result summary :=
  print_summary (analyze_all_labels infos).

End Mola.

(** ** check_jezero_coverage.py *)

Module Jezero.

(** A label file with the four variables as the loop over its lines leaves
    them: [None] when no line set the bound or the last attempt to read it
    failed. *)
Record label : Type := {
  label_file : string;
  min_lat : option Q;
  max_lat : option Q;
  min_lon : option Q;
  max_lon : option Q
}.

Definition jezero_lat : Q := 184446 # 10000.
Definition jezero_lon : Q := 774509 # 10000.

(** The two nested [if]s that decide whether a file is appended to
    [files_covering_jezero]. *)
Definition covers_jezero (l : label) : bool :=
  match min_lat l, max_lat l, min_lon l, max_lon l with
  | Some lat_lo, Some lat_hi, Some lon_lo, Some lon_hi =>
      (Qle_bool lat_lo jezero_lat && Qle_bool jezero_lat lat_hi)
      && (Qle_bool lon_lo jezero_lon && Qle_bool jezero_lon lon_hi)
  | _, _, _, _ => false
  end.

(** The loop over the label files: every file goes to [all_files_info], the
    covering ones also to [files_covering_jezero]. *)
Fixpoint scan (labels : list label) (all_files_info covering : list label)
  : list label * list label :=
  match labels with
  | [] => (all_files_info, covering)
  | l :: rest =>
      scan rest (all_files_info ++ [l])%list
           (if covers_jezero l then (covering ++ [l])%list else covering)
  end.

(** [(all_files_info, files_covering_jezero)] as [check_coverage] prints
    them. *)
Definition check_coverage (labels : list label) : list label * list label :=
  scan labels [] [].

End Jezero.

(** ** The analysis as the specification words it *)

Module Spec.

Import Mola.

(** [|lat_max - lat_min| * |lon_max - lon_min|]. *)
Definition area (r : rect) : Q :=
  Qabs (r_lat_max r - r_lat_min r) * Qabs (r_lon_max r - r_lon_min r).

(** The area sum over the records in which all four bounds are present. *)
Fixpoint coverage_sum (files : list file_info) : Q :=
  match files with
  | [] => 0
  | f :: rest =>
      match bounds f with
      | Some r => area r + coverage_sum rest
      | None => coverage_sum rest
      end
  end.

(** The bounds of [f], when all present, are all different from zero: the
    records on which a truth test of a bound is a presence test. *)
Definition no_zero_bound (f : file_info) : Prop :=
  forall r, bounds f = Some r ->
            ~ r_lat_min r == 0 /\ ~ r_lat_max r == 0
            /\ ~ r_lon_min r == 0 /\ ~ r_lon_max r == 0.

(** The south-polar scan can test [f]: a near-polar southern record has
    its minimum latitude. *)
Definition scannable (f : file_info) : Prop :=
  contains "Near-Polar South" (region f) = true -> lat_min f <> None.

(** The invariant of a tile's bounds: [lat_min <= lat_max] and
    [lon_min <= lon_max]. *)
Definition well_formed (r : rect) : Prop :=
  r_lat_min r <= r_lat_max r /\ r_lon_min r <= r_lon_max r.

(** The closed rectangles meet in latitude. *)
Definition lat_meet (high low : rect) : Prop :=
  r_lat_min high <= r_lat_max low /\ r_lat_max high >= r_lat_min low.

(** The closed rectangles meet in longitude. *)
Definition lon_meet (high low : rect) : Prop :=
  r_lon_min high <= r_lon_max low /\ r_lon_max high >= r_lon_min low.

(** Two rectangles overlap: they meet in both directions. *)
Definition overlapping (high low : rect) : Prop :=
  lat_meet high low /\ lon_meet high low.

(** The gap between two consecutive intervals, when there is one:
    [next.lon_min - current.lon_max > 1.0]. *)
Definition gap_between (current next : Q * Q) : list (Q * Q) :=
  if Qgtb (fst next - snd current) 1 then [(snd current, fst next)] else [].

(** The gaps of a walk over the sorted intervals, pair by pair. *)
Fixpoint pairwise_gaps (intervals : list (Q * Q)) : list (Q * Q) :=
  match intervals with
  | current :: (next :: _) as rest =>
      (gap_between current next ++ pairwise_gaps rest)%list
  | _ => []
  end.

(** The wrap-around gap, when there is one: the last interval ends before
    359 and the first one starts after 1. *)
Definition wraparound_gap (intervals : list (Q * Q)) : list (Q * Q) :=
  match intervals with
  | [] => []
  | first :: _ =>
      let final := last intervals first in
      if Qltb (snd final) 359 && Qgtb (fst first) 1
      then [(snd final, fst first)]
      else []
  end.

(** The usable intervals of a group, sorted ascending by [lon_min]. *)
Definition sorted_intervals (files : list file_info) : list (Q * Q) :=
  sorted Qle_bool fst false (longitude_coverage files).

End Spec.

(** ** Sample inputs *)

Module Samples.

Import Mola.

Definition tile (name region : string) (ppd : option N)
  (lat_lo lat_hi lon_lo lon_hi : option Q) : file_info :=
  {| filename := name;
     lat_min := lat_lo; lat_max := lat_hi;
     lon_min := lon_lo; lon_max := lon_hi;
     pixels_per_degree := ppd;
     region := region |}.

Definition box (lat_lo lat_hi lon_lo lon_hi : Q) : rect :=
  {| r_lat_min := lat_lo; r_lat_max := lat_hi;
     r_lon_min := lon_lo; r_lon_max := lon_hi |}.

(** A label whose name gives no resolution and whose text gives no bound. *)
Definition stray : file_info :=
  tile "notes.lbl" "Unknown" None None None None None.

(** A near-polar southern tile whose label gave no minimum latitude. *)
Definition megt88s000hb : file_info :=
  tile "megt88s000hb.lbl" "Near-Polar South" (Some 128%N)
       None (Some (-80 # 1)) (Some 0) (Some 90).

(** The 128 pixels/degree tile south of the equator, from longitude 0. *)
Definition megt00n000hb : file_info :=
  tile "megt00n000hb.lbl" "Equatorial" (Some 128%N)
       (Some (-44 # 1)) (Some 0) (Some 0) (Some 90).

(** A 64 pixels/degree tile over the same band. *)
Definition megt00n000gb : file_info :=
  tile "megt00n000gb.lbl" "Equatorial" (Some 64%N)
       (Some (-44 # 1)) (Some 0) (Some 0) (Some 180).

(** A high-resolution tile and three low-resolution candidates that meet it
    in areas 5, 20 and 5. *)
Definition high_tile : file_info :=
  tile "high.lbl" "Mid-North" (Some 128%N) (Some 1) (Some 11) (Some 1) (Some 11).
Definition low_a : file_info :=
  tile "a.lbl" "Mid-North" (Some 64%N) (Some 1) (Some 2) (Some 1) (Some 6).
Definition low_b : file_info :=
  tile "b.lbl" "Mid-North" (Some 64%N) (Some 1) (Some 3) (Some 1) (Some 11).
Definition low_c : file_info :=
  tile "c.lbl" "Mid-North" (Some 64%N) (Some 1) (Some 6) (Some 1) (Some 2).

(** Two tiles that share the meridian 100 and nothing else. *)
Definition east : rect := box 10 20 100 200.
Definition west_tile : file_info :=
  tile "west.lbl" "Mid-North" (Some 64%N) (Some 10) (Some 20) (Some 30) (Some 100).
Definition west : rect := box 10 20 30 100.

(** A file of the equatorial band covering the longitudes [[lo, hi]]. *)
Definition span (lo hi : Q) : file_info :=
  tile "span.lbl" "Equatorial" (Some 4%N) (Some (-44 # 1)) (Some 44)
       (Some lo) (Some hi).

(** A file of the same band whose label gave no longitude. *)
Definition blank : file_info :=
  tile "blank.lbl" "Equatorial" (Some 4%N) (Some (-44 # 1)) (Some 44) None None.

(** A label over Jezero crater, and one whose eastern bound was not read. *)
Definition megt44n000hb_label : Jezero.label :=
  {| Jezero.label_file := "assets/mars_data/megt44n000hb.lbl";
     Jezero.min_lat := Some 0; Jezero.max_lat := Some 44;
     Jezero.min_lon := Some 0; Jezero.max_lon := Some 90 |}.

Definition unread_label : Jezero.label :=
  {| Jezero.label_file := "assets/mars_data/unread.lbl";
     Jezero.min_lat := Some 0; Jezero.max_lat := Some 44;
     Jezero.min_lon := Some 0; Jezero.max_lon := None |}.

Definition megt44n090hb_label : Jezero.label :=
  {| Jezero.label_file := "assets/mars_data/megt44n090hb.lbl";
     Jezero.min_lat := Some 0; Jezero.max_lat := Some 44;
     Jezero.min_lon := Some 90; Jezero.max_lon := Some 180 |}.

End Samples.

(** ** Orders and distances used to state further properties *)

Module Order.

Import Mola.

(** The key [k1] reads as a strictly higher resolution than [k2]. *)
Definition higher_resolution (k1 k2 : string) : Prop :=
  exists n m, key_int k1 = Ok n /\ key_int k2 = Ok m /\ (m < n)%Z.

(** A record that counts as south polar coverage: its region is the south
    polar one, or the near-polar southern one reaching 75 degrees south. *)
Definition south_polar_record (f : file_info) : Prop :=
  contains "South Polar" (region f) = true
  \/ (contains "Near-Polar South" (region f) = true
      /\ exists q, lat_min f = Some q /\ q <= -75 # 1).

(** The record has its four bounds. *)
Definition has_bounds (f : file_info) : bool :=
  match bounds f with
  | Some _ => true
  | None => false
  end.

(** Intervals that start at the same longitude are the same interval. *)
Definition distinct_starts (intervals : list (Q * Q)) : Prop :=
  forall a b, In a intervals -> In b intervals -> fst a == fst b -> a = b.

End Order.

(** ** check_jezero_coverage.py: reading the bounds of a label file *)

Module Reading.

(** [c.isspace()] for an ASCII character: tab to carriage return, the four
    separators 28 to 31, and the space. *)
Definition isspace (c : ascii) : bool :=
  let n := N_of_ascii c in
  ((9 <=? n) && (n <=? 13) || (28 <=? n) && (n <=? 31) || (n =? 32))%N.

Fixpoint lstrip (s : string) : string :=
  match s with
  | String c s' => if isspace c then lstrip s' else s
  | EmptyString => EmptyString
  end.

Fixpoint rstrip (s : string) : string :=
  match s with
  | EmptyString => EmptyString
  | String c s' =>
      match rstrip s' with
      | EmptyString => if isspace c then EmptyString else String c EmptyString
      | t => String c t
      end
  end.

(** [s.strip()], on ASCII text. *)
Definition strip (s : string) : string := rstrip (lstrip s).

(** [s.split(sep)[0]]: the text before the first [sep], all of [s] when
    there is none. *)
Fixpoint before (sep : ascii) (s : string) : string :=
  match s with
  | EmptyString => EmptyString
  | String c s' =>
      if Ascii.eqb c sep then EmptyString else String c (before sep s')
  end.

(** The text after the first [sep]; [None] when [s.split(sep)] has a single
    part. *)
Fixpoint after (sep : ascii) (s : string) : option string :=
  match s with
  | EmptyString => None
  | String c s' => if Ascii.eqb c sep then Some s' else after sep s'
  end.

(** [parts = line.split("="); val = parts[1].split("<")[0].strip()], when
    [len(parts) > 1]. *)
Definition value_text (line : string) : option string :=
  match after "=" line with
  | None => None
  | Some rest => Some (strip (before "<" (before "=" rest)))
  end.

(** [val] is one of the two spellings of a missing value. *)
Definition not_available (val : string) : bool :=
  String.eqb val "'N/A'" || String.eqb val "N/A".

Section Float.

(** [float(val)]: the number read, or [None] when it raises [ValueError]. *)
Variable float : string -> option Q.

(** The body of one branch: the new value of the bound it reads. *)
Definition read_bound (current : option Q) (line : string) : option Q :=
  match value_text line with
  | None => current
  | Some val => if not_available val then current else float val
  end.

(** One turn of the loop over the lines. *)
Definition read_line (st : Jezero.label) (line : string) : Jezero.label :=
  if contains "MINIMUM_LATITUDE" line then
    {| Jezero.label_file := Jezero.label_file st;
       Jezero.min_lat := read_bound (Jezero.min_lat st) line;
       Jezero.max_lat := Jezero.max_lat st;
       Jezero.min_lon := Jezero.min_lon st;
       Jezero.max_lon := Jezero.max_lon st |}
  else if contains "MAXIMUM_LATITUDE" line then
    {| Jezero.label_file := Jezero.label_file st;
       Jezero.min_lat := Jezero.min_lat st;
       Jezero.max_lat := read_bound (Jezero.max_lat st) line;
       Jezero.min_lon := Jezero.min_lon st;
       Jezero.max_lon := Jezero.max_lon st |}
  else if contains "WESTERNMOST_LONGITUDE" line then
    {| Jezero.label_file := Jezero.label_file st;
       Jezero.min_lat := Jezero.min_lat st;
       Jezero.max_lat := Jezero.max_lat st;
       Jezero.min_lon := read_bound (Jezero.min_lon st) line;
       Jezero.max_lon := Jezero.max_lon st |}
  else if contains "EASTERNMOST_LONGITUDE" line then
    {| Jezero.label_file := Jezero.label_file st;
       Jezero.min_lat := Jezero.min_lat st;
       Jezero.max_lat := Jezero.max_lat st;
       Jezero.min_lon := Jezero.min_lon st;
       Jezero.max_lon := read_bound (Jezero.max_lon st) line |}
  else st.

(** The four variables before the first line. *)
Definition unread (lbl_file : string) : Jezero.label :=
  {| Jezero.label_file := lbl_file;
     Jezero.min_lat := None; Jezero.max_lat := None;
     Jezero.min_lon := None; Jezero.max_lon := None |}.

(** The four variables after the loop over [f.readlines()]. *)
Definition read_label (lbl_file : string) (lines : list string) : Jezero.label :=
  fold_left read_line lines (unread lbl_file).

(** [check_coverage] from the lines of the label files. *)
Definition check_files (files : list (string * list string))
  : list Jezero.label * list Jezero.label :=
  Jezero.check_coverage (map (fun file => read_label (fst file) (snd file)) files).

End Float.

(** The line does not change what is read: it has no [=], or its value is
    spelled as missing. *)
Definition inert (line : string) : bool :=
  match value_text line with
  | None => true
  | Some val => not_available val
  end.

(** The branch a line takes: 0 to 3 for the four bounds in the order of
    the tests, [None] when the line has none of the four names. *)
Definition branch (line : string) : option nat :=
  if contains "MINIMUM_LATITUDE" line then Some 0%nat
  else if contains "MAXIMUM_LATITUDE" line then Some 1%nat
  else if contains "WESTERNMOST_LONGITUDE" line then Some 2%nat
  else if contains "EASTERNMOST_LONGITUDE" line then Some 3%nat
  else None.

(** The line takes branch [n]. *)
Definition takes (n : nat) (line : string) : bool :=
  match branch line with
  | Some m => Nat.eqb m n
  | None => false
  end.

(** The bound that branch [n] reads. *)
Definition bound (n : nat) (l : Jezero.label) : option Q :=
  match n with
  | 0%nat => Jezero.min_lat l
  | 1%nat => Jezero.max_lat l
  | 2%nat => Jezero.min_lon l
  | _ => Jezero.max_lon l
  end.

(** The text is white space only. *)
Fixpoint all_space (s : string) : bool :=
  match s with
  | EmptyString => true
  | String c s' => isspace c && all_space s'
  end.

(** A reader of plain decimal literals, [digits] or [digits.digits] with an
    optional minus sign, that stands in for [float] when an example is run;
    the theorems hold for whatever [float] does. *)
Definition unsigned_decimal (body : string) : option Q :=
  let whole := before "." body in
  if String.eqb whole "" then None
  else
    match after "." body with
    | None =>
        match digits_value 0 whole with
        | Some w => Some (Z.of_N w # 1)
        | None => None
        end
    | Some frac =>
        match digits_value 0 whole, digits_value 0 frac with
        | Some w, Some f =>
            Some ((Z.of_N w # 1)
                  + (Z.of_N f # Pos.pow 10 (Pos.of_nat (String.length frac))))
        | _, _ => None
        end
    end.

Definition decimal (val : string) : option Q :=
  match val with
  | String "-"%char body =>
      match unsigned_decimal body with
      | Some q => Some (- q)
      | None => None
      end
  | _ => unsigned_decimal val
  end.

End Reading.

(** ** check_jezero_coverage.py: the closest file *)

Module Closest.

(** [lat_distance] and [lon_distance]: 0 inside the range, else the smaller
    of the distances to its two ends. *)
Definition axis_distance (p lo hi : Q) : Q :=
  if Qltb p lo || Qgtb p hi
  then Py.min (Qabs (p - lo)) (Qabs (p - hi))
  else 0.

Section Root.

(** [x ** 0.5]. *)
Variable root : Q -> Q.

(** [distance], for a file that has its four bounds. *)
Definition distance (l : Jezero.label) : option Q :=
  match Jezero.min_lat l, Jezero.max_lat l, Jezero.min_lon l, Jezero.max_lon l with
  | Some lat_lo, Some lat_hi, Some lon_lo, Some lon_hi =>
      let lat_distance := axis_distance Jezero.jezero_lat lat_lo lat_hi in
      let lon_distance := axis_distance Jezero.jezero_lon lon_lo lon_hi in
      Some (root (lat_distance * lat_distance + lon_distance * lon_distance))
  | _, _, _, _ => None
  end.

(** [distance < min_distance], where [min_distance] starts at infinity
    ([None]). *)
Definition closer (d : Q) (min_distance : option Q) : bool :=
  match min_distance with
  | None => true
  | Some m => Qltb d m
  end.

(** The loop over the label files, with its two variables. *)
Fixpoint closest_loop (labels : list Jezero.label) (min_distance : option Q)
  (closest_file : option (Jezero.label * Q)) : option (Jezero.label * Q) :=
  match labels with
  | [] => closest_file
  | l :: rest =>
      match distance l with
      | Some d =>
          if closer d min_distance
          then closest_loop rest (Some d) (Some (l, d))
          else closest_loop rest min_distance closest_file
      | None => closest_loop rest min_distance closest_file
      end
  end.

(** [closest_file], in the branch taken when no file covers the crater;
    [None] when the other branch is taken. *)
Definition closest (labels : list Jezero.label) : option (Jezero.label * Q) :=
  match snd (Jezero.check_coverage labels) with
  | [] => closest_loop labels None None
  | _ :: _ => None
  end.

End Root.

End Closest.

(** ** Sample label texts *)

Module Texts.

Definition nl : string := String "010"%char EmptyString.

(** The lines of a label file over Jezero crater. *)
Definition megt44n000hb : list string :=
  [("PDS_VERSION_ID            = PDS3" ++ nl)%string;
   ("  MINIMUM_LATITUDE        = 0.0 <DEGREE>" ++ nl)%string;
   ("  MAXIMUM_LATITUDE        = 44.0 <DEGREE>" ++ nl)%string;
   ("  WESTERNMOST_LONGITUDE   = 0.0 <DEGREE>" ++ nl)%string;
   ("  EASTERNMOST_LONGITUDE   = 90.0 <DEGREE>" ++ nl)%string;
   ("END" ++ nl)%string].

(** A label that gives its minimum latitude, then spells it as missing. *)
Definition repeated_missing : list string :=
  [("MINIMUM_LATITUDE = -44.0 <DEGREE>" ++ nl)%string;
   ("MAXIMUM_LATITUDE = 0.0 <DEGREE>" ++ nl)%string;
   ("MINIMUM_LATITUDE = 'N/A'" ++ nl)%string].

(** A label that gives its minimum latitude, then an unreadable one. *)
Definition repeated_unreadable : list string :=
  [("MINIMUM_LATITUDE = -44.0 <DEGREE>" ++ nl)%string;
   ("MAXIMUM_LATITUDE = 0.0 <DEGREE>" ++ nl)%string;
   ("MINIMUM_LATITUDE = unknown" ++ nl)%string].

End Texts.

(** ** analyze_mola_labels.py: what [extract_key_info] takes from the name *)

Module Naming.

Import Mola.

(** [c.lower()] on one character.  The tests made on the lower-cased
    name only look for the letters [b e f g h l m n s t], digits, [_] and
    [.]; no character outside ASCII becomes one of these when lowered, so
    lowering the ASCII capitals is all that matters to them. *)
Definition lower_char (c : ascii) : ascii :=
  let n := N_of_ascii c in
  if (65 <=? n)%N && (n <=? 90)%N then ascii_of_N (n + 32) else c.

Fixpoint lower (s : string) : string :=
  match s with
  | EmptyString => EmptyString
  | String c s' => String (lower_char c) (lower s')
  end.

Definition is_digit (c : ascii) : bool :=
  match digit_of c with
  | Some _ => true
  | None => false
  end.

(** The longest run of decimal digits at the head of [s], and what follows
    it: all that a greedy [\d+] can take when the next item of the pattern is
    not a digit.  The digits are the ASCII ones: names are taken to hold no
    other decimal digit. *)
Fixpoint digits_run (s : string) : string * string :=
  match s with
  | String c s' =>
      if is_digit c
      then let (run, rest) := digits_run s' in (String c run, rest)
      else (EmptyString, s)
  | EmptyString => (EmptyString, EmptyString)
  end.

(** What follows the literal [p] at the head of [s]. *)
Fixpoint after_literal (p s : string) : option string :=
  match p, s with
  | EmptyString, _ => Some s
  | String a p', String b s' =>
      if Ascii.eqb a b then after_literal p' s' else None
  | String _ _, EmptyString => None
  end.

(** [(\d+)_(\d+)\.lbl] at the head of [s]: its first group. *)
Definition match_tiers (s : string) : option string :=
  let (tier, rest) := digits_run s in
  match tier, after_literal "_" rest with
  | String _ _, Some rest' =>
      let (part, rest'') := digits_run rest' in
      match part, after_literal ".lbl" rest'' with
      | String _ _, Some _ => Some tier
      | _, _ => None
      end
  | _, _ => None
  end.

(** [.*?(\d+)_(\d+)\.lbl] at the head of [s]: the lazy [.*?] skips as few
    characters as it can, none of them a line feed. *)
Fixpoint skip_to_tiers (s : string) : option string :=
  match match_tiers s with
  | Some tier => Some tier
  | None =>
      match s with
      | String c s' => if Ascii.eqb c "010" then None else skip_to_tiers s'
      | EmptyString => None
      end
  end.

(** [re.search(r'megt.*?(\d+)_(\d+)\.lbl', s)]: group 1 of the leftmost
    match. *)
Fixpoint search_tiers (s : string) : option string :=
  match s with
  | EmptyString => None
  | String _ s' =>
      match after_literal "megt" s with
      | Some rest =>
          match skip_to_tiers rest with
          | Some tier => Some tier
          | None => search_tiers s'
          end
      | None => search_tiers s'
      end
  end.

(** [info['pixels_per_degree']] as the name gives it. *)
Definition infer_resolution (filename : string) : option N :=
  let name := lower filename in
  match search_tiers name with
  | Some tier => digits_value 0 tier
  | None =>
      if contains "hb" name then Some 128%N
      else if contains "gb" name then Some 64%N
      else if contains "fb" name then Some 32%N
      else if contains "eb" name then Some 16%N
      else None
  end.

(** [re.search(r'megt(\d+)([ns])', s)]: the two groups of the leftmost
    match. *)
Fixpoint search_band (s : string) : option (string * ascii) :=
  match s with
  | EmptyString => None
  | String _ s' =>
      match after_literal "megt" s with
      | Some rest =>
          let (band, rest') := digits_run rest in
          match band, rest' with
          | String _ _, String h _ =>
              if Ascii.eqb h "n" || Ascii.eqb h "s" then Some (band, h)
              else search_band s'
          | _, _ => search_band s'
          end
      | None => search_band s'
      end
  end.

(** The region named after a latitude and a hemisphere. *)
Definition band_region (latitude : N) (hemisphere : string) : string :=
  if (latitude =? 0)%N then "Equatorial"
  else if (latitude =? 44)%N then "Mid-" ++ hemisphere
  else if (latitude =? 88)%N then "Near-Polar " ++ hemisphere
  else str_of_N latitude ++ "° " ++ hemisphere.

(** [info['region']].  The band is made of digits, so its value is always
    read. *)
Definition infer_region (filename : string) : string :=
  let name := lower filename in
  if contains "megt_n_" name then "North Polar"
  else if contains "megt_s_" name then "South Polar"
  else
    match search_band name with
    | Some (band, h) =>
        match digits_value 0 band with
        | Some latitude =>
            band_region latitude (if Ascii.eqb h "n" then "North" else "South")
        | None => "Unknown"
        end
    | None => "Unknown"
    end.

(** [extract_key_info] for the label file of base name [filename], the four
    bounds being what the four searches of its text gave. *)
Definition extract_key_info (filename : string)
  (lat_lo lat_hi lon_lo lon_hi : option Q) : file_info :=
  {| filename := filename;
     lat_min := lat_lo; lat_max := lat_hi;
     lon_min := lon_lo; lon_max := lon_hi;
     pixels_per_degree := infer_resolution filename;
     region := infer_region filename |}.

End Naming.

(** ** analyze_mola_labels.py: what [extract_key_info] takes from the text *)

Module Content.

(** An optional sign at the head of [s], and what follows it. *)
Definition sign_of (s : string) : string * string :=
  match s with
  | String c s' =>
      if Ascii.eqb c "+" || Ascii.eqb c "-"
      then (String c EmptyString, s')
      else (EmptyString, s)
  | EmptyString => (EmptyString, EmptyString)
  end.

(** [\s*=\s*([+-]?\d+\.\d+)] at the head of [s]: the text of the group.
    White space and digits are the ASCII ones. *)
Definition match_value (s : string) : option string :=
  match Naming.after_literal "=" (Reading.lstrip s) with
  | None => None
  | Some rest =>
      let (sign, rest1) := sign_of (Reading.lstrip rest) in
      let (whole, rest2) := Naming.digits_run rest1 in
      match whole, Naming.after_literal "." rest2 with
      | String _ _, Some rest3 =>
          match fst (Naming.digits_run rest3) with
          | EmptyString => None
          | frac => Some (sign ++ whole ++ "." ++ frac)%string
          end
      | _, _ => None
      end
  end.

(** [re.search(name + r'\s*=\s*([+-]?\d+\.\d+)', content)]: the group of
    the leftmost match, for a [name] without special characters; [None]
    when there is no match. *)
Fixpoint search_value (name content : string) : option string :=
  match content with
  | EmptyString => None
  | String _ content' =>
      match Naming.after_literal name content with
      | Some rest =>
          match match_value rest with
          | Some v => Some v
          | None => search_value name content'
          end
      | None => search_value name content'
      end
  end.

(** [name] starts nowhere inside [before] when [before] is followed by
    [name]. *)
Fixpoint starts_nowhere (name before : string) : bool :=
  match before with
  | EmptyString => true
  | String _ before' =>
      match Naming.after_literal name (before ++ name) with
      | Some _ => false
      | None => starts_nowhere name before'
      end
  end.

(** The text is a run of one or more decimal digits. *)
Definition digits (s : string) : Prop :=
  s <> EmptyString /\ fst (Naming.digits_run s) = s.

(** The text does not start with a digit. *)
Definition no_digit_ahead (s : string) : Prop :=
  fst (Naming.digits_run s) = EmptyString.

(** The text is a sign or nothing. *)
Definition signs (s : string) : Prop :=
  s = EmptyString \/ s = "+"%string \/ s = "-"%string.

(** The text has no white space, no [=] and no [<]. *)
Definition plain (s : string) : Prop :=
  Forall (fun c => Reading.isspace c = false
                   /\ Ascii.eqb c "=" = false /\ Ascii.eqb c "<" = false)
         (list_ascii_of_string s).

End Content.

(** * Properties *)

Import Mola.

(** ** The primitives on concrete values *)

Example int_of_digits : Py.int "128" = Ok 128%Z.
Proof. reflexivity. Qed.

Example int_of_None : Py.int "None" = Raise ValueError.
Proof. reflexivity. Qed.

Example split_first_of_key : split_first "64 pixels/degree" = Ok "64".
Proof. reflexivity. Qed.

Example str_of_128 : str_of_N 128 = "128".
Proof. reflexivity. Qed.

Example str_of_zero : str_of_N 0 = "0".
Proof. reflexivity. Qed.

Example polar_in_near_polar : contains "Polar" "Near-Polar South" = true.
Proof. reflexivity. Qed.

Example north_polar_not_in_near_polar :
  contains "North Polar" "Near-Polar North" = false.
Proof. reflexivity. Qed.

Example sorted_reverse_keeps_ties :
  sorted Nat.leb fst true [(5, "a"); (20, "b"); (5, "c")]%nat
  = [(20, "b"); (5, "a"); (5, "c")]%nat.
Proof. reflexivity. Qed.

Example sorted_keeps_ties :
  sorted Nat.leb fst false [(5, "a"); (2, "b"); (5, "c"); (2, "d")]%nat
  = [(2, "b"); (2, "d"); (5, "a"); (5, "c")]%nat.
Proof. reflexivity. Qed.

Example datasets_of_three :
  map (fun entry => (fst entry, map filename (snd entry)))
      (analyze_all_labels
         [Samples.megt00n000gb; Samples.megt00n000hb; Samples.low_a])
  = [("64 pixels/degree", ["megt00n000gb.lbl"; "a.lbl"]);
     ("128 pixels/degree", ["megt00n000hb.lbl"])].
Proof. reflexivity. Qed.

(** ** Numbers *)

Lemma Qltb_lt (a b : Q) : Qltb a b = true <-> a < b.
Proof.
  unfold Qltb. rewrite negb_true_iff. split.
  - intros H. apply Qnot_le_lt. intros Hle.
    apply Qle_bool_iff in Hle. congruence.
  - intros H. destruct (Qle_bool b a) eqn:E; [|reflexivity].
    apply Qle_bool_iff in E. exfalso. exact (Qlt_not_le _ _ H E).
Qed.

Lemma Qltb_ge (a b : Q) : Qltb a b = false <-> b <= a.
Proof.
  unfold Qltb. rewrite negb_false_iff. apply Qle_bool_iff.
Qed.

Lemma Qgtb_gt (a b : Q) : Qgtb a b = true <-> b < a.
Proof. apply Qltb_lt. Qed.

Lemma Qgtb_le (a b : Q) : Qgtb a b = false <-> a <= b.
Proof. apply Qltb_ge. Qed.

Lemma Qle_bool_total (a b : Q) : Qle_bool a b = true \/ Qle_bool b a = true.
Proof.
  rewrite !Qle_bool_iff.
  destruct (Qlt_le_dec a b) as [H|H]; [left; apply Qlt_le_weak|right]; assumption.
Qed.

Lemma Qle_bool_trans (a b c : Q) :
  Qle_bool a b = true -> Qle_bool b c = true -> Qle_bool a c = true.
Proof. rewrite !Qle_bool_iff. apply Qle_trans. Qed.

Lemma Qle_bool_false (a b : Q) : Qle_bool a b = false <-> b < a.
Proof.
  rewrite <- Qltb_lt. unfold Qltb. rewrite negb_true_iff. reflexivity.
Qed.

(** Python's [max] and [min] are the mathematical ones, up to [==]. *)
Lemma max_spec (a b : Q) :
  (a <= b /\ Py.max a b == b) \/ (b <= a /\ Py.max a b == a).
Proof.
  unfold Py.max. destruct (Qgtb b a) eqn:E.
  - apply Qgtb_gt in E. left. split; [apply Qlt_le_weak; assumption|reflexivity].
  - apply Qgtb_le in E. right. split; [assumption|reflexivity].
Qed.

Lemma min_spec (a b : Q) :
  (a <= b /\ Py.min a b == a) \/ (b <= a /\ Py.min a b == b).
Proof.
  unfold Py.min. destruct (Qltb b a) eqn:E.
  - apply Qltb_lt in E. right. split; [apply Qlt_le_weak; assumption|reflexivity].
  - apply Qltb_ge in E. left. split; [assumption|reflexivity].
Qed.

Lemma max_Qmax (a b : Q) : Py.max a b == Qmax a b.
Proof.
  destruct (max_spec a b) as [[H E]|[H E]]; rewrite E; symmetry.
  - apply Q.max_r; assumption.
  - apply Q.max_l; assumption.
Qed.

Lemma min_Qmin (a b : Q) : Py.min a b == Qmin a b.
Proof.
  destruct (min_spec a b) as [[H E]|[H E]]; rewrite E; symmetry.
  - apply Q.min_l; assumption.
  - apply Q.min_r; assumption.
Qed.

Lemma max_comm (a b : Q) : Py.max a b == Py.max b a.
Proof. rewrite !max_Qmax. apply Q.max_comm. Qed.

Lemma min_comm (a b : Q) : Py.min a b == Py.min b a.
Proof. rewrite !min_Qmin. apply Q.min_comm. Qed.

(** ** [sorted] orders, permutes and is stable *)

Section SortedFacts.
Context {A K : Type}.
Variable leb : K -> K -> bool.
Variable key : A -> K.
Hypothesis leb_total : forall a b, leb a b = true \/ leb b a = true.
Hypothesis leb_trans :
  forall a b c, leb a b = true -> leb b c = true -> leb a c = true.

Local Abbreviation before := (Py.before leb key).
Local Abbreviation same_key := (Py.same_key leb key).

Lemma before_total reverse x y :
  before reverse x y = true \/ before reverse y x = true.
Proof. unfold Py.before. destruct reverse; apply leb_total. Qed.

Lemma before_trans reverse x y z :
  before reverse x y = true -> before reverse y z = true ->
  before reverse x z = true.
Proof.
  unfold Py.before. destruct reverse; intros H1 H2.
  - exact (leb_trans _ _ _ H2 H1).
  - exact (leb_trans _ _ _ H1 H2).
Qed.

Lemma same_key_before reverse k x y :
  same_key k x = true -> same_key k y = true -> before reverse x y = true.
Proof.
  unfold Py.same_key, Py.before. rewrite !andb_true_iff.
  intros [Hx1 Hx2] [Hy1 Hy2].
  destruct reverse; eapply leb_trans; eauto.
Qed.

Lemma insert_by_unfold reverse x y l :
  insert_by leb key reverse x (y :: l)
  = if before reverse x y then x :: y :: l
    else y :: insert_by leb key reverse x l.
Proof. reflexivity. Qed.

Lemma insert_by_perm reverse x l :
  Permutation (insert_by leb key reverse x l) (x :: l).
Proof.
  induction l as [|y l IH].
  - reflexivity.
  - rewrite insert_by_unfold. destruct (before reverse x y).
    + reflexivity.
    + rewrite IH. apply perm_swap.
Qed.

Lemma sorted_perm reverse l : Permutation (sorted leb key reverse l) l.
Proof.
  induction l as [|x l IH]; simpl.
  - constructor.
  - rewrite insert_by_perm. constructor. exact IH.
Qed.

Lemma sorted_length reverse l :
  List.length (sorted leb key reverse l) = List.length l.
Proof. apply Permutation_length, sorted_perm. Qed.

Lemma insert_by_sorted reverse x l :
  StronglySorted (fun a b => before reverse a b = true) l ->
  StronglySorted (fun a b => before reverse a b = true)
                 (insert_by leb key reverse x l).
Proof.
  induction 1 as [|y l Hs IH Hy].
  - simpl. repeat constructor.
  - rewrite insert_by_unfold. destruct (before reverse x y) eqn:E.
    + constructor; [constructor; assumption|].
      constructor; [exact E|].
      rewrite Forall_forall in *. intros z Hz.
      eapply before_trans; [exact E|auto].
    + constructor; [exact IH|].
      rewrite Forall_forall in *. intros z Hz.
      apply (Permutation_in _ (insert_by_perm reverse x l)) in Hz.
      destruct Hz as [<-|Hz]; [|auto].
      destruct (before_total reverse x y); congruence.
Qed.

Lemma sorted_sorted reverse l :
  StronglySorted (fun a b => before reverse a b = true)
                 (sorted leb key reverse l).
Proof.
  induction l as [|x l IH]; simpl.
  - constructor.
  - apply insert_by_sorted, IH.
Qed.

Lemma insert_by_stable reverse k x l :
  filter (same_key k) (insert_by leb key reverse x l)
  = filter (same_key k) (x :: l).
Proof.
  induction l as [|y l IH].
  - reflexivity.
  - rewrite insert_by_unfold. destruct (before reverse x y) eqn:E.
    + reflexivity.
    + cbn [filter] in *. rewrite IH.
      destruct (same_key k x) eqn:Ex; [|reflexivity].
      destruct (same_key k y) eqn:Ey; [|reflexivity].
      rewrite (same_key_before reverse k x y Ex Ey) in E. discriminate.
Qed.

(** Stability: the elements of any one key keep their input order. *)
Lemma sorted_stable reverse k l :
  filter (same_key k) (sorted leb key reverse l) = filter (same_key k) l.
Proof.
  induction l as [|x l IH]; simpl.
  - reflexivity.
  - rewrite insert_by_stable. cbn [filter]. rewrite IH. reflexivity.
Qed.
End SortedFacts.

(** ** Overlap detection *)

Lemma lat_overlap_iff high low :
  lat_overlap high low = true <-> Spec.lat_meet high low.
Proof.
  unfold lat_overlap, Spec.lat_meet.
  rewrite andb_true_iff, !Qle_bool_iff. reflexivity.
Qed.

Lemma lon_overlap_iff high low :
  lon_overlap high low = true <-> Spec.lon_meet high low.
Proof.
  unfold lon_overlap, Spec.lon_meet.
  rewrite andb_true_iff, !Qle_bool_iff. reflexivity.
Qed.

Lemma overlap_test_iff high low :
  lat_overlap high low && lon_overlap high low = true
  <-> Spec.overlapping high low.
Proof.
  unfold Spec.overlapping.
  rewrite andb_true_iff, lat_overlap_iff, lon_overlap_iff. reflexivity.
Qed.

Lemma overlapping_sym high low :
  Spec.overlapping high low -> Spec.overlapping low high.
Proof.
  unfold Spec.overlapping, Spec.lat_meet, Spec.lon_meet. tauto.
Qed.

Lemma overlap_with_in high low_file e :
  In e (overlap_with high low_file) <->
  exists low, bounds low_file = Some low /\ Spec.overlapping high low
              /\ e = overlap_entry high low_file low.
Proof.
  unfold overlap_with. destruct (bounds low_file) as [low|].
  - destruct (lat_overlap high low && lon_overlap high low) eqn:E.
    + apply overlap_test_iff in E. split.
      * intros [<-|[]]. exists low. auto.
      * intros (low' & Hb & _ & ->). injection Hb as <-. left. reflexivity.
    + split; [intros []|].
      intros (low' & Hb & Ho & _). injection Hb as <-.
      apply overlap_test_iff in Ho. congruence.
  - split; [intros []|]. intros (low' & Hb & _). discriminate.
Qed.

Lemma find_overlaps_in high low_files e :
  In e (find_overlaps high low_files) <->
  exists low_file, In low_file low_files /\ In e (overlap_with high low_file).
Proof.
  induction low_files as [|f rest IH]; simpl.
  - split; [intros []|intros (? & [] & _)].
  - rewrite in_app_iff, IH. split.
    + intros [H|(g & Hg & He)]; [exists f|exists g]; auto.
    + intros (g & [<-|Hg] & He); [left|right; exists g]; auto.
Qed.

Lemma by_area_in overlaps e : In e (by_area overlaps) <-> In e overlaps.
Proof.
  unfold by_area. split; apply Permutation_in;
    [|symmetry]; apply sorted_perm.
Qed.

(** What [report_high] prints for a file, if anything: the overlaps found
    for its rectangle, ordered by area. *)
Lemma report_high_in low_files high_file r :
  In r (report_high low_files high_file) <->
  exists high, bounds high_file = Some high
               /\ find_overlaps high low_files <> []
               /\ r = {| or_file := filename high_file;
                         or_region := region high_file;
                         or_overlaps := by_area (find_overlaps high low_files) |}.
Proof.
  unfold report_high. destruct (bounds high_file) as [high|].
  - destruct (find_overlaps high low_files) as [|o os] eqn:E.
    + split; [intros []|]. intros (h & Hb & Hne & _).
      injection Hb as <-. congruence.
    + split.
      * intros [<-|[]]. exists high. rewrite E. repeat split. discriminate.
      * intros (h & Hb & _ & ->). injection Hb as <-. rewrite E. left. reflexivity.
  - split; [intros []|]. intros (h & Hb & _). discriminate.
Qed.

(** An entry is printed under a high-resolution file exactly when the
    loop over the low-resolution files found it. *)
Lemma reported_iff low_files high_file high e :
  bounds high_file = Some high ->
  (exists r, In r (report_high low_files high_file) /\ In e (or_overlaps r))
  <-> In e (find_overlaps high low_files).
Proof.
  intros Hb. split.
  - intros (r & Hr & He). apply report_high_in in Hr.
    destruct Hr as (h & Hb' & _ & ->). rewrite Hb in Hb'. injection Hb' as <-.
    simpl in He. exact (proj1 (by_area_in _ _) He).
  - intros He. eexists. split.
    + apply report_high_in. exists high. repeat split; [exact Hb|].
      intros E. rewrite E in He. destruct He.
    + simpl. exact (proj2 (by_area_in _ _) He).
Qed.

Lemma entry_area_nonneg high low_file low :
  Spec.well_formed high -> Spec.well_formed low -> Spec.overlapping high low ->
  0 <= o_area (overlap_entry high low_file low).
Proof.
  unfold Spec.well_formed, Spec.overlapping, Spec.lat_meet, Spec.lon_meet.
  intros [Hh1 Hh2] [Hl1 Hl2] [[Ha1 Ha2] [Ho1 Ho2]]. simpl.
  apply Qmult_le_0_compat.
  - destruct (max_spec (r_lat_min high) (r_lat_min low)) as [[_ E1]|[_ E1]];
      destruct (min_spec (r_lat_max high) (r_lat_max low)) as [[_ E2]|[_ E2]];
      rewrite E1, E2; lra.
  - destruct (max_spec (r_lon_min high) (r_lon_min low)) as [[_ E1]|[_ E1]];
      destruct (min_spec (r_lon_max high) (r_lon_max low)) as [[_ E2]|[_ E2]];
      rewrite E1, E2; lra.
Qed.

Lemma entry_area_shared_boundary high low_file low :
  Spec.well_formed high -> Spec.well_formed low ->
  r_lon_min high == r_lon_max low ->
  o_area (overlap_entry high low_file low) == 0.
Proof.
  unfold Spec.well_formed. intros [_ Hh] [_ Hl] Heq. simpl.
  assert (E : Py.min (r_lon_max high) (r_lon_max low)
              - Py.max (r_lon_min high) (r_lon_min low) == 0).
  { destruct (max_spec (r_lon_min high) (r_lon_min low)) as [[H1 E1]|[H1 E1]];
      destruct (min_spec (r_lon_max high) (r_lon_max low)) as [[H2 E2]|[H2 E2]];
      rewrite E1, E2; lra. }
  rewrite E. ring.
Qed.

Lemma StronglySorted_weaken {A : Type} (R R' : A -> A -> Prop) (l : list A) :
  (forall a b, R a b -> R' a b) -> StronglySorted R l -> StronglySorted R' l.
Proof.
  intros HR. induction 1 as [|x l Hs IH Hx]; constructor.
  - exact IH.
  - eapply Forall_impl; [|exact Hx]. intros y. apply HR.
Qed.

Lemma same_area_eqb (a : Q) (o : overlap) :
  Py.same_key Qle_bool o_area a o = Qeq_bool (o_area o) a.
Proof.
  unfold Py.same_key. apply eq_true_iff_eq.
  rewrite andb_true_iff, !Qle_bool_iff, Qeq_bool_iff. split.
  - intros [H1 H2]. apply Qle_antisym; assumption.
  - intros H. rewrite H. split; apply Qle_refl.
Qed.

Lemma by_area_descending overlaps :
  StronglySorted (fun a b => o_area b <= o_area a) (by_area overlaps).
Proof.
  unfold by_area.
  apply StronglySorted_weaken
    with (R := fun a b => Py.before Qle_bool o_area true a b = true).
  - intros a b. unfold Py.before. apply Qle_bool_iff.
  - apply sorted_sorted; [apply Qle_bool_total|apply Qle_bool_trans].
Qed.

Lemma by_area_stable overlaps (a : Q) :
  filter (fun o => Qeq_bool (o_area o) a) (by_area overlaps)
  = filter (fun o => Qeq_bool (o_area o) a) overlaps.
Proof.
  rewrite <- !(filter_ext _ _ (same_area_eqb a)).
  apply sorted_stable. apply Qle_bool_trans.
Qed.

Lemma find_overlaps_flat_map high low_files :
  find_overlaps high low_files = flat_map (overlap_with high) low_files.
Proof.
  induction low_files as [|f rest IH]; simpl; [|rewrite IH]; reflexivity.
Qed.

(** The pairs of [reports_pair] are the entries the comparison prints. *)
Lemma reports_pair_printed highs lows e :
  (exists high_file low_file, reports_pair highs lows high_file low_file e)
  <-> exists r, In r (flat_map (report_high lows) highs) /\ In e (or_overlaps r).
Proof.
  split.
  - intros (hf & lf & Hh & Hl & high & Hb & He).
    assert (Hin : In e (find_overlaps high lows)).
    { apply find_overlaps_in. exists lf. auto. }
    apply (reported_iff lows hf high e Hb) in Hin.
    destruct Hin as (r & Hr & Hre). exists r. split; [|exact Hre].
    apply in_flat_map. exists hf. auto.
  - intros (r & Hr & He). apply in_flat_map in Hr.
    destruct Hr as (hf & Hh & Hr).
    destruct (proj1 (report_high_in lows hf r) Hr) as (high & Hb & _ & Er).
    assert (Hin : In e (find_overlaps high lows)).
    { apply (reported_iff lows hf high e Hb). exists r. auto. }
    apply find_overlaps_in in Hin. destruct Hin as (lf & Hl & Hin).
    exists hf, lf. repeat split; auto. exists high. auto.
Qed.

(** C3: with all four bounds present on both sides, a low-resolution record
    is listed under a high-resolution record iff the closed rectangles meet
    in latitude and in longitude; the entry records the rectangle
    [[max lat_min, min lat_max] x [max lon_min, min lon_max]] and the
    product of its edge lengths as area; the area is not negative when both
    rectangles are well formed; rectangles that share only the boundary
    [high.lon_min = low.lon_max] are listed with area 0. *)
Theorem overlap_detection :
  (forall low_files high_file high e,
      bounds high_file = Some high ->
      ((exists r, In r (report_high low_files high_file) /\ In e (or_overlaps r))
       <->
       exists low_file low,
         In low_file low_files /\ bounds low_file = Some low /\
         (r_lat_min high <= r_lat_max low /\ r_lat_max high >= r_lat_min low /\
          r_lon_min high <= r_lon_max low /\ r_lon_max high >= r_lon_min low) /\
         e = overlap_entry high low_file low))
  /\ (forall high low_file low,
        bounds low_file = Some low ->
        (Spec.overlapping high low ->
         overlap_with high low_file = [overlap_entry high low_file low])
        /\ (~ Spec.overlapping high low -> overlap_with high low_file = []))
  /\ (forall high low_file low,
        let e := overlap_entry high low_file low in
        fst (o_lat_range e) == Qmax (r_lat_min high) (r_lat_min low) /\
        snd (o_lat_range e) == Qmin (r_lat_max high) (r_lat_max low) /\
        fst (o_lon_range e) == Qmax (r_lon_min high) (r_lon_min low) /\
        snd (o_lon_range e) == Qmin (r_lon_max high) (r_lon_max low) /\
        o_area e = (snd (o_lat_range e) - fst (o_lat_range e))
                   * (snd (o_lon_range e) - fst (o_lon_range e)))
  /\ (forall high low_file low,
        Spec.well_formed high -> Spec.well_formed low ->
        Spec.overlapping high low ->
        0 <= o_area (overlap_entry high low_file low))
  /\ (forall low_files high_file high low_file low,
        bounds high_file = Some high ->
        In low_file low_files -> bounds low_file = Some low ->
        Spec.well_formed high -> Spec.well_formed low ->
        Spec.lat_meet high low ->
        r_lon_min high == r_lon_max low ->
        (exists r, In r (report_high low_files high_file)
                   /\ In (overlap_entry high low_file low) (or_overlaps r))
        /\ o_area (overlap_entry high low_file low) == 0)
  /\ map (fun o => (o_file o, o_area o, o_lon_range o))
         (find_overlaps Samples.east [Samples.west_tile])
     = [("west.lbl", 0, (100, 100))].
Proof.
  split; [|split; [|split; [|split; [|split]]]].
  2:{ intros high low_file low Hb. unfold overlap_with. rewrite Hb.
      destruct (lat_overlap high low && lon_overlap high low) eqn:E.
      - split; [reflexivity|]. intros H. exfalso. apply H.
        apply overlap_test_iff. exact E.
      - split; [|reflexivity]. intros H. apply overlap_test_iff in H.
        congruence. }
  - intros low_files high_file high e Hb.
    rewrite (reported_iff low_files high_file high e Hb), find_overlaps_in.
    split.
    + intros (lf & Hl & He). apply overlap_with_in in He.
      destruct He as (low & Hlb & [[H1 H2] [H3 H4]] & ->).
      exists lf, low. repeat split; assumption.
    + intros (lf & low & Hl & Hlb & (H1 & H2 & H3 & H4) & ->).
      exists lf. split; [exact Hl|]. apply overlap_with_in.
      exists low. repeat split; assumption.
  - intros high low_file low. simpl.
    repeat split; try apply max_Qmax; apply min_Qmin.
  - apply entry_area_nonneg.
  - intros low_files high_file high low_file low Hb Hl Hlb Hwh Hwl Hlat Heq.
    split; [|apply entry_area_shared_boundary; assumption].
    apply (reported_iff low_files high_file high _ Hb), find_overlaps_in.
    exists low_file. split; [exact Hl|]. apply overlap_with_in.
    exists low. repeat split; try assumption; try apply Hlat.
    + rewrite Heq. apply Qle_refl.
    + destruct Hwh as [_ Hwh]. destruct Hwl as [_ Hwl].
      lra.
  - reflexivity.
Qed.

(** C7: the overlaps printed for a high-resolution record are ordered by
    area, largest first, and equal areas keep the order the low-resolution
    records had in the input; candidates of areas 5, 20, 5 are printed as
    20, first 5, second 5. *)
Theorem overlaps_sorted_by_area :
  (forall low_files high_file r,
      In r (report_high low_files high_file) ->
      exists high,
        bounds high_file = Some high /\
        find_overlaps high low_files = flat_map (overlap_with high) low_files /\
        StronglySorted (fun a b => o_area b <= o_area a) (or_overlaps r) /\
        Permutation (or_overlaps r) (find_overlaps high low_files) /\
        forall a,
          filter (fun o => Qeq_bool (o_area o) a) (or_overlaps r)
          = filter (fun o => Qeq_bool (o_area o) a) (find_overlaps high low_files))
  /\ (exists high,
        bounds Samples.high_tile = Some high /\
        map (fun o => (o_file o, o_area o))
            (find_overlaps high [Samples.low_a; Samples.low_b; Samples.low_c])
        = [("a.lbl", 5); ("b.lbl", 20); ("c.lbl", 5)])
  /\ map (fun o => (o_file o, o_area o))
         (flat_map or_overlaps
            (report_high [Samples.low_a; Samples.low_b; Samples.low_c]
                         Samples.high_tile))
     = [("b.lbl", 20); ("a.lbl", 5); ("c.lbl", 5)].
Proof.
  split; [|split].
  - intros low_files high_file r Hr. apply report_high_in in Hr.
    destruct Hr as (high & Hb & _ & ->). exists high. simpl.
    split; [exact Hb|]. split; [apply find_overlaps_flat_map|].
    split; [apply by_area_descending|].
    split; [apply sorted_perm|]. intros a. apply by_area_stable.
  - eexists. split; reflexivity.
  - reflexivity.
Qed.

(** C8: comparing [A] as the high-resolution group with [B] as the
    low-resolution group finds the same pairs as comparing [B] with [A], and
    a pair's rectangle and area are the same both ways; only the roles of
    the two files are exchanged. *)
Theorem overlap_symmetry (A B : list file_info) (a b : file_info) :
  ((exists e, reports_pair A B a b e) <-> (exists e', reports_pair B A b a e'))
  /\ (forall e e',
        reports_pair A B a b e -> reports_pair B A b a e' ->
        o_file e = filename b /\ o_file e' = filename a /\
        o_area e == o_area e' /\
        fst (o_lat_range e) == fst (o_lat_range e') /\
        snd (o_lat_range e) == snd (o_lat_range e') /\
        fst (o_lon_range e) == fst (o_lon_range e') /\
        snd (o_lon_range e) == snd (o_lon_range e')).
Proof.
  assert (swap : forall X Y x y e,
             reports_pair X Y x y e -> exists e', reports_pair Y X y x e').
  { intros X Y x y e (Hx & Hy & rx & Hbx & He).
    apply overlap_with_in in He. destruct He as (ry & Hby & Ho & _).
    exists (overlap_entry ry x rx). repeat split; try assumption.
    exists ry. split; [exact Hby|]. apply overlap_with_in.
    exists rx. repeat split; try assumption; apply overlapping_sym in Ho; apply Ho. }
  split.
  - split; intros [e He]; eapply swap; eassumption.
  - intros e e' (_ & _ & ra & Hba & He) (_ & _ & rb & Hbb & He').
    apply overlap_with_in in He. destruct He as (rb' & Hbb' & _ & ->).
    apply overlap_with_in in He'. destruct He' as (ra' & Hba' & _ & ->).
    rewrite Hbb in Hbb'. injection Hbb' as <-.
    rewrite Hba in Hba'. injection Hba' as <-.
    simpl. repeat split; try apply max_comm; try apply min_comm.
    rewrite (max_comm (r_lat_min ra)), (min_comm (r_lat_max ra)),
      (max_comm (r_lon_min ra)), (min_comm (r_lon_max ra)).
    reflexivity.
Qed.

Example overlap_symmetry_sample :
  exists e e',
    reports_pair [Samples.high_tile] [Samples.low_b]
                 Samples.high_tile Samples.low_b e
    /\ reports_pair [Samples.low_b] [Samples.high_tile]
                    Samples.low_b Samples.high_tile e'
    /\ o_area e = 20 /\ o_area e' = 20.
Proof.
  do 2 eexists. split; [|split].
  - split; [left; reflexivity|]. split; [left; reflexivity|].
    eexists. split; [reflexivity|]. left. reflexivity.
  - split; [left; reflexivity|]. split; [left; reflexivity|].
    eexists. split; [reflexivity|]. left. reflexivity.
  - split; reflexivity.
Qed.

(** ** Longitude gaps *)

(** The loop is the walk over consecutive pairs; the interval in front
    matters only through its upper end, which the loop keeps in [prev_max]. *)
Lemma walk_gaps_pairwise rest : forall prev_max gaps current,
  snd current = prev_max ->
  walk_gaps prev_max rest gaps
  = (gaps ++ Spec.pairwise_gaps (current :: rest))%list.
Proof.
  induction rest as [|[cmin cmax] rest IH]; intros prev_max gaps current Hc.
  - simpl. rewrite app_nil_r. reflexivity.
  - cbn [walk_gaps]. rewrite (IH cmax _ (cmin, cmax) eq_refl).
    cbn [Spec.pairwise_gaps]. unfold Spec.gap_between. rewrite Hc. simpl.
    destruct (Qgtb (cmin - prev_max) 1).
    + rewrite <- app_assoc. reflexivity.
    + reflexivity.
Qed.

Lemma check_gaps_split intervals :
  check_gaps intervals
  = (Spec.pairwise_gaps intervals ++ Spec.wraparound_gap intervals)%list.
Proof.
  destruct intervals as [|first rest]; [reflexivity|].
  unfold check_gaps, Spec.wraparound_gap, wraps.
  rewrite (walk_gaps_pairwise rest (snd first) [] first eq_refl).
  rewrite app_nil_l.
  destruct (Qltb (snd (last (first :: rest) first)) 359 && Qgtb (fst first) 1).
  - reflexivity.
  - symmetry. apply app_nil_r.
Qed.

Lemma lon_key_eq f lo : lon_min f = Some lo -> lon_key f == lo.
Proof.
  unfold lon_key. intros ->. destruct (Qeq_bool lo 0) eqn:E.
  - apply Qeq_bool_iff in E. symmetry. exact E.
  - reflexivity.
Qed.

Lemma coverage_unusable f rest :
  lon_min f = None \/ lon_max f = None ->
  longitude_coverage (f :: rest) = longitude_coverage rest.
Proof.
  simpl. intros [-> | ->]; [reflexivity|]. destruct (lon_min f); reflexivity.
Qed.

Lemma coverage_usable f rest lo hi :
  lon_min f = Some lo -> lon_max f = Some hi ->
  longitude_coverage (f :: rest) = (lo, hi) :: longitude_coverage rest.
Proof. simpl. intros -> ->. reflexivity. Qed.

Lemma usable_dec f :
  (exists lo hi, lon_min f = Some lo /\ lon_max f = Some hi)
  \/ (lon_min f = None \/ lon_max f = None).
Proof.
  destruct (lon_min f) as [lo|], (lon_max f) as [hi|]; eauto.
Qed.

(** A file without an interval can be put anywhere. *)
Lemma coverage_insert_unusable x l :
  lon_min x = None \/ lon_max x = None ->
  longitude_coverage (insert_by Qle_bool lon_key false x l)
  = longitude_coverage l.
Proof.
  intros Hx. induction l as [|y l IH].
  - apply (coverage_unusable x [] Hx).
  - rewrite insert_by_unfold. destruct (Py.before Qle_bool lon_key false x y).
    + apply (coverage_unusable x (y :: l) Hx).
    + destruct (usable_dec y) as [(lo & hi & H1 & H2)|Hy].
      * rewrite !(coverage_usable y _ lo hi H1 H2), IH. reflexivity.
      * rewrite !(coverage_unusable y _ Hy). exact IH.
Qed.

(** The first interval of files that all may follow [x] may follow the
    interval of [x]. *)
Lemma coverage_head_after x lo l :
  lon_min x = Some lo ->
  Forall (fun y => Py.before Qle_bool lon_key false x y = true) l ->
  match longitude_coverage l with
  | [] => True
  | iv :: _ => Qle_bool lo (fst iv) = true
  end.
Proof.
  intros Hx. induction 1 as [|y l Hy Hl IH]; [exact I|].
  destruct (usable_dec y) as [(a & b & H1 & H2)|Hu].
  - rewrite (coverage_usable y l a b H1 H2). simpl.
    unfold Py.before in Hy.
    rewrite (lon_key_eq x lo Hx), (lon_key_eq y a H1) in Hy. exact Hy.
  - rewrite (coverage_unusable y l Hu). exact IH.
Qed.

Lemma coverage_insert_usable x lo hi l :
  lon_min x = Some lo -> lon_max x = Some hi ->
  StronglySorted (fun a b => Py.before Qle_bool lon_key false a b = true) l ->
  longitude_coverage (insert_by Qle_bool lon_key false x l)
  = insert_by Qle_bool fst false (lo, hi) (longitude_coverage l).
Proof.
  intros Hlo Hhi. induction 1 as [|y l Hs IH Hy].
  - simpl. rewrite Hlo, Hhi. reflexivity.
  - rewrite insert_by_unfold.
    destruct (Py.before Qle_bool lon_key false x y) eqn:E.
    + rewrite (coverage_usable x _ lo hi Hlo Hhi).
      assert (Hall : Forall (fun z => Py.before Qle_bool lon_key false x z = true)
                            (y :: l)).
      { constructor; [exact E|]. eapply Forall_impl; [|exact Hy].
        intros z Hz. simpl in Hz.
        eapply before_trans; [apply Qle_bool_trans|exact E|exact Hz]. }
      pose proof (coverage_head_after x lo (y :: l) Hlo Hall) as Hhead.
      destruct (longitude_coverage (y :: l)) as [|iv ivs]; [reflexivity|].
      rewrite insert_by_unfold. unfold Py.before at 1. simpl fst at 1.
      rewrite Hhead. reflexivity.
    + destruct (usable_dec y) as [(a & b & H1 & H2)|Hu].
      * rewrite !(coverage_usable y _ a b H1 H2), IH, insert_by_unfold.
        unfold Py.before in E |- *. simpl fst.
        rewrite (lon_key_eq x lo Hlo), (lon_key_eq y a H1) in E.
        rewrite E. reflexivity.
      * rewrite !(coverage_unusable y _ Hu). exact IH.
Qed.

(** Sorting the files and keeping the usable intervals gives the usable
    intervals sorted by their lower end. *)
Lemma coverage_of_sorted files :
  longitude_coverage (sorted Qle_bool lon_key false files)
  = Spec.sorted_intervals files.
Proof.
  unfold Spec.sorted_intervals. induction files as [|x files IH].
  - reflexivity.
  - cbn [sorted fold_right].
    destruct (usable_dec x) as [(lo & hi & H1 & H2)|Hu].
    + rewrite (coverage_insert_usable x lo hi _ H1 H2).
      * fold (sorted Qle_bool lon_key false files). rewrite IH.
        rewrite (coverage_usable x files lo hi H1 H2). reflexivity.
      * apply sorted_sorted; [apply Qle_bool_total|apply Qle_bool_trans].
    + rewrite (coverage_insert_unusable x _ Hu).
      fold (sorted Qle_bool lon_key false files). rewrite IH.
      rewrite (coverage_unusable x files Hu). reflexivity.
Qed.

Lemma sorted_intervals_ascending files :
  StronglySorted (fun a b => fst a <= fst b) (Spec.sorted_intervals files).
Proof.
  unfold Spec.sorted_intervals.
  apply StronglySorted_weaken
    with (R := fun a b => Py.before Qle_bool fst false a b = true).
  - intros a b. unfold Py.before. apply Qle_bool_iff.
  - apply sorted_sorted; [apply Qle_bool_total|apply Qle_bool_trans].
Qed.

Lemma sorted_intervals_perm files :
  Permutation (Spec.sorted_intervals files) (longitude_coverage files).
Proof. apply sorted_perm. Qed.

(** The gaps of a group: nothing for a single file, else the pairwise gaps
    of the sorted usable intervals followed by the wrap-around gap. *)
Lemma region_gaps_split files :
  region_gaps files
  = if (1 <? List.length files)%nat
    then (Spec.pairwise_gaps (Spec.sorted_intervals files)
          ++ Spec.wraparound_gap (Spec.sorted_intervals files))%list
    else [].
Proof.
  unfold region_gaps. rewrite sorted_length, coverage_of_sorted, check_gaps_split.
  reflexivity.
Qed.


Lemma wraparound_gap_spec first rest :
  let final := last (first :: rest) first in
  (snd final < 359 /\ fst first > 1 ->
   Spec.wraparound_gap (first :: rest) = [(snd final, fst first)])
  /\ (~ (snd final < 359 /\ fst first > 1) ->
      Spec.wraparound_gap (first :: rest) = []).
Proof.
  intros final. unfold Spec.wraparound_gap. fold final.
  destruct (Qltb (snd final) 359) eqn:E1; destruct (Qgtb (fst first) 1) eqn:E2;
    simpl; split; try reflexivity; intros H.
  - exfalso. apply H. split; [apply Qltb_lt|apply Qgtb_gt]; assumption.
  - destruct H as [_ H]. apply Qgtb_gt in H. congruence.
  - destruct H as [H _]. apply Qltb_lt in H. congruence.
  - destruct H as [H _]. apply Qltb_lt in H. congruence.
Qed.

Lemma pairwise_gaps_positive intervals :
  Forall (fun g => snd g - fst g > 1 /\ fst g < snd g)
         (Spec.pairwise_gaps intervals).
Proof.
  induction intervals as [|current rest IH]; [constructor|].
  destruct rest as [|next rest]; [constructor|].
  cbn [Spec.pairwise_gaps]. apply Forall_app. split; [|exact IH].
  unfold Spec.gap_between.
  destruct (Qgtb (fst next - snd current) 1) eqn:E; [|constructor].
  apply Qgtb_gt in E. repeat constructor; simpl; lra.
Qed.

Lemma pairwise_gaps_short intervals :
  (List.length intervals < 2)%nat -> Spec.pairwise_gaps intervals = [].
Proof.
  destruct intervals as [|a [|b rest]]; simpl; intros H; try reflexivity; lia.
Qed.

Lemma sorted_intervals_length files :
  List.length (Spec.sorted_intervals files)
  = List.length (longitude_coverage files).
Proof. apply sorted_length. Qed.

(** A warning is printed for a region exactly when the region is not a
    polar one and its gap list is not empty. *)
Lemma region_warning_in resolution entry w :
  In w (region_warning resolution entry) <->
  contains "Polar" (fst entry) = false /\ region_gaps (snd entry) <> []
  /\ w = {| gw_resolution := resolution;
            gw_region := fst entry;
            gw_gaps := region_gaps (snd entry) |}.
Proof.
  unfold region_warning. destruct (contains "Polar" (fst entry)).
  - split; [intros []|intros [H _]; discriminate].
  - destruct (region_gaps (snd entry)) as [|g gs].
    + split; [intros []|intros (_ & H & _); congruence].
    + split.
      * intros [<-|[]]. repeat split. discriminate.
      * intros (_ & _ & ->). left. reflexivity.
Qed.


(** C5: in a group whose gap check runs, the wrap-around gap
    [(last.lon_max, first.lon_min)] is appended after the pairwise gaps iff
    the last sorted interval has [lon_max < 359.0] and the first has
    [lon_min > 1.0].  The intervals [[10,200]], [[210,350]] give the extra
    gap [(350,10)]. *)
Theorem wraparound_gap_detection :
  (forall files first rest,
      (1 < List.length files)%nat ->
      Spec.sorted_intervals files = first :: rest ->
      let final := last (first :: rest) first in
      (snd final < 359 /\ fst first > 1 ->
       region_gaps files
       = (Spec.pairwise_gaps (first :: rest) ++ [(snd final, fst first)])%list)
      /\ (~ (snd final < 359 /\ fst first > 1) ->
          region_gaps files = Spec.pairwise_gaps (first :: rest)))
  /\ region_gaps [Samples.span 10 200; Samples.span 210 350]
     = [(200, 210); (350, 10)]
  /\ region_gaps [Samples.span 0 200; Samples.span 210 350] = [(200, 210)]
  /\ region_gaps [Samples.span 10 200; Samples.span 210 360] = [(200, 210)].
Proof.
  split; [|repeat split; reflexivity].
  intros files first rest Hlen Hs final.
  rewrite region_gaps_split, Hs, (proj2 (Nat.ltb_lt _ _) Hlen).
  destruct (wraparound_gap_spec first rest) as [Hyes Hno]. fold final in Hyes, Hno.
  split; intros H.
  - rewrite (Hyes H). reflexivity.
  - rewrite (Hno H). apply app_nil_r.
Qed.

(** Where the gap check of a small group reports nothing: a group of
    fewer than 2 files, or without any usable interval, reports no gap; a
    group with fewer than 2 usable intervals reports no pairwise gap, so
    that all it can report is the wrap-around gap of its one interval. *)
Theorem few_intervals_gaps :
  (forall files, (List.length files < 2)%nat -> region_gaps files = [])
  /\ (forall files, longitude_coverage files = [] -> region_gaps files = [])
  /\ (forall resolution entry,
        (List.length (snd entry) < 2)%nat
        \/ longitude_coverage (snd entry) = [] ->
        region_warning resolution entry = [])
  /\ (forall files,
        (List.length (longitude_coverage files) < 2)%nat ->
        Spec.pairwise_gaps (Spec.sorted_intervals files) = []
        /\ (region_gaps files = []
            \/ exists lo hi,
                longitude_coverage files = [(lo, hi)]
                /\ hi < 359 /\ lo > 1
                /\ region_gaps files = [(hi, lo)])).
Proof.
  assert (Hfew : forall files,
             (List.length files < 2)%nat -> region_gaps files = []).
  { intros files H. rewrite region_gaps_split.
    assert (E : (1 <? List.length files)%nat = false) by (apply Nat.ltb_ge; lia).
    rewrite E. reflexivity. }
  assert (Hnone : forall files,
             longitude_coverage files = [] -> region_gaps files = []).
  { intros files H. rewrite region_gaps_split.
    unfold Spec.sorted_intervals. rewrite H. simpl.
    destruct (1 <? List.length files)%nat; reflexivity. }
  split; [exact Hfew|]. split; [exact Hnone|]. split.
  - intros resolution entry H. unfold region_warning.
    destruct (contains "Polar" (fst entry)); [reflexivity|].
    destruct H as [H|H]; [rewrite (Hfew _ H)|rewrite (Hnone _ H)]; reflexivity.
  - intros files H.
    assert (Hpw : Spec.pairwise_gaps (Spec.sorted_intervals files) = []).
    { apply pairwise_gaps_short. rewrite sorted_intervals_length. exact H. }
    split; [exact Hpw|].
    rewrite region_gaps_split, Hpw.
    destruct (1 <? List.length files)%nat; [|left; reflexivity].
    unfold Spec.sorted_intervals.
    destruct (longitude_coverage files) as [|[lo hi] [|iv ivs]].
    + left. reflexivity.
    + simpl. destruct (Qltb hi 359) eqn:E1; destruct (Qgtb lo 1) eqn:E2; simpl;
        try (left; reflexivity).
      right. exists lo, hi. apply Qltb_lt in E1. apply Qgtb_gt in E2. auto.
    + simpl in H. lia.
Qed.

(** C6: the guard [len(files_sorted) > 1] counts the files of the group
    before the files without longitudes are left out, not the usable
    intervals.  A file alone is never checked.  In a group of several files
    with one usable interval the check is made all the same, and the
    wrap-around gap [(lon_max, lon_min)] of that interval is reported when
    [lon_max < 359.0] and [lon_min > 1.0]: the interval [[10, 200]] reports
    nothing alone and [(200, 10)] next to a file without longitudes. *)
Theorem lone_interval_checked_beside_unusable :
  (forall f, region_gaps [f] = [])
  /\ (forall files lo hi,
        (1 < List.length files)%nat ->
        longitude_coverage files = [(lo, hi)] ->
        hi < 359 -> lo > 1 ->
        region_gaps files = [(hi, lo)])
  /\ longitude_coverage [Samples.span 10 200; Samples.blank] = [(10, 200)]
  /\ region_gaps [Samples.span 10 200] = []
  /\ region_gaps [Samples.span 10 200; Samples.blank] = [(200, 10)]
  /\ region_gaps [Samples.blank; Samples.span 10 200] = [(200, 10)]
  /\ (exists report,
        analyze_coverage_gaps
          (analyze_all_labels [Samples.span 10 200; Samples.blank]) = Ok report
        /\ warnings report
           = [{| gw_resolution := "4 pixels/degree";
                 gw_region := "Equatorial";
                 gw_gaps := [(200, 10)] |}])
  /\ ~ (forall resolution entry,
          contains "Polar" (fst entry) = false ->
          (List.length (longitude_coverage (snd entry)) < 2)%nat ->
          region_warning resolution entry = []).
Proof.
  split; [intros f; rewrite region_gaps_split; reflexivity|].
  split.
  - intros files lo hi Hlen Hcov Hhi Hlo.
    rewrite region_gaps_split, (proj2 (Nat.ltb_lt _ _) Hlen).
    unfold Spec.sorted_intervals. rewrite Hcov.
    cbn [sorted fold_right insert_by Spec.pairwise_gaps Spec.wraparound_gap
         last fst snd app].
    rewrite (proj2 (Qltb_lt hi 359) Hhi), (proj2 (Qgtb_gt lo 1) Hlo).
    reflexivity.
  - do 4 (split; [reflexivity|]).
    split; [eexists; split; reflexivity|].
    intros H.
    specialize (H "4 pixels/degree"
                  ("Equatorial", [Samples.span 10 200; Samples.blank])
                  eq_refl).
    assert (E : region_gaps [Samples.span 10 200; Samples.blank] = [(200, 10)])
      by reflexivity.
    unfold region_warning in H. simpl fst in H. simpl snd in H.
    rewrite E in H. simpl in H. discriminate H. lia.
Qed.

(** C10: every gap the pairwise walk records is a pair [(a, b)] with
    [b - a > 1.0], hence [a < b]; the gaps of a group are these followed by
    at most one wrap-around gap, the only one that can run backwards, as
    [(350, 10)] does. *)
Theorem pairwise_gaps_forward :
  (forall first rest,
      check_gaps (first :: rest)
      = (walk_gaps (snd first) rest [] ++ Spec.wraparound_gap (first :: rest))%list
      /\ Forall (fun g => snd g - fst g > 1 /\ fst g < snd g)
                (walk_gaps (snd first) rest [])
      /\ (List.length (Spec.wraparound_gap (first :: rest)) <= 1)%nat)
  /\ (forall files,
        exists pairwise wrap,
          region_gaps files = (pairwise ++ wrap)%list
          /\ Forall (fun g => snd g - fst g > 1 /\ fst g < snd g) pairwise
          /\ (List.length wrap <= 1)%nat
          /\ forall g, In g (region_gaps files) -> ~ fst g < snd g -> wrap = [g])
  /\ check_gaps [(10, 200); (210, 350)] = [(200, 210); (350, 10)].
Proof.
  assert (Hwrap : forall intervals,
             (List.length (Spec.wraparound_gap intervals) <= 1)%nat).
  { intros [|first rest]; simpl; [lia|].
    match goal with |- context [if ?c then _ else _] => destruct c end;
      simpl; lia. }
  split; [|split; [|reflexivity]].
  - intros first rest.
    rewrite (walk_gaps_pairwise rest (snd first) [] first eq_refl), app_nil_l.
    split; [apply check_gaps_split|].
    split; [apply pairwise_gaps_positive|apply Hwrap].
  - intros files. rewrite region_gaps_split.
    destruct (1 <? List.length files)%nat.
    + exists (Spec.pairwise_gaps (Spec.sorted_intervals files)),
        (Spec.wraparound_gap (Spec.sorted_intervals files)).
      pose proof (pairwise_gaps_positive (Spec.sorted_intervals files)) as Hpos.
      pose proof (Hwrap (Spec.sorted_intervals files)) as Hlen.
      repeat split; try assumption.
      intros g Hg Hback. apply in_app_or in Hg. destruct Hg as [Hg|Hg].
      * rewrite Forall_forall in Hpos. destruct (Hpos g Hg). contradiction.
      * destruct (Spec.wraparound_gap (Spec.sorted_intervals files))
          as [|w [|w' ws]]; simpl in *; try lia; try contradiction.
        destruct Hg as [->|[]]. reflexivity.
    + exists [], []. split; [reflexivity|]. split; [constructor|].
      split; [simpl; lia|]. intros g [].
Qed.

(** ** Jezero coverage *)

Lemma scan_spec labels : forall all_files_info covering,
  Jezero.scan labels all_files_info covering
  = ((all_files_info ++ labels)%list,
     (covering ++ filter Jezero.covers_jezero labels)%list).
Proof.
  induction labels as [|l rest IH]; intros all_files_info covering; simpl.
  - rewrite !app_nil_r. reflexivity.
  - rewrite IH, <- app_assoc. simpl.
    destruct (Jezero.covers_jezero l); [rewrite <- app_assoc|]; reflexivity.
Qed.

Lemma covers_jezero_iff l :
  Jezero.covers_jezero l = true <->
  exists lat_lo lat_hi lon_lo lon_hi,
    Jezero.min_lat l = Some lat_lo /\ Jezero.max_lat l = Some lat_hi /\
    Jezero.min_lon l = Some lon_lo /\ Jezero.max_lon l = Some lon_hi /\
    (lat_lo <= 184446 # 10000 /\ 184446 # 10000 <= lat_hi) /\
    (lon_lo <= 774509 # 10000 /\ 774509 # 10000 <= lon_hi).
Proof.
  unfold Jezero.covers_jezero, Jezero.jezero_lat, Jezero.jezero_lon.
  destruct (Jezero.min_lat l) as [a|], (Jezero.max_lat l) as [b|],
    (Jezero.min_lon l) as [c|], (Jezero.max_lon l) as [d|];
    try (split; [discriminate|intros (? & ? & ? & ? & ? & ? & ? & ? & _);
                              discriminate]).
  rewrite !andb_true_iff, !Qle_bool_iff. split.
  - intros H. exists a, b, c, d. tauto.
  - intros (a' & b' & c' & d' & Ea & Eb & Ec & Ed & H).
    injection Ea as <-. injection Eb as <-. injection Ec as <-. injection Ed as <-.
    exact H.
Qed.

(** C9: a scanned label file is listed as covering Jezero crater iff its four
    bounds were read and [min_lat <= 18.4446 <= max_lat] and
    [min_lon <= 77.4509 <= max_lon]; a file with a bound that was not read
    is never listed as covering, and every file is in the listing of all
    files. *)
Theorem jezero_coverage :
  (forall labels,
      fst (Jezero.check_coverage labels) = labels
      /\ snd (Jezero.check_coverage labels)
         = filter Jezero.covers_jezero labels)
  /\ (forall labels l,
        In l (snd (Jezero.check_coverage labels)) <->
        In l labels /\
        exists lat_lo lat_hi lon_lo lon_hi,
          Jezero.min_lat l = Some lat_lo /\ Jezero.max_lat l = Some lat_hi /\
          Jezero.min_lon l = Some lon_lo /\ Jezero.max_lon l = Some lon_hi /\
          (lat_lo <= 184446 # 10000 /\ 184446 # 10000 <= lat_hi) /\
          (lon_lo <= 774509 # 10000 /\ 774509 # 10000 <= lon_hi))
  /\ (forall labels l,
        In l labels ->
        Jezero.min_lat l = None \/ Jezero.max_lat l = None \/
        Jezero.min_lon l = None \/ Jezero.max_lon l = None ->
        ~ In l (snd (Jezero.check_coverage labels))
        /\ In l (fst (Jezero.check_coverage labels)))
  /\ Jezero.check_coverage
       [Samples.megt44n090hb_label; Samples.unread_label;
        Samples.megt44n000hb_label]
     = ([Samples.megt44n090hb_label; Samples.unread_label;
         Samples.megt44n000hb_label],
        [Samples.megt44n000hb_label]).
Proof.
  assert (Hcc : forall labels,
             Jezero.check_coverage labels
             = (labels, filter Jezero.covers_jezero labels)).
  { intros labels. unfold Jezero.check_coverage. apply scan_spec. }
  split; [|split; [|split]].
  - intros labels. rewrite Hcc. split; reflexivity.
  - intros labels l. rewrite Hcc. simpl.
    rewrite filter_In, covers_jezero_iff. reflexivity.
  - intros labels l Hin Hnone. rewrite Hcc. simpl. split; [|exact Hin].
    rewrite filter_In, covers_jezero_iff.
    intros (_ & a & b & c & d & Ea & Eb & Ec & Ed & _).
    destruct Hnone as [H|[H|[H|H]]]; congruence.
  - reflexivity.
Qed.

(** ** Region coverage *)

Lemma truthy_iff x : truthy x = true <-> exists q, x = Some q /\ ~ q == 0.
Proof.
  destruct x as [q|]; simpl.
  - rewrite negb_true_iff. split.
    + intros H. exists q. split; [reflexivity|]. apply Qeq_bool_neq. exact H.
    + intros (q' & E & H). injection E as <-.
      destruct (Qeq_bool q 0) eqn:Eq; [|reflexivity].
      apply Qeq_bool_iff in Eq. contradiction.
  - split; [discriminate|intros (q & E & _); discriminate].
Qed.

(** The guard keeps the subtraction away from [None]: a range never
    raises, and it is 0 unless both ends pass the truth test. *)
Lemma range_cases hi lo :
  (truthy hi && truthy lo = false /\ range hi lo = Ok 0)
  \/ (exists h l, hi = Some h /\ lo = Some l /\ ~ h == 0 /\ ~ l == 0
                  /\ range hi lo = Ok (Qabs (h - l))).
Proof.
  unfold range. destruct (truthy hi && truthy lo) eqn:E.
  - right. apply andb_true_iff in E. destruct E as [E1 E2].
    apply truthy_iff in E1. apply truthy_iff in E2.
    destruct E1 as (h & -> & Hh). destruct E2 as (l & -> & Hl).
    exists h, l. simpl. auto.
  - left. auto.
Qed.

Lemma coverage_ok f : exists c, coverage f = Ok c.
Proof.
  unfold coverage, lat_range, lon_range.
  destruct (range_cases (lat_max f) (lat_min f)) as [[_ ->]|(? & ? & _ & _ & _ & _ & ->)];
    destruct (range_cases (lon_max f) (lon_min f)) as [[_ ->]|(? & ? & _ & _ & _ & _ & ->)];
    simpl; eauto.
Qed.

(** A record without one of its bounds adds nothing. *)
Lemma coverage_missing f :
  bounds f = None -> exists c, coverage f = Ok c /\ c == 0.
Proof.
  unfold bounds, coverage, lat_range, lon_range, range. intros H.
  destruct (lat_min f) as [a|], (lat_max f) as [b|],
    (lon_min f) as [c|], (lon_max f) as [d|]; try discriminate; simpl;
    repeat match goal with
      | |- context [negb ?x] => destruct x; simpl
      end;
    eexists; (split; [reflexivity|ring]).
Qed.

(** A record whose four bounds are present and not zero adds its area. *)
Lemma coverage_present f r :
  bounds f = Some r ->
  ~ r_lat_min r == 0 -> ~ r_lat_max r == 0 ->
  ~ r_lon_min r == 0 -> ~ r_lon_max r == 0 ->
  coverage f = Ok (Spec.area r).
Proof.
  unfold bounds, coverage, lat_range, lon_range, range, Spec.area.
  destruct (lat_min f) as [a|], (lat_max f) as [b|],
    (lon_min f) as [c|], (lon_max f) as [d|]; try discriminate.
  intros E. injection E as <-. simpl. intros Ha Hb Hc Hd.
  assert (nz : forall q, ~ q == 0 -> Qeq_bool q 0 = false).
  { intros q Hq. destruct (Qeq_bool q 0) eqn:Eq; [|reflexivity].
    apply Qeq_bool_iff in Eq. contradiction. }
  rewrite (nz a Ha), (nz b Hb), (nz c Hc), (nz d Hd). reflexivity.
Qed.

(** A record with a bound equal to zero adds nothing, present or not. *)
Lemma coverage_zero_bound f :
  (exists q, q == 0 /\ (lat_min f = Some q \/ lat_max f = Some q
                        \/ lon_min f = Some q \/ lon_max f = Some q)) ->
  exists c, coverage f = Ok c /\ c == 0.
Proof.
  intros (q & Hq & Hf). apply Qeq_bool_iff in Hq.
  unfold coverage, lat_range, lon_range.
  destruct (range_cases (lat_max f) (lat_min f))
    as [[_ ->]|(h & l & Eh & El & Hh & Hl & ->)];
    destruct (range_cases (lon_max f) (lon_min f))
      as [[_ ->]|(h' & l' & Eh' & El' & Hh' & Hl' & ->)];
    simpl; try (eexists; split; [reflexivity|ring]).
  exfalso. apply Qeq_bool_iff in Hq.
  destruct Hf as [H|[H|[H|H]]]; congruence.
Qed.

Lemma sum_coverage_ok files : forall total, exists t, sum_coverage files total = Ok t.
Proof.
  induction files as [|f rest IH]; intros total; simpl.
  - eauto.
  - destruct (coverage_ok f) as [c ->]. simpl. apply IH.
Qed.

Lemma sum_coverage_spec files : forall total,
  Forall Spec.no_zero_bound files ->
  exists t, sum_coverage files total = Ok t
            /\ t == total + Spec.coverage_sum files.
Proof.
  induction files as [|f rest IH]; intros total Hall; simpl.
  - exists total. split; [reflexivity|ring].
  - inversion Hall as [|? ? Hf Hrest]; subst.
    destruct (bounds f) as [r|] eqn:Eb.
    + destruct (Hf r Eb) as (H1 & H2 & H3 & H4).
      rewrite (coverage_present f r Eb H1 H2 H3 H4). simpl.
      destruct (IH (total + Spec.area r) Hrest) as (t & -> & Ht).
      exists t. split; [reflexivity|]. rewrite Ht. ring.
    + destruct (coverage_missing f Eb) as (c & -> & Hc). simpl.
      destruct (IH (total + c) Hrest) as (t & -> & Ht).
      exists t. split; [reflexivity|]. rewrite Ht, Hc. ring.
Qed.

Lemma coverage_sum_perm l l' :
  Permutation l l' -> Spec.coverage_sum l == Spec.coverage_sum l'.
Proof.
  induction 1 as [|x l l' _ IH|x y l|l l' l'' _ IH1 _ IH2]; simpl.
  - reflexivity.
  - destruct (bounds x); rewrite IH; reflexivity.
  - destruct (bounds x), (bounds y); ring.
  - rewrite IH1. exact IH2.
Qed.

(** What the summary of a region holds: the members by file name, and,
    when no member has a bound at zero, the area sum of the
    specification. *)
Lemma region_summary_spec files region_group :
  match region_summary files region_group with
  | Ok None => region_files region_group files = []
  | Ok (Some rep) =>
      rr_region rep = region_group
      /\ rr_listing rep
         = sorted String.leb filename false (region_files region_group files)
      /\ Permutation (rr_listing rep) (region_files region_group files)
      /\ (Forall Spec.no_zero_bound (region_files region_group files) ->
          rr_total rep == Spec.coverage_sum (region_files region_group files))
  | Raise _ => False
  end.
Proof.
  unfold region_summary.
  destruct (region_files region_group files) as [|m ms] eqn:E; [reflexivity|].
  set (members := m :: ms).
  pose proof (sorted_perm String.leb filename false members) as Hperm.
  destruct (sum_coverage_ok (sorted String.leb filename false members) 0)
    as [t Ht].
  rewrite Ht. cbn [bind rr_region rr_listing rr_total].
  repeat split; try assumption.
  intros Hall.
  destruct (sum_coverage_spec (sorted String.leb filename false members) 0)
    as (t' & Ht' & Hsum).
  { rewrite Forall_forall in *. intros f Hf. apply Hall.
    eapply Permutation_in; eassumption. }
  rewrite Ht in Ht'. injection Ht' as <-.
  rewrite Hsum, (coverage_sum_perm _ _ Hperm). apply Qplus_0_l.
Qed.

(** C2: the equatorial tile [megt00n000hb] has its four bounds, two of
    them at 0.  It is printed in the listing of its region, yet the total
    of the region is 0 and not the area 44 x 90 = 3960 of the tile. *)
Theorem zero_bound_dropped_from_total :
  (exists r, bounds Samples.megt00n000hb = Some r /\ Spec.area r == 3960)
  /\ Spec.coverage_sum [Samples.megt00n000hb] == 3960
  /\ (exists rep,
        region_summary [Samples.megt00n000hb] "Equatorial" = Ok (Some rep)
        /\ rr_listing rep = [Samples.megt00n000hb]
        /\ rr_total rep == 0)
  /\ ~ (forall files region_group rep,
          region_summary files region_group = Ok (Some rep) ->
          rr_total rep == Spec.coverage_sum (region_files region_group files)).
Proof.
  split; [|split; [|split]].
  - eexists. split; reflexivity.
  - reflexivity.
  - eexists. repeat split; reflexivity.
  - intros H.
    specialize (H [Samples.megt00n000hb] "Equatorial" _ eq_refl).
    discriminate H.
Qed.

(** ** Resolution keys *)

Lemma digit_char (d : N) :
  (d < 10)%N -> digit_of (ascii_of_N (48 + d)) = Some d.
Proof.
  intros H.
  assert (E : (d = 0 \/ d = 1 \/ d = 2 \/ d = 3 \/ d = 4 \/ d = 5 \/ d = 6
               \/ d = 7 \/ d = 8 \/ d = 9)%N) by lia.
  repeat (destruct E as [->|E]; [reflexivity|]). subst d. reflexivity.
Qed.

(** A digit is neither white space nor a sign. *)
Lemma digit_plain (c : ascii) :
  digit_of c <> None ->
  is_space c = false /\ Ascii.eqb c "-" = false /\ Ascii.eqb c "+" = false.
Proof.
  destruct c as [[] [] [] [] [] [] [] []]; cbv; intros H;
    try (exfalso; apply H; reflexivity); repeat split.
Qed.

Lemma digits_of_pos_digits fuel : forall n acc,
  all_digits acc -> all_digits (digits_of_pos fuel n acc).
Proof.
  induction fuel as [|fuel IH]; intros n acc Hacc; simpl; [exact Hacc|].
  assert (Hd : all_digits (String (ascii_of_N (48 + n mod 10)) acc)).
  { constructor; [|exact Hacc].
    rewrite digit_char; [discriminate|]. apply N.mod_lt. discriminate. }
  destruct (n <? 10)%N; [exact Hd|apply IH; exact Hd].
Qed.

Lemma digits_of_pos_keeps fuel : forall n acc,
  acc <> EmptyString -> digits_of_pos fuel n acc <> EmptyString.
Proof.
  induction fuel as [|fuel IH]; intros n acc Hacc; simpl; [exact Hacc|].
  destruct (n <? 10)%N; [discriminate|]. apply IH. discriminate.
Qed.

Lemma str_of_N_nonempty n : str_of_N n <> EmptyString.
Proof.
  unfold str_of_N. simpl. destruct (n <? 10)%N; [discriminate|].
  apply digits_of_pos_keeps. discriminate.
Qed.

Lemma str_of_N_digits n : all_digits (str_of_N n).
Proof. apply digits_of_pos_digits. constructor. Qed.

(** Reading the digits that were written gives the number back. *)
Lemma digits_value_of_pos fuel : forall n acc,
  (n < 2 ^ N.of_nat fuel)%N ->
  digits_value 0 (digits_of_pos fuel n acc) = digits_value n acc.
Proof.
  induction fuel as [|fuel IH]; intros n acc Hn.
  - simpl in *. replace n with 0%N by lia. reflexivity.
  - cbn [digits_of_pos].
    assert (Hmod : (n mod 10 < 10)%N) by (apply N.mod_lt; discriminate).
    destruct (n <? 10)%N eqn:E.
    + apply N.ltb_lt in E. cbn [digits_value].
      rewrite (digit_char _ Hmod), N.mod_small by exact E. reflexivity.
    + apply N.ltb_ge in E. rewrite IH.
      * cbn [digits_value]. rewrite (digit_char _ Hmod).
        f_equal. symmetry. apply N.div_mod. discriminate.
      * rewrite Nat2N.inj_succ, N.pow_succ_r' in Hn.
        apply N.Div0.div_lt_upper_bound. lia.
Qed.

Lemma digits_value_str n : digits_value 0 (str_of_N n) = Some n.
Proof.
  unfold str_of_N. rewrite digits_value_of_pos; [reflexivity|].
  rewrite Nat2N.inj_succ, N2Nat.id, N.pow_succ_r'.
  pose proof (N.size_gt n). lia.
Qed.

Lemma int_str n : Py.int (str_of_N n) = Ok (Z.of_N n).
Proof.
  pose proof (str_of_N_nonempty n) as Hne.
  pose proof (str_of_N_digits n) as Hd.
  pose proof (digits_value_str n) as Hv.
  destruct (str_of_N n) as [|c s]; [congruence|].
  inversion Hd as [|? ? Hc _]; subst.
  destruct (digit_plain c Hc) as (_ & Hm & Hp).
  unfold Py.int. rewrite Hm, Hp. unfold int_digits. rewrite Hv. reflexivity.
Qed.

Lemma take_token_digits s rest :
  all_digits s -> take_token (s ++ String " " rest) = s.
Proof.
  induction s as [|c s IH]; intros Hd.
  - reflexivity.
  - inversion Hd as [|? ? Hc Hs]; subst.
    destruct (digit_plain c Hc) as (Hsp & _).
    simpl. rewrite Hsp, (IH Hs). reflexivity.
Qed.

Lemma split_first_digits s rest :
  s <> EmptyString -> all_digits s ->
  split_first (s ++ String " " rest) = Ok s.
Proof.
  intros Hne Hd. unfold split_first.
  destruct s as [|c s]; [congruence|].
  inversion Hd as [|? ? Hc Hs]; subst.
  destruct (digit_plain c Hc) as (Hsp & _).
  assert (E : lstrip (String c s ++ String " " rest)
              = String c s ++ String " " rest).
  { simpl. rewrite Hsp. reflexivity. }
  rewrite E. cbn [append]. f_equal.
  apply (take_token_digits (String c s) rest Hd).
Qed.

(** The key of a record gives its resolution back, and cannot be read when
    the record has none. *)
Lemma key_int_resolution f :
  key_int (resolution_key f)
  = match pixels_per_degree f with
    | Some n => Ok (Z.of_N n)
    | None => Raise ValueError
    end.
Proof.
  unfold key_int, resolution_key. destruct (pixels_per_degree f) as [n|].
  - rewrite (split_first_digits (str_of_N n) "pixels/degree"
               (str_of_N_nonempty n) (str_of_N_digits n)).
    apply int_str.
  - reflexivity.
Qed.

(** ** The monad and the dictionaries *)

Lemma mapM_ok {A B : Type} (f : A -> result B) (l : list A) :
  (forall x, In x l -> exists y, f x = Ok y) ->
  exists ys, mapM f l = Ok ys /\ List.length ys = List.length l.
Proof.
  induction l as [|x l IH]; intros H; simpl.
  - exists []. auto.
  - destruct (H x (or_introl eq_refl)) as [y ->].
    destruct IH as (ys & -> & Hlen); [intros z Hz; apply H; right; exact Hz|].
    exists (y :: ys). simpl. auto.
Qed.

Lemma mapM_raise {A B : Type} (f : A -> result B) (e : exn) (l : list A) :
  (forall x, In x l -> (exists y, f x = Ok y) \/ f x = Raise e) ->
  (exists x, In x l /\ f x = Raise e) ->
  mapM f l = Raise e.
Proof.
  induction l as [|x l IH]; intros Hall (bad & Hin & Hbad).
  - destruct Hin.
  - simpl. destruct (Hall x (or_introl eq_refl)) as [[y Hy]|Hx].
    + rewrite Hy. simpl. rewrite IH; [reflexivity| |].
      * intros z Hz. apply Hall. right. exact Hz.
      * destruct Hin as [<-|Hin]; [congruence|]. exists bad. auto.
    + rewrite Hx. reflexivity.
Qed.

Section Grouping.
Context {V : Type}.
Variable key_of : V -> string.

Lemma dict_append_filed (P : V -> Prop) v d :
  P v -> filed key_of P d -> filed key_of P (dict_append (key_of v) v d).
Proof.
  intros Hv. induction 1 as [|[k vs] d [Hne Hvs] Hd IH]; simpl.
  - repeat constructor; simpl; auto. discriminate.
  - destruct (String.eqb (key_of v) k) eqn:E.
    + apply String.eqb_eq in E. constructor; [|exact Hd]. simpl in *. split.
      * destruct vs; discriminate.
      * apply Forall_app. split; [exact Hvs|]. repeat constructor; auto.
    + constructor; [split; assumption|exact IH].
Qed.

Lemma dict_append_keys k v (d : dict V) k' :
  In k' (map fst (dict_append k v d)) <-> k' = k \/ In k' (map fst d).
Proof.
  induction d as [|[k0 vs] d IH]; simpl.
  - intuition.
  - destruct (String.eqb k k0) eqn:E; simpl.
    + apply String.eqb_eq in E. subst k0. intuition.
    + rewrite IH. intuition.
Qed.

Lemma group_filed (P : V -> Prop) l : forall d,
  Forall P l -> filed key_of P d ->
  filed key_of P (fold_left (fun d v => dict_append (key_of v) v d) l d).
Proof.
  induction l as [|v l IH]; intros d Hl Hd; simpl; [exact Hd|].
  inversion Hl; subst. apply IH; [assumption|].
  apply dict_append_filed; assumption.
Qed.

Lemma group_keys l : forall (d : dict V) k,
  In k (map fst (fold_left (fun d v => dict_append (key_of v) v d) l d))
  <-> In k (map fst d) \/ exists v, In v l /\ key_of v = k.
Proof.
  induction l as [|v l IH]; intros d k; simpl.
  - split; [auto|]. intros [H|(? & [] & _)]. exact H.
  - rewrite IH, dict_append_keys. split.
    + intros [[->|H]|(w & Hw & Hk)]; eauto.
    + intros [H|(w & [<-|Hw] & Hk)]; eauto.
Qed.
End Grouping.

Lemma datasets_filed infos :
  filed resolution_key (fun f => In f infos) (analyze_all_labels infos).
Proof.
  apply group_filed; [|constructor].
  apply Forall_forall. auto.
Qed.

Lemma datasets_keys infos k :
  In k (map fst (analyze_all_labels infos))
  <-> exists f, In f infos /\ resolution_key f = k.
Proof.
  unfold analyze_all_labels. rewrite group_keys. simpl. intuition.
Qed.

(** The key of every dataset is the key of one of the records. *)
Lemma datasets_key_source infos entry :
  In entry (analyze_all_labels infos) ->
  exists f, In f infos /\ resolution_key f = fst entry.
Proof.
  intros H. apply datasets_keys. apply in_map. exact H.
Qed.

(** ** Where the report aborts and where it does not *)

Lemma keyed_items {A : Type} (name : A -> string) (l : list A) keyed :
  mapM (fun x => n <- key_int (name x) ;; Ok (n, x)) l = Ok keyed ->
  map snd keyed = l.
Proof.
  revert keyed. induction l as [|x l IH]; intros keyed; simpl.
  - intros E. injection E as <-. reflexivity.
  - destruct (key_int (name x)) as [n|e]; simpl; [|discriminate].
    destruct (mapM _ l) as [ks|e]; simpl; [|discriminate].
    intros E. injection E as <-. simpl. rewrite (IH ks eq_refl). reflexivity.
Qed.

Lemma sort_by_resolution_raises {A : Type} (name : A -> string) (l : list A) :
  (forall x, In x l -> exists f, resolution_key f = name x) ->
  (exists x f, In x l /\ resolution_key f = name x
               /\ pixels_per_degree f = None) ->
  sort_by_resolution name l = Raise ValueError.
Proof.
  intros Hall (bad & f & Hin & Hk & Hnone).
  unfold sort_by_resolution. rewrite (mapM_raise _ ValueError); [reflexivity| |].
  - intros x Hx. destruct (Hall x Hx) as [g Hg].
    rewrite <- Hg, key_int_resolution.
    destruct (pixels_per_degree g); simpl; eauto.
  - exists bad. split; [exact Hin|].
    rewrite <- Hk, key_int_resolution, Hnone. reflexivity.
Qed.

Lemma sort_by_resolution_ok {A : Type} (name : A -> string) (l : list A) :
  (forall x, In x l ->
             exists f, resolution_key f = name x /\ pixels_per_degree f <> None) ->
  exists l', sort_by_resolution name l = Ok l' /\ Permutation l' l.
Proof.
  intros Hall. unfold sort_by_resolution.
  destruct (mapM_ok (fun x => n <- key_int (name x) ;; Ok (n, x)) l)
    as (keyed & Hk & _).
  { intros x Hx. destruct (Hall x Hx) as (f & Hf & Hp).
    rewrite <- Hf, key_int_resolution.
    destruct (pixels_per_degree f); [simpl; eauto|congruence]. }
  rewrite Hk. simpl. eexists. split; [reflexivity|].
  rewrite <- (keyed_items name l keyed Hk).
  apply Permutation_map, sorted_perm.
Qed.

(** C1: the run does abort on a missing field.  A record without
    resolution is filed under the key [None pixels/degree], which the sort
    of [print_summary] cannot read as an integer: the run ends in
    [ValueError] before anything is summarised.  A near-polar southern
    record without [lat_min] ends the run in [TypeError] in the south-polar
    scan. *)
Theorem run_aborts_on_missing_field :
  (forall infos,
      (exists f, In f infos /\ pixels_per_degree f = None) ->
      run infos = Raise ValueError)
  /\ run [Samples.stray] = Raise ValueError
  /\ run [Samples.megt00n000hb; Samples.stray; Samples.megt00n000gb]
     = Raise ValueError
  /\ run [Samples.megt88s000hb] = Raise TypeError.
Proof.
  split; [|repeat split; reflexivity].
  intros infos (f & Hin & Hnone). unfold run, print_summary.
  rewrite sort_by_resolution_raises; [reflexivity| |].
  - intros entry He. destruct (datasets_key_source infos entry He) as (g & _ & Hg).
    exists g. exact Hg.
  - assert (Hk : In (resolution_key f) (map fst (analyze_all_labels infos))).
    { apply datasets_keys. exists f. auto. }
    apply in_map_iff in Hk. destruct Hk as (entry & He & Hentry).
    exists entry, f. auto.
Qed.

Lemma region_summary_ok files region_group :
  exists r, region_summary files region_group = Ok r.
Proof.
  pose proof (region_summary_spec files region_group) as H.
  destruct (region_summary files region_group) as [r|e]; [eauto|destruct H].
Qed.

Lemma resolution_summary_ok item : exists r, resolution_summary item = Ok r.
Proof.
  unfold resolution_summary.
  destruct (mapM_ok (region_summary (snd item)) region_groups) as (regs & -> & _).
  - intros g _. apply region_summary_ok.
  - simpl. eauto.
Qed.

Lemma scan_dataset_ok dataset :
  Forall Spec.scannable dataset -> exists b, scan_dataset dataset = Ok b.
Proof.
  induction 1 as [|f rest Hf _ IH]; simpl; [eauto|].
  unfold south_polar_test.
  destruct (contains "South Polar" (region f)); simpl; [eauto|].
  destruct (contains "Near-Polar South" (region f)) eqn:E; simpl; [|exact IH].
  destruct (lat_min f) as [q|] eqn:El; [|exfalso; exact (Hf E El)].
  simpl. destruct (Qle_bool q (-75 # 1)); [eauto|exact IH].
Qed.

Lemma has_south_polar_ok values :
  Forall (Forall Spec.scannable) values -> exists b, has_south_polar values = Ok b.
Proof.
  induction 1 as [|d rest Hd _ IH]; simpl; [eauto|].
  destruct (scan_dataset_ok d Hd) as [b ->]. simpl.
  destruct b; [eauto|exact IH].
Qed.

(** The run completes when every record has a resolution and every
    near-polar southern record a minimum latitude; bounds may be missing
    otherwise. *)
Theorem run_completes infos :
  Forall (fun f => pixels_per_degree f <> None) infos ->
  Forall Spec.scannable infos ->
  exists report, run infos = Ok report.
Proof.
  intros Hres Hscan. rewrite Forall_forall in Hres, Hscan.
  assert (Hkeys : forall entry,
             In entry (analyze_all_labels infos) ->
             exists f, resolution_key f = fst entry
                       /\ pixels_per_degree f <> None).
  { intros entry He. destruct (datasets_key_source infos entry He) as (f & Hf & Hk).
    exists f. auto. }
  unfold run, print_summary.
  destruct (sort_by_resolution_ok fst (analyze_all_labels infos) Hkeys)
    as (items & -> & _). simpl.
  destruct (mapM_ok resolution_summary items) as (rs & -> & _);
    [intros; apply resolution_summary_ok|]. simpl.
  unfold analyze_coverage_gaps.
  destruct (has_south_polar_ok (map snd (analyze_all_labels infos))) as [b ->].
  { apply Forall_forall. intros d Hd. apply in_map_iff in Hd.
    destruct Hd as (entry & <- & He).
    pose proof (datasets_filed infos) as Hf. unfold filed in Hf.
    rewrite Forall_forall in Hf. destruct (Hf entry He) as [_ Hall].
    eapply Forall_impl; [|exact Hall]. intros f [Hin _]. apply Hscan, Hin. }
  simpl. unfold analyze_resolution_overlaps.
  destruct (1 <? List.length (analyze_all_labels infos))%nat; [|simpl; eauto].
  destruct (sort_by_resolution_ok (fun k => k)
              (map fst (analyze_all_labels infos))) as (ks & -> & _).
  { intros k Hk. apply in_map_iff in Hk. destruct Hk as (entry & <- & He).
    apply Hkeys, He. }
  simpl. eauto.
Qed.

Example run_completes_on_partial_records :
  exists report,
    run [Samples.megt00n000hb; Samples.blank; Samples.megt00n000gb] = Ok report.
Proof.
  apply run_completes; repeat constructor; try discriminate;
    intros H; discriminate H.
Qed.

(** * Further properties of the analysis *)

(** ** Grouping by resolution *)

Section Lookup.
Context {V : Type}.
Variable key_of : V -> string.

Lemma dict_get_append k k' (v : V) d :
  dict_get k (dict_append k' v d)
  = if String.eqb k' k then (dict_get k d ++ [v])%list else dict_get k d.
Proof.
  induction d as [|[k0 vs] d IH]; simpl.
  - rewrite (String.eqb_sym k k'). destruct (String.eqb k' k); reflexivity.
  - destruct (String.eqb k' k0) eqn:E0; simpl.
    + apply String.eqb_eq in E0. subst k0. rewrite (String.eqb_sym k k').
      destruct (String.eqb k' k); reflexivity.
    + destruct (String.eqb k k0) eqn:E1; [|exact IH].
      apply String.eqb_eq in E1. subst k0. rewrite E0. reflexivity.
Qed.

Lemma dict_get_group l : forall (d : dict V) k,
  dict_get k (fold_left (fun d v => dict_append (key_of v) v d) l d)
  = (dict_get k d ++ filter (fun v => String.eqb (key_of v) k) l)%list.
Proof.
  induction l as [|v l IH]; intros d k; simpl.
  - rewrite app_nil_r. reflexivity.
  - rewrite IH, dict_get_append.
    destruct (String.eqb (key_of v) k); [rewrite <- app_assoc|]; reflexivity.
Qed.

Lemma dict_append_nodup k (v : V) d :
  NoDup (map fst d) -> NoDup (map fst (dict_append k v d)).
Proof.
  induction d as [|[k0 vs] d IH]; simpl; intros H.
  - constructor; [intros []|constructor].
  - inversion H as [|? ? Hnot Hd]; subst.
    destruct (String.eqb k k0) eqn:E; simpl.
    + constructor; assumption.
    + constructor; [|apply IH; exact Hd].
      rewrite (dict_append_keys key_of). intros [->|Hin]; [|contradiction].
      rewrite String.eqb_refl in E. discriminate.
Qed.

Lemma group_nodup l : forall d : dict V,
  NoDup (map fst d) ->
  NoDup (map fst (fold_left (fun d v => dict_append (key_of v) v d) l d)).
Proof.
  induction l as [|v l IH]; intros d H; simpl; [exact H|].
  apply IH, dict_append_nodup, H.
Qed.

Lemma dict_get_entry (d : dict V) k vs :
  NoDup (map fst d) -> In (k, vs) d -> dict_get k d = vs.
Proof.
  induction d as [|[k0 vs0] d IH]; simpl; intros Hnd Hin; [destruct Hin|].
  inversion Hnd as [|? ? Hnot Hd]; subst.
  destruct Hin as [E|Hin].
  - injection E as -> ->. rewrite String.eqb_refl. reflexivity.
  - destruct (String.eqb k k0) eqn:E; [|apply IH; assumption].
    apply String.eqb_eq in E. subst k0. exfalso. apply Hnot.
    apply (in_map fst) in Hin. exact Hin.
Qed.

Lemma dict_append_concat k (v : V) d :
  Permutation (List.concat (map snd (dict_append k v d)))
              (v :: List.concat (map snd d)).
Proof.
  induction d as [|[k0 vs] d IH]; simpl.
  - reflexivity.
  - destruct (String.eqb k k0); simpl.
    + rewrite <- app_assoc. simpl.
      symmetry. apply Permutation_middle.
    + rewrite IH. symmetry. apply Permutation_middle.
Qed.

Lemma group_concat l : forall d : dict V,
  Permutation
    (List.concat (map snd (fold_left (fun d v => dict_append (key_of v) v d) l d)))
    (List.concat (map snd d) ++ l).
Proof.
  induction l as [|v l IH]; intros d; simpl.
  - rewrite app_nil_r. reflexivity.
  - rewrite IH, dict_append_concat. simpl. apply Permutation_middle.
Qed.
End Lookup.

(** X1: the dataset filed under a key holds exactly the records of that
    key, in the order in which the label files were read, and it is never
    empty. *)
Theorem dataset_is_filter infos entry :
  In entry (analyze_all_labels infos) ->
  snd entry = filter (fun f => String.eqb (resolution_key f) (fst entry)) infos
  /\ snd entry <> []
  /\ dict_get (fst entry) (analyze_all_labels infos) = snd entry.
Proof.
  intros Hin.
  assert (Hnd : NoDup (map fst (analyze_all_labels infos)))
    by (apply group_nodup; constructor).
  assert (Hget : dict_get (fst entry) (analyze_all_labels infos) = snd entry).
  { apply dict_get_entry; [exact Hnd|]. destruct entry. exact Hin. }
  split; [|split; [|exact Hget]].
  - rewrite <- Hget. unfold analyze_all_labels. rewrite dict_get_group.
    reflexivity.
  - pose proof (datasets_filed infos) as Hf. unfold filed in Hf.
    rewrite Forall_forall in Hf. apply (Hf entry Hin).
Qed.

Lemma dataset_is_filter_sample :
  snd ("64 pixels/degree", [Samples.megt00n000gb; Samples.low_a])
  = filter (fun f => String.eqb (resolution_key f) "64 pixels/degree")
           [Samples.megt00n000gb; Samples.megt00n000hb; Samples.low_a]
  /\ [Samples.megt00n000gb; Samples.low_a] <> []
  /\ dict_get "64 pixels/degree"
       (analyze_all_labels
          [Samples.megt00n000gb; Samples.megt00n000hb; Samples.low_a])
     = [Samples.megt00n000gb; Samples.low_a].
Proof.
  apply (dataset_is_filter
           [Samples.megt00n000gb; Samples.megt00n000hb; Samples.low_a]
           ("64 pixels/degree", [Samples.megt00n000gb; Samples.low_a])).
  simpl. left. reflexivity.
Defined.

(** X2: the keys of the datasets are pairwise distinct, every record is in
    the dataset of its key, and the datasets together hold each record
    exactly as often as the input does. *)
Theorem datasets_partition infos :
  NoDup (map fst (analyze_all_labels infos))
  /\ (forall f, In f infos ->
                In f (dict_get (resolution_key f) (analyze_all_labels infos)))
  /\ Permutation (List.concat (map snd (analyze_all_labels infos))) infos.
Proof.
  split; [apply group_nodup; constructor|]. split.
  - intros f Hf. unfold analyze_all_labels. rewrite dict_get_group. simpl.
    apply filter_In. split; [exact Hf|apply String.eqb_refl].
  - unfold analyze_all_labels. rewrite group_concat. reflexivity.
Qed.

Lemma resolution_key_inj f g :
  resolution_key f = resolution_key g
  <-> pixels_per_degree f = pixels_per_degree g.
Proof.
  split.
  - intros H. pose proof (key_int_resolution f) as Hf.
    rewrite H, key_int_resolution in Hf.
    destruct (pixels_per_degree f), (pixels_per_degree g);
      try discriminate; [|reflexivity].
    injection Hf as Hf. apply N2Z.inj in Hf. congruence.
  - unfold resolution_key. intros ->. reflexivity.
Qed.

Lemma datasets_nodup infos : NoDup (map fst (analyze_all_labels infos)).
Proof. apply group_nodup. constructor. Qed.

Lemma datasets_get infos k :
  dict_get k (analyze_all_labels infos)
  = filter (fun f => String.eqb (resolution_key f) k) infos.
Proof. unfold analyze_all_labels. rewrite dict_get_group. reflexivity. Qed.

(** X3: two records that were read end up in the same dataset iff they
    have the same resolution, a missing resolution counting as one more
    value. *)
Theorem same_dataset_iff_same_resolution infos f g :
  In f infos -> In g infos ->
  ((exists entry, In entry (analyze_all_labels infos)
                  /\ In f (snd entry) /\ In g (snd entry))
   <-> pixels_per_degree f = pixels_per_degree g).
Proof.
  intros Hf Hg. rewrite <- resolution_key_inj. split.
  - intros (entry & He & Hfe & Hge).
    pose proof (datasets_filed infos) as Hfiled. unfold filed in Hfiled.
    rewrite Forall_forall in Hfiled. destruct (Hfiled entry He) as [_ Hall].
    rewrite Forall_forall in Hall.
    destruct (Hall f Hfe) as [_ ->]. destruct (Hall g Hge) as [_ ->].
    reflexivity.
  - intros Hk.
    assert (Hin : In (resolution_key f) (map fst (analyze_all_labels infos))).
    { apply datasets_keys. exists f. auto. }
    apply in_map_iff in Hin. destruct Hin as ([k vs] & Ek & He).
    simpl in Ek. subst k. exists (resolution_key f, vs).
    split; [exact He|].
    rewrite <- (dict_get_entry _ _ _ (datasets_nodup infos) He), datasets_get.
    simpl. split; apply filter_In; split; try assumption.
    + apply String.eqb_refl.
    + rewrite Hk. apply String.eqb_refl.
Qed.

Lemma same_dataset_iff_same_resolution_sample :
  (exists entry,
      In entry (analyze_all_labels
                  [Samples.megt00n000gb; Samples.megt00n000hb; Samples.low_a])
      /\ In Samples.megt00n000gb (snd entry) /\ In Samples.low_a (snd entry))
  <-> pixels_per_degree Samples.megt00n000gb = pixels_per_degree Samples.low_a.
Proof.
  apply (same_dataset_iff_same_resolution
           [Samples.megt00n000gb; Samples.megt00n000hb; Samples.low_a]);
    simpl; auto.
Defined.

(** ** The order of the summary and of the comparisons *)

Lemma bind_ok {A B : Type} (m : result A) (k : A -> result B) b :
  bind m k = Ok b -> exists a, m = Ok a /\ k a = Ok b.
Proof. destruct m as [a|e]; simpl; [eauto|discriminate]. Qed.

Lemma mapM_Forall2 {A B : Type} (f : A -> result B) (l : list A) ys :
  mapM f l = Ok ys -> Forall2 (fun x y => f x = Ok y) l ys.
Proof.
  revert ys. induction l as [|x l IH]; intros ys; simpl.
  - intros E. injection E as <-. constructor.
  - intros E. apply bind_ok in E. destruct E as (y & Hy & E).
    apply bind_ok in E. destruct E as (ys' & Hys & E).
    injection E as <-. constructor; [exact Hy|apply IH, Hys].
Qed.

Lemma StronglySorted_within {A : Type} (R R' : A -> A -> Prop) (l : list A) :
  (forall a b, In a l -> In b l -> R a b -> R' a b) ->
  StronglySorted R l -> StronglySorted R' l.
Proof.
  intros HR Hs. induction Hs as [|x l Hs IH Hx]; constructor.
  - apply IH. intros a b Ha Hb. apply HR; right; assumption.
  - rewrite Forall_forall in *. intros y Hy.
    apply HR; [left; reflexivity|right; exact Hy|apply Hx, Hy].
Qed.

Lemma StronglySorted_map {A B : Type} (f : A -> B) (R : B -> B -> Prop) l :
  StronglySorted (fun a b => R (f a) (f b)) l <-> StronglySorted R (map f l).
Proof.
  induction l as [|x l IH]; simpl.
  - split; constructor.
  - split; intros H; inversion H as [|? ? Hs Hx]; subst; constructor;
      try (apply IH; exact Hs).
    + rewrite Forall_forall in *. intros y Hy.
      apply in_map_iff in Hy. destruct Hy as (a & <- & Ha). apply Hx, Ha.
    + rewrite Forall_forall in *. intros a Ha. apply Hx, in_map, Ha.
Qed.

Lemma StronglySorted_distinct {A B : Type} (f : A -> B) (R : A -> A -> Prop) l :
  NoDup (map f l) -> StronglySorted R l ->
  StronglySorted (fun a b => R a b /\ f a <> f b) l.
Proof.
  intros Hnd Hs. induction Hs as [|x l Hs IH Hx]; [constructor|].
  simpl in Hnd. inversion Hnd as [|? ? Hnot Hnd']; subst.
  constructor; [apply IH, Hnd'|].
  rewrite Forall_forall in *. intros y Hy. split; [apply Hx, Hy|].
  intros E. apply Hnot. rewrite E. apply in_map, Hy.
Qed.

Lemma StronglySorted_adjacent {A : Type} (R : A -> A -> Prop) l a b :
  StronglySorted R l -> In (a, b) (adjacent l) -> R a b.
Proof.
  induction 1 as [|x l Hs IH Hx]; [intros []|].
  destruct l as [|y l]; [intros []|].
  cbn [adjacent]. intros [E|Hin]; [|apply IH, Hin].
  injection E as <- <-. inversion Hx; assumption.
Qed.

Lemma keyed_keys {A : Type} (name : A -> string) (l : list A) keyed :
  mapM (fun x => n <- key_int (name x) ;; Ok (n, x)) l = Ok keyed ->
  Forall (fun p => key_int (name (snd p)) = Ok (fst p)) keyed.
Proof.
  intros H. apply mapM_Forall2 in H.
  induction H as [|x p l keyed Hx _ IH]; constructor; [|exact IH].
  apply bind_ok in Hx. destruct Hx as (n & Hn & E). injection E as <-.
  exact Hn.
Qed.

(** What the sort by resolution returns: the same elements, each before
    those of a resolution that is not higher. *)
Lemma sort_by_resolution_inv {A : Type} (name : A -> string) (l l' : list A) :
  sort_by_resolution name l = Ok l' ->
  Permutation l' l
  /\ StronglySorted
       (fun a b => exists n m, key_int (name a) = Ok n
                               /\ key_int (name b) = Ok m /\ (m <= n)%Z) l'.
Proof.
  unfold sort_by_resolution. intros H.
  apply bind_ok in H. destruct H as (keyed & Hk & E). injection E as <-.
  pose proof (keyed_items name l keyed Hk) as Hitems.
  pose proof (keyed_keys name l keyed Hk) as Hkeys.
  pose proof (sorted_perm Z.leb fst true keyed) as Hperm.
  split.
  - rewrite <- Hitems. apply Permutation_map, Hperm.
  - apply (proj1 (StronglySorted_map snd _ _)).
    apply StronglySorted_within
      with (R := fun a b => Py.before Z.leb fst true a b = true).
    + rewrite Forall_forall in Hkeys. intros a b Ha Hb Hab.
      apply (Permutation_in _ Hperm) in Ha.
      apply (Permutation_in _ Hperm) in Hb.
      exists (fst a), (fst b).
      split; [apply Hkeys, Ha|]. split; [apply Hkeys, Hb|].
      unfold Py.before in Hab. apply Z.leb_le. exact Hab.
    + apply sorted_sorted.
      * intros a b. rewrite !Z.leb_le. lia.
      * intros a b c. rewrite !Z.leb_le. lia.
Qed.

Lemma insert_by_map {A B K : Type} (leb : K -> K -> bool)
  (key : B -> K) (h : A -> B) reverse x l :
  insert_by leb key reverse (h x) (map h l)
  = map h (insert_by leb (fun a => key (h a)) reverse x l).
Proof.
  induction l as [|y l IH]; simpl; [reflexivity|].
  unfold Py.before.
  destruct (if reverse then leb (key (h y)) (key (h x))
            else leb (key (h x)) (key (h y))); simpl; [reflexivity|].
  rewrite IH. reflexivity.
Qed.

Lemma sorted_map {A B K : Type} (leb : K -> K -> bool)
  (key : B -> K) (h : A -> B) reverse l :
  sorted leb key reverse (map h l)
  = map h (sorted leb (fun a => key (h a)) reverse l).
Proof.
  induction l as [|x l IH]; simpl; [reflexivity|].
  rewrite IH. apply insert_by_map.
Qed.

Lemma mapM_map {A B C : Type} (h : A -> B) (f : B -> result C) l :
  mapM f (map h l) = mapM (fun x => f (h x)) l.
Proof.
  induction l as [|x l IH]; simpl; [|rewrite IH]; reflexivity.
Qed.

(** Sorting the keys gives the keys of the sorted items. *)
Lemma sort_keys {V : Type} (d : list (string * V)) items :
  sort_by_resolution fst d = Ok items ->
  sort_by_resolution (fun k => k) (map fst d) = Ok (map fst items).
Proof.
  unfold sort_by_resolution. intros H.
  apply bind_ok in H. destruct H as (keyed & Hk & E). injection E as <-.
  rewrite mapM_map.
  assert (Hm : forall l ks,
             mapM (fun x : string * V => n <- key_int (fst x) ;; Ok (n, x)) l
             = Ok ks ->
             mapM (fun x : string * V => n <- key_int (fst x) ;; Ok (n, fst x)) l
             = Ok (map (fun p => (fst p, fst (snd p))) ks)).
  { induction l as [|x l IH]; intros ks; simpl.
    - intros E. injection E as <-. reflexivity.
    - destruct (key_int (fst x)) as [n|e]; simpl; [|discriminate].
      destruct (mapM _ l) as [ks'|e] eqn:El; simpl; [|discriminate].
      intros E. injection E as <-. rewrite (IH ks' eq_refl). reflexivity. }
  rewrite (Hm d keyed Hk). simpl. f_equal.
  rewrite (sorted_map Z.leb fst (fun p : Z * (string * V) => (fst p, fst (snd p)))).
  simpl. rewrite !map_map. reflexivity.
Qed.

Lemma resolution_summary_key item r :
  resolution_summary item = Ok r ->
  res_key r = fst item /\ res_count r = List.length (snd item).
Proof.
  unfold resolution_summary. intros H.
  apply bind_ok in H. destruct H as (regs & _ & E). injection E as <-.
  split; reflexivity.
Qed.

Lemma summaries_keys items rs :
  mapM resolution_summary items = Ok rs ->
  map (fun r => (res_key r, res_count r)) rs
  = map (fun item => (fst item, List.length (snd item))) items.
Proof.
  intros H. apply mapM_Forall2 in H.
  induction H as [|item r items rs Hr _ IH]; simpl; [reflexivity|].
  destruct (resolution_summary_key item r Hr) as [-> ->]. rewrite IH.
  reflexivity.
Qed.

(** The parts of a run that completed. *)
Lemma run_inv infos report :
  run infos = Ok report ->
  exists items,
    sort_by_resolution fst (analyze_all_labels infos) = Ok items
    /\ mapM resolution_summary items = Ok (sum_resolutions report)
    /\ analyze_coverage_gaps (analyze_all_labels infos) = Ok (sum_gaps report)
    /\ analyze_resolution_overlaps (analyze_all_labels infos)
       = Ok (sum_overlaps report).
Proof.
  unfold run, print_summary. intros H.
  apply bind_ok in H. destruct H as (items & Hi & H).
  apply bind_ok in H. destruct H as (rs & Hrs & H).
  apply bind_ok in H. destruct H as (gaps & Hg & H).
  apply bind_ok in H. destruct H as (ovs & Ho & H).
  injection H as <-. exists items. simpl. auto.
Qed.

(** The keys of the datasets read as pairwise different resolutions. *)
Lemma dataset_keys_differ infos a b n m :
  In a (analyze_all_labels infos) -> In b (analyze_all_labels infos) ->
  fst a <> fst b ->
  key_int (fst a) = Ok n -> key_int (fst b) = Ok m -> n <> m.
Proof.
  intros Ha Hb Hab Hn Hm ->.
  destruct (datasets_key_source infos a Ha) as (f & _ & Hf).
  destruct (datasets_key_source infos b Hb) as (g & _ & Hg).
  apply Hab. rewrite <- Hf, <- Hg. apply resolution_key_inj.
  rewrite <- Hf, key_int_resolution in Hn.
  rewrite <- Hg, key_int_resolution in Hm.
  destruct (pixels_per_degree f), (pixels_per_degree g); try discriminate.
  injection Hn as Hn. injection Hm as Hm. f_equal. lia.
Qed.

Lemma sorted_datasets_descend infos items :
  sort_by_resolution fst (analyze_all_labels infos) = Ok items ->
  StronglySorted Order.higher_resolution (map fst items).
Proof.
  intros H. destruct (sort_by_resolution_inv _ _ _ H) as [Hperm Hs].
  apply (proj1 (StronglySorted_map fst Order.higher_resolution items)).
  apply (StronglySorted_distinct fst) in Hs.
  - eapply StronglySorted_within; [|exact Hs].
    intros a b Ha Hb [(n & m & Hn & Hm & Hle) Hab].
    exists n, m. split; [exact Hn|]. split; [exact Hm|].
    assert (n <> m).
    { apply (dataset_keys_differ infos a b); try assumption;
        eapply Permutation_in; eassumption. }
    lia.
  - apply (Permutation_NoDup (Permutation_map fst (Permutation_sym Hperm))).
    apply datasets_nodup.
Qed.

(** X4: in a report that was printed, the resolution sections stand for
    the datasets, one section each with the number of its files, from the
    highest resolution down, no two of the same resolution. *)
Theorem summary_sections_descend infos report :
  run infos = Ok report ->
  Permutation (map (fun r => (res_key r, res_count r)) (sum_resolutions report))
              (map (fun entry => (fst entry, List.length (snd entry)))
                   (analyze_all_labels infos))
  /\ StronglySorted Order.higher_resolution
                    (map res_key (sum_resolutions report)).
Proof.
  intros H. destruct (run_inv infos report H) as (items & Hi & Hrs & _).
  pose proof (summaries_keys items _ Hrs) as Hkeys.
  destruct (sort_by_resolution_inv _ _ _ Hi) as [Hperm _].
  split.
  - rewrite Hkeys. apply Permutation_map, Hperm.
  - assert (E : map res_key (sum_resolutions report) = map fst items).
    { apply (f_equal (map fst)) in Hkeys. rewrite !map_map in Hkeys.
      exact Hkeys. }
    rewrite E. apply (sorted_datasets_descend infos), Hi.
Qed.

(** X5: in a report that was printed, the comparisons are those of each
    resolution section with the next one, so there is one comparison less
    than there are datasets, and each one has the strictly higher resolution
    in the high role. *)
Theorem comparisons_are_adjacent infos report :
  run infos = Ok report ->
  map (fun c => (cmp_high c, cmp_low c)) (sum_overlaps report)
  = adjacent (map res_key (sum_resolutions report))
  /\ List.length (sum_overlaps report)
     = Nat.pred (List.length (analyze_all_labels infos))
  /\ Forall (fun c => Order.higher_resolution (cmp_high c) (cmp_low c))
            (sum_overlaps report).
Proof.
  intros H. destruct (run_inv infos report H) as (items & Hi & Hrs & _ & Ho).
  pose proof (summaries_keys items _ Hrs) as Hkeys.
  assert (E : map res_key (sum_resolutions report) = map fst items).
  { apply (f_equal (map fst)) in Hkeys. rewrite !map_map in Hkeys.
    exact Hkeys. }
  destruct (sort_by_resolution_inv _ _ _ Hi) as [Hperm _].
  assert (Hlen : List.length (map fst items)
                 = List.length (analyze_all_labels infos)).
  { rewrite length_map. apply Permutation_length, Hperm. }
  assert (Hadj : forall (l : list string),
             List.length (adjacent l) = Nat.pred (List.length l)).
  { induction l as [|a [|b l] IH]; try reflexivity.
    cbn [adjacent List.length] in *. rewrite IH. reflexivity. }
  assert (Hpairs : map (fun c => (cmp_high c, cmp_low c)) (sum_overlaps report)
                   = adjacent (map fst items)).
  { unfold analyze_resolution_overlaps in Ho.
    destruct (1 <? List.length (analyze_all_labels infos))%nat eqn:E1.
    - rewrite (sort_keys _ _ Hi) in Ho. simpl in Ho. injection Ho as <-.
      rewrite map_map. simpl.
      induction (adjacent (map fst items)) as [|[a b] l IH]; simpl;
        [|rewrite IH]; reflexivity.
    - injection Ho as <-. apply Nat.ltb_ge in E1.
      destruct (map fst items) as [|a [|b l]]; try reflexivity.
      simpl in Hlen. lia. }
  rewrite E. split; [exact Hpairs|]. split.
  - rewrite <- Hlen, <- Hadj, <- Hpairs, length_map. reflexivity.
  - apply Forall_forall. intros c Hc.
    apply (StronglySorted_adjacent _ (map fst items)).
    + apply (sorted_datasets_descend infos), Hi.
    + rewrite <- Hpairs.
      apply (in_map (fun c => (cmp_high c, cmp_low c))), Hc.
Qed.

Lemma summary_sections_descend_sample :
  exists report,
    run [Samples.megt00n000gb; Samples.megt00n000hb; Samples.low_a] = Ok report
    /\ Permutation
         (map (fun r => (res_key r, res_count r)) (sum_resolutions report))
         (map (fun entry => (fst entry, List.length (snd entry)))
              (analyze_all_labels
                 [Samples.megt00n000gb; Samples.megt00n000hb; Samples.low_a]))
    /\ StronglySorted Order.higher_resolution
                      (map res_key (sum_resolutions report)).
Proof.
  assert (H : exists report,
             run [Samples.megt00n000gb; Samples.megt00n000hb; Samples.low_a]
             = Ok report) by (eexists; reflexivity).
  destruct H as [report H]. exists report. split; [exact H|].
  exact (summary_sections_descend _ report H).
Defined.

Lemma comparisons_are_adjacent_sample :
  exists report,
    run [Samples.megt00n000gb; Samples.megt00n000hb; Samples.low_a] = Ok report
    /\ map (fun c => (cmp_high c, cmp_low c)) (sum_overlaps report)
       = adjacent (map res_key (sum_resolutions report))
    /\ List.length (sum_overlaps report)
       = Nat.pred
           (List.length
              (analyze_all_labels
                 [Samples.megt00n000gb; Samples.megt00n000hb; Samples.low_a]))
    /\ Forall (fun c => Order.higher_resolution (cmp_high c) (cmp_low c))
              (sum_overlaps report).
Proof.
  assert (H : exists report,
             run [Samples.megt00n000gb; Samples.megt00n000hb; Samples.low_a]
             = Ok report) by (eexists; reflexivity).
  destruct H as [report H]. exists report. split; [exact H|].
  exact (comparisons_are_adjacent _ report H).
Defined.

Example comparisons_of_three :
  exists report,
    run [Samples.megt00n000gb; Samples.megt00n000hb; Samples.span 0 90]
    = Ok report
    /\ map res_key (sum_resolutions report)
       = ["128 pixels/degree"; "64 pixels/degree"; "4 pixels/degree"]
    /\ map (fun c => (cmp_high c, cmp_low c)) (sum_overlaps report)
       = [("128 pixels/degree", "64 pixels/degree");
          ("64 pixels/degree", "4 pixels/degree")].
Proof. eexists. repeat split; reflexivity. Qed.

(** ** Bounds on areas *)

Lemma area_nonneg r : 0 <= Spec.area r.
Proof.
  unfold Spec.area. apply Qmult_le_0_compat; apply Qabs_nonneg.
Qed.

(** What a record adds is never negative and never more than its area. *)
Lemma coverage_bounds f :
  exists c, coverage f = Ok c /\ 0 <= c
            /\ c <= match bounds f with
                    | Some r => Spec.area r
                    | None => 0
                    end.
Proof.
  destruct (bounds f) as [r|] eqn:Eb.
  - unfold coverage, lat_range, lon_range.
    pose proof (area_nonneg r) as Hr.
    destruct (range_cases (lat_max f) (lat_min f))
      as [[_ ->]|(h & l & Eh & El & _ & _ & ->)];
      destruct (range_cases (lon_max f) (lon_min f))
        as [[_ ->]|(h' & l' & Eh' & El' & _ & _ & ->)];
      cbn [bind]; eexists; (split; [reflexivity|]).
    + split; [apply Qle_refl|]. setoid_replace (0 * 0) with 0 by ring. exact Hr.
    + split; [|]; setoid_replace (0 * Qabs (h' - l')) with 0 by ring;
        [apply Qle_refl|exact Hr].
    + split; [|]; setoid_replace (Qabs (h - l) * 0) with 0 by ring;
        [apply Qle_refl|exact Hr].
    + unfold bounds in Eb. rewrite Eh, El, Eh', El' in Eb. injection Eb as <-.
      split; [apply Qmult_le_0_compat; apply Qabs_nonneg|].
      unfold Spec.area. cbn [r_lat_min r_lat_max r_lon_min r_lon_max].
      apply Qle_refl.
  - destruct (coverage_missing f Eb) as (c & Hc & Hz). exists c.
    split; [exact Hc|]. rewrite Hz. split; apply Qle_refl.
Qed.

Lemma sum_coverage_bounds files : forall total,
  exists t, sum_coverage files total = Ok t
            /\ total <= t /\ t <= total + Spec.coverage_sum files.
Proof.
  induction files as [|f rest IH]; intros total; simpl.
  - exists total. split; [reflexivity|]. split; [apply Qle_refl|].
    rewrite Qplus_0_r. apply Qle_refl.
  - destruct (coverage_bounds f) as (c & -> & Hc0 & Hc). simpl.
    destruct (IH (total + c)) as (t & -> & Hlo & Hhi).
    exists t. split; [reflexivity|].
    destruct (bounds f) as [r|]; split; lra.
Qed.

(** X6: the total printed for a region is never negative and never more
    than the sum of the areas of the members that have their four bounds;
    the percentage is that total over 41252.96, times 100. *)
Theorem region_total_bounds files region_group rep :
  region_summary files region_group = Ok (Some rep) ->
  0 <= rr_total rep
  /\ rr_total rep <= Spec.coverage_sum (region_files region_group files)
  /\ rr_percent rep == rr_total rep * (10000 # 4125296)
  /\ 0 <= rr_percent rep.
Proof.
  unfold region_summary.
  destruct (region_files region_group files) as [|m ms] eqn:E; [discriminate|].
  set (members := m :: ms) in *.
  destruct (sum_coverage_bounds (sorted String.leb filename false members) 0)
    as (t & Ht & Hlo & Hhi).
  rewrite Ht. cbn [bind]. intros H. injection H as <-.
  cbn [rr_total rr_percent].
  rewrite (coverage_sum_perm _ _ (sorted_perm String.leb filename false members))
    in Hhi.
  split; [exact Hlo|]. split; [lra|].
  assert (Hp : t / (4125296 # 100) * 100 == t * (10000 # 4125296)).
  { unfold Qdiv. setoid_replace (/ (4125296 # 100)) with (100 # 4125296)
      by reflexivity. ring. }
  split; [exact Hp|]. rewrite Hp.
  apply Qmult_le_0_compat; [exact Hlo|discriminate].
Qed.

Lemma region_total_bounds_sample :
  exists rep,
    region_summary [Samples.megt00n000hb; Samples.megt00n000gb; Samples.stray]
                   "Equatorial" = Ok (Some rep)
    /\ 0 <= rr_total rep
    /\ rr_total rep
       <= Spec.coverage_sum
            (region_files "Equatorial"
               [Samples.megt00n000hb; Samples.megt00n000gb; Samples.stray])
    /\ rr_percent rep == rr_total rep * (10000 # 4125296)
    /\ 0 <= rr_percent rep.
Proof.
  assert (H : exists rep,
             region_summary
               [Samples.megt00n000hb; Samples.megt00n000gb; Samples.stray]
               "Equatorial" = Ok (Some rep)) by (eexists; reflexivity).
  destruct H as [rep H]. exists rep. split; [exact H|].
  exact (region_total_bounds _ _ rep H).
Defined.

Lemma Qmult_le_both (a b c d : Q) :
  0 <= a -> a <= c -> 0 <= b -> b <= d -> a * b <= c * d.
Proof.
  intros Ha Hac Hb Hbd.
  apply Qle_trans with (c * b).
  - apply Qmult_le_compat_r; assumption.
  - rewrite (Qmult_comm c b), (Qmult_comm c d).
    apply Qmult_le_compat_r; [assumption|]. lra.
Qed.

(** X7: for well-formed rectangles that overlap, the recorded overlap area
    is at most the area of the high-resolution rectangle and at most the
    area of the low-resolution one. *)
Theorem overlap_area_within_tiles high low_file low :
  Spec.well_formed high -> Spec.well_formed low -> Spec.overlapping high low ->
  o_area (overlap_entry high low_file low) <= Spec.area high
  /\ o_area (overlap_entry high low_file low) <= Spec.area low.
Proof.
  unfold Spec.well_formed, Spec.overlapping, Spec.lat_meet, Spec.lon_meet,
    Spec.area.
  intros [Hh1 Hh2] [Hl1 Hl2] [[Ha1 Ha2] [Ho1 Ho2]].
  cbn [overlap_entry o_area].
  rewrite (Qabs_pos (r_lat_max high - r_lat_min high)),
    (Qabs_pos (r_lon_max high - r_lon_min high)),
    (Qabs_pos (r_lat_max low - r_lat_min low)),
    (Qabs_pos (r_lon_max low - r_lon_min low)) by lra.
  destruct (max_spec (r_lat_min high) (r_lat_min low)) as [[C1 E1]|[C1 E1]];
    destruct (min_spec (r_lat_max high) (r_lat_max low)) as [[C2 E2]|[C2 E2]];
    destruct (max_spec (r_lon_min high) (r_lon_min low)) as [[C3 E3]|[C3 E3]];
    destruct (min_spec (r_lon_max high) (r_lon_max low)) as [[C4 E4]|[C4 E4]];
    rewrite E1, E2, E3, E4; split; apply Qmult_le_both; lra.
Qed.

Lemma overlap_area_within_tiles_sample :
  o_area (overlap_entry Samples.east Samples.west_tile Samples.west)
  <= Spec.area Samples.east
  /\ o_area (overlap_entry Samples.east Samples.west_tile Samples.west)
     <= Spec.area Samples.west.
Proof.
  apply overlap_area_within_tiles;
    unfold Spec.well_formed, Spec.overlapping, Spec.lat_meet, Spec.lon_meet;
    simpl; repeat split; discriminate.
Defined.

(** ** The south polar scan *)

Lemma south_polar_test_spec f :
  Spec.scannable f ->
  exists b, south_polar_test f = Ok b
            /\ (b = true <-> Order.south_polar_record f).
Proof.
  unfold Spec.scannable, south_polar_test, Order.south_polar_record.
  intros Hs. destruct (contains "South Polar" (region f)).
  - exists true. split; [reflexivity|]. split; auto.
  - destruct (contains "Near-Polar South" (region f)).
    + destruct (lat_min f) as [q|]; [|exfalso; apply (Hs eq_refl eq_refl)].
      simpl. eexists. split; [reflexivity|]. rewrite Qle_bool_iff. split.
      * intros H. right. split; [reflexivity|]. exists q. auto.
      * intros [H|(_ & q' & E & H)]; [discriminate|].
        injection E as <-. exact H.
    + exists false. split; [reflexivity|]. split; [discriminate|].
      intros [H|[H _]]; discriminate.
Qed.

(** The scan over the datasets is one scan over their files in a row. *)
Lemma has_south_polar_flat values :
  has_south_polar values = scan_dataset (List.concat values).
Proof.
  induction values as [|d rest IH]; simpl; [reflexivity|].
  rewrite IH. clear IH. induction d as [|f d IHd]; simpl.
  - destruct (scan_dataset (List.concat rest)) as [[]|]; reflexivity.
  - destruct (south_polar_test f) as [[]|]; simpl; [reflexivity|exact IHd|reflexivity].
Qed.

Lemma scan_dataset_spec dataset :
  Forall Spec.scannable dataset ->
  exists b, scan_dataset dataset = Ok b
            /\ (b = true <-> exists f, In f dataset /\ Order.south_polar_record f).
Proof.
  induction 1 as [|f rest Hf _ IH]; simpl.
  - exists false. split; [reflexivity|]. split; [discriminate|].
    intros (? & [] & _).
  - destruct (south_polar_test_spec f Hf) as (b & -> & Hb). simpl.
    destruct b.
    + exists true. split; [reflexivity|]. split; [|reflexivity].
      intros _. exists f. split; [left; reflexivity|apply Hb; reflexivity].
    + destruct IH as (b' & -> & Hb'). exists b'. split; [reflexivity|].
      rewrite Hb'. split.
      * intros (g & Hg & Hsp). exists g. auto.
      * intros (g & [<-|Hg] & Hsp); [|exists g; auto].
        apply Hb in Hsp. discriminate.
Qed.

(** X8: when every near-polar southern record has its minimum latitude,
    the coverage analysis completes and warns that the south polar region is
    missing exactly when no record is a south polar one. *)
Theorem south_polar_warning datasets :
  Forall Spec.scannable (List.concat (map snd datasets)) ->
  exists rep,
    analyze_coverage_gaps datasets = Ok rep
    /\ (south_polar_missing rep = true <->
        ~ exists f, In f (List.concat (map snd datasets))
                    /\ Order.south_polar_record f).
Proof.
  intros H. unfold analyze_coverage_gaps. rewrite has_south_polar_flat.
  destruct (scan_dataset_spec _ H) as (b & -> & Hb). simpl.
  eexists. split; [reflexivity|]. simpl. rewrite <- Hb.
  destruct b; simpl; split; intros Hx;
    try discriminate; try reflexivity.
  exfalso. apply Hx. reflexivity.
Qed.

Lemma south_polar_warning_sample :
  exists rep,
    analyze_coverage_gaps
      (analyze_all_labels [Samples.megt00n000hb; Samples.stray]) = Ok rep
    /\ (south_polar_missing rep = true <->
        ~ exists f,
            In f (List.concat
                    (map snd (analyze_all_labels
                                [Samples.megt00n000hb; Samples.stray])))
            /\ Order.south_polar_record f).
Proof.
  apply south_polar_warning.
  repeat constructor; intros H; discriminate H.
Defined.

Lemma scan_dataset_skip before rest :
  Forall Spec.scannable before ->
  Forall (fun g => ~ Order.south_polar_record g) before ->
  scan_dataset (before ++ rest) = scan_dataset rest.
Proof.
  induction 1 as [|g before Hg _ IH]; intros Hnone; [reflexivity|].
  inversion Hnone as [|? ? Hng Hnone']; subst. simpl.
  destruct (south_polar_test_spec g Hg) as (b & -> & Hb). simpl.
  destruct b; [exfalso; apply Hng, Hb; reflexivity|]. apply IH, Hnone'.
Qed.

(** X9: the scan ends at the first record that decides it.  If that record
    is a south polar one, the scan succeeds whatever follows; if it is a
    near-polar southern record without minimum latitude, the analysis ends
    in [TypeError] whatever follows. *)
Theorem south_polar_scan_stops datasets before f after :
  List.concat (map snd datasets) = (before ++ f :: after)%list ->
  Forall Spec.scannable before ->
  Forall (fun g => ~ Order.south_polar_record g) before ->
  (Spec.scannable f -> Order.south_polar_record f ->
   exists rep, analyze_coverage_gaps datasets = Ok rep
               /\ south_polar_missing rep = false)
  /\ (contains "South Polar" (region f) = false ->
      contains "Near-Polar South" (region f) = true ->
      lat_min f = None ->
      analyze_coverage_gaps datasets = Raise TypeError).
Proof.
  intros Hcat Hscan Hnone. unfold analyze_coverage_gaps.
  rewrite has_south_polar_flat, Hcat, (scan_dataset_skip _ _ Hscan Hnone).
  simpl. split.
  - intros Hf Hsp. destruct (south_polar_test_spec f Hf) as (b & -> & Hb).
    apply Hb in Hsp. subst b. simpl. eexists. split; reflexivity.
  - intros H1 H2 H3. unfold south_polar_test. rewrite H1, H2, H3. reflexivity.
Qed.

Lemma south_polar_scan_stops_sample :
  (Spec.scannable (Samples.tile "megt_s_128_1.lbl" "South Polar" (Some 128%N)
                                None None None None) ->
   Order.south_polar_record
     (Samples.tile "megt_s_128_1.lbl" "South Polar" (Some 128%N)
                   None None None None) ->
   exists rep,
     analyze_coverage_gaps
       [("128 pixels/degree",
         [Samples.megt00n000hb;
          Samples.tile "megt_s_128_1.lbl" "South Polar" (Some 128%N)
                       None None None None;
          Samples.megt88s000hb])] = Ok rep
     /\ south_polar_missing rep = false)
  /\ (contains "South Polar"
        (region (Samples.tile "megt_s_128_1.lbl" "South Polar" (Some 128%N)
                              None None None None)) = false ->
      contains "Near-Polar South"
        (region (Samples.tile "megt_s_128_1.lbl" "South Polar" (Some 128%N)
                              None None None None)) = true ->
      lat_min (Samples.tile "megt_s_128_1.lbl" "South Polar" (Some 128%N)
                            None None None None) = None ->
      analyze_coverage_gaps
        [("128 pixels/degree",
          [Samples.megt00n000hb;
           Samples.tile "megt_s_128_1.lbl" "South Polar" (Some 128%N)
                        None None None None;
           Samples.megt88s000hb])] = Raise TypeError).
Proof.
  apply (south_polar_scan_stops _ [Samples.megt00n000hb] _ [Samples.megt88s000hb]).
  - reflexivity.
  - repeat constructor. intros H. discriminate H.
  - repeat constructor. intros [H|[H _]]; discriminate H.
Defined.

(** ** The gap report and the order of the files *)

Lemma longitude_coverage_perm files files' :
  Permutation files files' ->
  Permutation (longitude_coverage files) (longitude_coverage files').
Proof.
  induction 1 as [|x l l' _ IH|x y l|l l' l'' _ IH1 _ IH2].
  - reflexivity.
  - destruct (usable_dec x) as [(lo & hi & H1 & H2)|Hu].
    + rewrite !(coverage_usable x _ lo hi H1 H2). constructor. exact IH.
    + rewrite !(coverage_unusable x _ Hu). exact IH.
  - destruct (usable_dec x) as [(a & b & H1 & H2)|Hx];
      destruct (usable_dec y) as [(c & d & H3 & H4)|Hy].
    + rewrite (coverage_usable y _ c d H3 H4), !(coverage_usable x _ a b H1 H2),
        (coverage_usable y _ c d H3 H4). apply perm_swap.
    + rewrite (coverage_unusable y _ Hy), !(coverage_usable x _ a b H1 H2),
        (coverage_unusable y _ Hy). reflexivity.
    + rewrite (coverage_usable y _ c d H3 H4), !(coverage_unusable x _ Hx),
        (coverage_usable y _ c d H3 H4). reflexivity.
    + rewrite (coverage_unusable y _ Hy), !(coverage_unusable x _ Hx),
        (coverage_unusable y _ Hy). reflexivity.
  - rewrite IH1. exact IH2.
Qed.

(** Two ascending arrangements of the same intervals are equal when no two
    different intervals start at the same longitude. *)
Lemma ascending_unique (l : list (Q * Q)) : forall l',
  Permutation l l' ->
  StronglySorted (fun a b => fst a <= fst b) l ->
  StronglySorted (fun a b => fst a <= fst b) l' ->
  Order.distinct_starts l ->
  l = l'.
Proof.
  induction l as [|x l IH]; intros l' Hperm Hs Hs' Hd.
  - apply Permutation_nil in Hperm. congruence.
  - destruct l' as [|y l'];
      [apply Permutation_sym, Permutation_nil in Hperm; discriminate|].
    inversion Hs as [|? ? Hsl Hx]; subst.
    inversion Hs' as [|? ? Hsl' Hy]; subst.
    rewrite Forall_forall in Hx, Hy.
    assert (Hxy : x = y).
    { assert (Hyin : In y (x :: l))
        by (apply (Permutation_in _ (Permutation_sym Hperm)); left; reflexivity).
      assert (Hxin : In x (y :: l'))
        by (apply (Permutation_in _ Hperm); left; reflexivity).
      destruct Hyin as [E|Hyl]; [exact E|].
      destruct Hxin as [E|Hxl]; [symmetry; exact E|].
      apply Hd; [left; reflexivity|right; exact Hyl|].
      apply Qle_antisym; [apply Hx, Hyl|apply Hy, Hxl]. }
    subst y. f_equal. apply IH; try assumption.
    + apply Permutation_cons_inv in Hperm. exact Hperm.
    + intros a b Ha Hb. apply Hd; right; assumption.
Qed.

Lemma sorted_intervals_of_perm files files' :
  Permutation files files' ->
  Order.distinct_starts (longitude_coverage files) ->
  Spec.sorted_intervals files = Spec.sorted_intervals files'.
Proof.
  intros Hperm Hd. apply ascending_unique.
  - rewrite !sorted_intervals_perm. apply longitude_coverage_perm, Hperm.
  - apply sorted_intervals_ascending.
  - apply sorted_intervals_ascending.
  - intros a b Ha Hb. apply Hd;
      apply (Permutation_in _ (sorted_intervals_perm files)); assumption.
Qed.

(** X10: the gaps reported for a group do not depend on the order in which
    its files were found, provided no two different usable intervals start
    at the same longitude. *)
Theorem region_gaps_order_independent files files' :
  Permutation files files' ->
  Order.distinct_starts (longitude_coverage files) ->
  region_gaps files = region_gaps files'.
Proof.
  intros Hperm Hd.
  rewrite !region_gaps_split, (Permutation_length Hperm),
    (sorted_intervals_of_perm files files' Hperm Hd).
  reflexivity.
Qed.

Lemma region_gaps_order_independent_sample :
  region_gaps [Samples.span 210 350; Samples.blank; Samples.span 10 200]
  = region_gaps [Samples.span 10 200; Samples.span 210 350; Samples.blank].
Proof.
  apply region_gaps_order_independent.
  - apply Permutation_sym.
    apply (Permutation_cons_app [Samples.span 210 350; Samples.blank] []).
    reflexivity.
  - intros a b Ha Hb Hab. simpl in Ha, Hb.
    destruct Ha as [<-|[<-|[]]]; destruct Hb as [<-|[<-|[]]];
      try reflexivity; discriminate Hab.
Defined.

(** With two intervals that start together the order of the files does
    matter: the walk compares with the interval just before, whichever of
    the two that is. *)
Example region_gaps_order_matters :
  region_gaps [Samples.span 0 100; Samples.span 0 50; Samples.span 60 200]
  = [(50, 60)]
  /\ region_gaps [Samples.span 0 50; Samples.span 0 100; Samples.span 60 200]
     = [].
Proof. split; reflexivity. Qed.

(** * check_jezero_coverage.py: reading the label files *)

Section ReadingFacts.
Variable float : string -> option Q.

Local Abbreviation read_line := (Reading.read_line float).
Local Abbreviation read_bound := (Reading.read_bound float).
Local Abbreviation read_label := (Reading.read_label float).

(** A line changes the bound of its branch, by [read_bound], and nothing
    else. *)
Lemma read_line_bound st line n :
  (n < 4)%nat ->
  Reading.bound n (read_line st line)
  = if Reading.takes n line then read_bound (Reading.bound n st) line
    else Reading.bound n st.
Proof.
  intros Hn. unfold Reading.read_line, Reading.takes, Reading.branch.
  destruct (contains "MINIMUM_LATITUDE" line);
    [|destruct (contains "MAXIMUM_LATITUDE" line);
      [|destruct (contains "WESTERNMOST_LONGITUDE" line);
        [|destruct (contains "EASTERNMOST_LONGITUDE" line)]]];
    destruct n as [|[|[|[|n]]]]; try reflexivity; lia.
Qed.

Lemma read_lines_bound n lines : forall st,
  (n < 4)%nat ->
  Reading.bound n (fold_left read_line lines st)
  = fold_left read_bound (filter (Reading.takes n) lines) (Reading.bound n st).
Proof.
  induction lines as [|line lines IH]; intros st Hn; simpl; [reflexivity|].
  rewrite (IH _ Hn), (read_line_bound st line n Hn).
  destruct (Reading.takes n line); reflexivity.
Qed.

(** X12: each of the four bounds of a label file is decided by the lines
    that take its branch alone, read one after the other; the lines of the
    other branches and the lines without any of the four names have no part
    in it. *)
Theorem bound_read_from_its_lines lbl_file lines n :
  (n < 4)%nat ->
  Reading.bound n (read_label lbl_file lines)
  = fold_left read_bound (filter (Reading.takes n) lines) None.
Proof.
  intros Hn. unfold Reading.read_label. rewrite (read_lines_bound n lines _ Hn).
  destruct n as [|[|[|[|n]]]]; try reflexivity; lia.
Qed.

Lemma inert_read_bound current line :
  Reading.inert line = true -> read_bound current line = current.
Proof.
  unfold Reading.inert, Reading.read_bound.
  destruct (Reading.value_text line) as [val|]; [|reflexivity].
  intros ->. reflexivity.
Qed.

Lemma read_line_inert st line :
  Reading.inert line = true \/ Reading.branch line = None ->
  read_line st line = st.
Proof.
  intros H. unfold Reading.read_line. unfold Reading.branch in H.
  destruct st as [name a b c d]. simpl.
  destruct (contains "MINIMUM_LATITUDE" line);
    [|destruct (contains "MAXIMUM_LATITUDE" line);
      [|destruct (contains "WESTERNMOST_LONGITUDE" line);
        [|destruct (contains "EASTERNMOST_LONGITUDE" line)]]];
    try reflexivity;
    (destruct H as [H|H]; [rewrite (inert_read_bound _ line H); reflexivity
                          |discriminate H]).
Qed.

(** X13: lines that have none of the four names, no [=] sign, or a value
    spelled [N/A] or ['N/A'] can be taken out of a label file without
    changing the bounds read from it; in particular such a line keeps a
    value that was read before. *)
Theorem inert_lines_removable lbl_file lines :
  read_label lbl_file
    (filter (fun line => negb (Reading.inert line
                               || match Reading.branch line with
                                  | None => true
                                  | Some _ => false
                                  end)) lines)
  = read_label lbl_file lines.
Proof.
  unfold Reading.read_label. generalize (Reading.unread lbl_file) as st.
  induction lines as [|line lines IH]; intros st; simpl; [reflexivity|].
  destruct (Reading.inert line) eqn:Ei; simpl.
  - rewrite (read_line_inert st line (or_introl Ei)). apply IH.
  - destruct (Reading.branch line) eqn:Eb; simpl.
    + apply IH.
    + rewrite (read_line_inert st line (or_intror Eb)). apply IH.
Qed.

(** X14: the last line of a branch that carries a value decides the bound:
    it is what [float] makes of the value, so a value [float] cannot read
    erases a number that was read before. *)
Theorem last_value_decides lbl_file before_lines line after_lines n val :
  (n < 4)%nat ->
  Reading.takes n line = true ->
  Reading.value_text line = Some val ->
  Reading.not_available val = false ->
  Forall (fun l => Reading.takes n l = false \/ Reading.inert l = true)
         after_lines ->
  Reading.bound n (read_label lbl_file (before_lines ++ line :: after_lines))
  = float val.
Proof.
  intros Hn Ht Hv Hna Hafter. unfold Reading.read_label.
  rewrite (read_lines_bound n _ _ Hn), filter_app, fold_left_app.
  simpl. rewrite Ht. simpl.
  assert (Hline : forall current, read_bound current line = float val).
  { intros current. unfold Reading.read_bound. rewrite Hv, Hna. reflexivity. }
  rewrite Hline. clear Hline.
  generalize (float val) as current.
  induction Hafter as [|l ls Hl _ IH]; intros current; simpl; [reflexivity|].
  destruct Hl as [Hl|Hl].
  - rewrite Hl. apply IH.
  - destruct (Reading.takes n l); [|apply IH].
    simpl. rewrite (inert_read_bound current l Hl). apply IH.
Qed.

End ReadingFacts.

Lemma bound_read_from_its_lines_sample :
  Reading.bound 1 (Reading.read_label Reading.decimal "megt44n000hb.lbl"
                                      Texts.megt44n000hb)
  = fold_left (Reading.read_bound Reading.decimal)
              (filter (Reading.takes 1) Texts.megt44n000hb) None.
Proof. apply bound_read_from_its_lines. lia. Defined.

Lemma last_value_decides_sample :
  Reading.bound 0
    (Reading.read_label Reading.decimal "x.lbl"
       ([("MINIMUM_LATITUDE = -44.0 <DEGREE>" ++ Texts.nl)%string;
         ("MAXIMUM_LATITUDE = 0.0 <DEGREE>" ++ Texts.nl)%string]
        ++ ("MINIMUM_LATITUDE = unknown" ++ Texts.nl)%string
        :: [("MINIMUM_LATITUDE = N/A" ++ Texts.nl)%string]))
  = Reading.decimal "unknown".
Proof.
  apply last_value_decides; try reflexivity; [lia|].
  constructor; [right; reflexivity|constructor].
Defined.

Example read_samples :
  Reading.read_label Reading.decimal "a.lbl" Texts.megt44n000hb
  = {| Jezero.label_file := "a.lbl";
       Jezero.min_lat := Some 0.0; Jezero.max_lat := Some 44.0;
       Jezero.min_lon := Some 0.0; Jezero.max_lon := Some 90.0 |}
  /\ Jezero.min_lat
       (Reading.read_label Reading.decimal "b.lbl" Texts.repeated_missing)
     = Some (-44.0)
  /\ Jezero.min_lat
       (Reading.read_label Reading.decimal "c.lbl" Texts.repeated_unreadable)
     = None.
Proof. repeat split; reflexivity. Qed.

(** ** The value of a label line *)

Lemma append_empty_r (s : string) : (s ++ "")%string = s.
Proof. induction s as [|c s IH]; simpl; [|rewrite IH]; reflexivity. Qed.

Lemma append_assoc_string (a b c : string) :
  ((a ++ b) ++ c)%string = (a ++ (b ++ c))%string.
Proof. induction a as [|x a IH]; simpl; [|rewrite IH]; reflexivity. Qed.

Lemma before_app_free sep a b :
  Reading.before sep a = a ->
  Reading.before sep (a ++ b) = (a ++ Reading.before sep b)%string.
Proof.
  induction a as [|c a IH]; simpl; [reflexivity|].
  destruct (Ascii.eqb c sep); [discriminate|].
  intros E. injection E as E. rewrite (IH E). reflexivity.
Qed.

Lemma after_app_free sep a b :
  Reading.before sep a = a ->
  Reading.after sep (a ++ String sep b) = Some b.
Proof.
  induction a as [|c a IH]; simpl.
  - rewrite Ascii.eqb_refl. reflexivity.
  - destruct (Ascii.eqb c sep); [discriminate|].
    intros E. injection E as E. exact (IH E).
Qed.

Lemma before_space sep pad :
  Reading.isspace sep = false -> Reading.all_space pad = true ->
  Reading.before sep pad = pad.
Proof.
  intros Hsep. induction pad as [|c pad IH]; simpl; [reflexivity|].
  rewrite andb_true_iff. intros [Hc Hpad].
  destruct (Ascii.eqb c sep) eqn:E.
  - apply Ascii.eqb_eq in E. congruence.
  - rewrite (IH Hpad). reflexivity.
Qed.

Lemma lstrip_space pad s :
  Reading.all_space pad = true -> Reading.lstrip (pad ++ s) = Reading.lstrip s.
Proof.
  induction pad as [|c pad IH]; simpl; [reflexivity|].
  rewrite andb_true_iff. intros [-> Hpad]. exact (IH Hpad).
Qed.

Lemma lstrip_length s :
  (String.length (Reading.lstrip s) <= String.length s)%nat.
Proof.
  induction s as [|c s IH]; simpl; [lia|].
  destruct (Reading.isspace c); simpl; lia.
Qed.

Lemma lstrip_fixed_app v s :
  Reading.lstrip v = v -> v <> EmptyString ->
  Reading.lstrip (v ++ s) = (v ++ s)%string.
Proof.
  destruct v as [|c v]; [congruence|]. simpl.
  destruct (Reading.isspace c); [|reflexivity].
  intros E _. pose proof (lstrip_length v) as H. rewrite E in H. simpl in H. lia.
Qed.

Lemma rstrip_all_space pad :
  Reading.all_space pad = true -> Reading.rstrip pad = EmptyString.
Proof.
  induction pad as [|c pad IH]; simpl; [reflexivity|].
  rewrite andb_true_iff. intros [-> Hpad]. rewrite (IH Hpad). reflexivity.
Qed.

Lemma rstrip_space v pad :
  Reading.all_space pad = true -> Reading.rstrip (v ++ pad) = Reading.rstrip v.
Proof.
  intros Hpad. induction v as [|c v IH]; simpl.
  - apply rstrip_all_space, Hpad.
  - rewrite IH. reflexivity.
Qed.

Lemma strip_padded pad1 v pad2 :
  Reading.all_space pad1 = true -> Reading.all_space pad2 = true ->
  Reading.lstrip v = v -> Reading.rstrip v = v ->
  Reading.strip (pad1 ++ v ++ pad2) = v.
Proof.
  intros H1 H2 Hl Hr. unfold Reading.strip. rewrite (lstrip_space _ _ H1).
  destruct v as [|c v].
  - simpl. rewrite <- (append_empty_r pad2).
    rewrite (lstrip_space pad2 "" H2). reflexivity.
  - rewrite (lstrip_fixed_app _ pad2 Hl) by discriminate.
    rewrite (rstrip_space _ _ H2). exact Hr.
Qed.

Lemma value_text_of_line name pad1 v pad2 unit :
  Reading.before "=" name = name ->
  Reading.all_space pad1 = true -> Reading.all_space pad2 = true ->
  Reading.before "=" v = v -> Reading.before "<" v = v ->
  Reading.lstrip v = v -> Reading.rstrip v = v ->
  Reading.value_text (name ++ "=" ++ pad1 ++ v ++ pad2) = Some v
  /\ Reading.value_text (name ++ "=" ++ pad1 ++ v ++ pad2 ++ "<" ++ unit)
     = Some v
  /\ forall float current,
       Reading.not_available v = false ->
       Reading.read_bound float current
         (name ++ "=" ++ pad1 ++ v ++ pad2 ++ "<" ++ unit) = float v.
Proof.
  intros Hname H1 H2 Hveq Hvlt Hl Hr.
  assert (Hfree : forall sep, Reading.isspace sep = false ->
                              Reading.before sep v = v ->
                              Reading.before sep (pad1 ++ v ++ pad2)
                              = (pad1 ++ v ++ pad2)%string).
  { intros sep Hsep Hv.
    rewrite (before_app_free sep pad1) by (apply before_space; assumption).
    rewrite (before_app_free sep v _ Hv), (before_space sep pad2 Hsep H2).
    reflexivity. }
  assert (Hplain :
            Reading.value_text (name ++ "=" ++ pad1 ++ v ++ pad2) = Some v).
  { unfold Reading.value_text.
    change (name ++ "=" ++ pad1 ++ v ++ pad2)%string
      with (name ++ String "="%char (pad1 ++ v ++ pad2))%string.
    rewrite (after_app_free "=" name _ Hname).
    rewrite (Hfree "="%char eq_refl Hveq), (Hfree "<"%char eq_refl Hvlt).
    rewrite (strip_padded pad1 v pad2 H1 H2 Hl Hr). reflexivity. }
  assert (Hunit :
            Reading.value_text (name ++ "=" ++ pad1 ++ v ++ pad2 ++ "<" ++ unit)
            = Some v).
  { unfold Reading.value_text.
    change (name ++ "=" ++ pad1 ++ v ++ pad2 ++ "<" ++ unit)%string
      with (name ++ String "="%char
                           (pad1 ++ v ++ pad2 ++ String "<"%char unit))%string.
    rewrite (after_app_free "=" name _ Hname).
    replace (pad1 ++ v ++ pad2 ++ String "<"%char unit)%string
      with ((pad1 ++ v ++ pad2) ++ String "<"%char unit)%string
      by (rewrite !append_assoc_string; reflexivity).
    rewrite (before_app_free "=" _ _ (Hfree "="%char eq_refl Hveq)).
    cbn [Reading.before Ascii.eqb Bool.eqb].
    rewrite (before_app_free "<" _ _ (Hfree "<"%char eq_refl Hvlt)).
    cbn [Reading.before]. rewrite Ascii.eqb_refl.
    rewrite append_empty_r.
    rewrite (strip_padded pad1 v pad2 H1 H2 Hl Hr). reflexivity. }
  split; [exact Hplain|]. split; [exact Hunit|].
  intros float current Hna. unfold Reading.read_bound.
  rewrite Hunit, Hna. reflexivity.
Qed.

(** X15: a label line written as a name, [=], the value between white
    space and, if any, a unit in angle brackets gives its value back as the
    text handed to [float], provided the name has no [=], and the value has
    no [=], no [<] and no white space at its ends. *)
Theorem value_text_round_trip name pad1 v pad2 unit :
  Reading.before "=" name = name ->
  Reading.all_space pad1 = true -> Reading.all_space pad2 = true ->
  Reading.before "=" v = v -> Reading.before "<" v = v ->
  Reading.lstrip v = v -> Reading.rstrip v = v ->
  Reading.value_text (name ++ "=" ++ pad1 ++ v ++ pad2) = Some v
  /\ Reading.value_text (name ++ "=" ++ pad1 ++ v ++ pad2 ++ "<" ++ unit)
     = Some v
  /\ forall float current,
       Reading.not_available v = false ->
       Reading.read_bound float current
         (name ++ "=" ++ pad1 ++ v ++ pad2 ++ "<" ++ unit) = float v.
Proof. exact (value_text_of_line name pad1 v pad2 unit). Qed.

Lemma value_text_round_trip_sample :
  Reading.value_text
    ("  MINIMUM_LATITUDE        " ++ "=" ++ " " ++ "-44.0" ++ Texts.nl)
  = Some "-44.0"
  /\ Reading.value_text
       ("  MINIMUM_LATITUDE        " ++ "=" ++ " " ++ "-44.0" ++ Texts.nl
        ++ "<" ++ "DEGREE>")
     = Some "-44.0"
  /\ forall float current,
       Reading.not_available "-44.0" = false ->
       Reading.read_bound float current
         ("  MINIMUM_LATITUDE        " ++ "=" ++ " " ++ "-44.0" ++ Texts.nl
          ++ "<" ++ "DEGREE>") = float "-44.0".
Proof. apply value_text_round_trip; reflexivity. Defined.

(** * check_jezero_coverage.py: the closest file *)

Lemma axis_distance_cases p lo hi :
  lo <= hi ->
  (p < lo -> Closest.axis_distance p lo hi == lo - p)
  /\ (hi < p -> Closest.axis_distance p lo hi == p - hi)
  /\ (lo <= p <= hi -> Closest.axis_distance p lo hi = 0)
  /\ (Closest.axis_distance p lo hi == 0 <-> lo <= p <= hi).
Proof.
  intros Hle. unfold Closest.axis_distance.
  assert (Hbelow : p < lo ->
                   Py.min (Qabs (p - lo)) (Qabs (p - hi)) == lo - p).
  { intros H.
    assert (E1 : Qabs (p - lo) == lo - p)
      by (rewrite Qabs_neg by lra; ring).
    assert (E2 : Qabs (p - hi) == hi - p)
      by (rewrite Qabs_neg by lra; ring).
    destruct (min_spec (Qabs (p - lo)) (Qabs (p - hi))) as [[C E]|[C E]];
      rewrite E; [exact E1|]. rewrite E1, E2 in C. rewrite E2. lra. }
  assert (Habove : hi < p ->
                   Py.min (Qabs (p - lo)) (Qabs (p - hi)) == p - hi).
  { intros H.
    assert (E1 : Qabs (p - lo) == p - lo) by (apply Qabs_pos; lra).
    assert (E2 : Qabs (p - hi) == p - hi) by (apply Qabs_pos; lra).
    destruct (min_spec (Qabs (p - lo)) (Qabs (p - hi))) as [[C E]|[C E]];
      rewrite E; [|exact E2]. rewrite E1, E2 in C. rewrite E1. lra. }
  destruct (Qltb p lo) eqn:E1; destruct (Qgtb p hi) eqn:E2; simpl;
    try apply Qltb_lt in E1; try apply Qgtb_gt in E2;
    try apply Qltb_ge in E1; try apply Qgtb_le in E2.
  - exfalso. lra.
  - split; [exact Hbelow|]. split; [intros; exfalso; lra|].
    split; [intros; exfalso; lra|]. rewrite (Hbelow E1). split; intros; lra.
  - split; [intros; exfalso; lra|]. split; [exact Habove|].
    split; [intros; exfalso; lra|]. rewrite (Habove E2). split; intros; lra.
  - split; [intros; exfalso; lra|]. split; [intros; exfalso; lra|].
    split; [reflexivity|]. split; [intros; lra|reflexivity].
Qed.

(** X16: for a range with [lo <= hi], the distance along one axis is the
    distance from the point to the closed range: [lo - p] below it, [p - hi]
    above it, and 0 exactly on the range. *)
Theorem axis_distance_spec p lo hi :
  lo <= hi ->
  (p < lo -> Closest.axis_distance p lo hi == lo - p)
  /\ (hi < p -> Closest.axis_distance p lo hi == p - hi)
  /\ (lo <= p <= hi -> Closest.axis_distance p lo hi = 0)
  /\ (Closest.axis_distance p lo hi == 0 <-> lo <= p <= hi).
Proof. exact (axis_distance_cases p lo hi). Qed.

Lemma axis_distance_spec_sample :
  (Jezero.jezero_lon < 90 ->
   Closest.axis_distance Jezero.jezero_lon 90 180 == 90 - Jezero.jezero_lon)
  /\ (180 < Jezero.jezero_lon ->
      Closest.axis_distance Jezero.jezero_lon 90 180 == Jezero.jezero_lon - 180)
  /\ (90 <= Jezero.jezero_lon <= 180 ->
      Closest.axis_distance Jezero.jezero_lon 90 180 = 0)
  /\ (Closest.axis_distance Jezero.jezero_lon 90 180 == 0
      <-> 90 <= Jezero.jezero_lon <= 180).
Proof. apply axis_distance_spec. discriminate. Defined.

Section ClosestFacts.
Variable root : Q -> Q.

Local Abbreviation distance := (Closest.distance root).
Local Abbreviation closest_loop := (Closest.closest_loop root).

Lemma closer_false d m :
  Closest.closer d m = false -> exists x, m = Some x /\ x <= d.
Proof.
  unfold Closest.closer. destruct m as [x|]; [|discriminate].
  intros H. exists x. split; [reflexivity|]. apply Qltb_ge. exact H.
Qed.

Lemma closer_trans d d0 m :
  d < d0 -> Closest.closer d0 m = true -> Closest.closer d m = true.
Proof.
  unfold Closest.closer. destruct m as [x|]; [|reflexivity].
  rewrite !Qltb_lt. intros. lra.
Qed.

(** What the loop returns, from any state of its two variables: the file it
    held, when no file of the list is closer than [min_distance]; else the
    first of the files of least distance. *)
Lemma closest_loop_spec labels : forall min_distance closest_file,
  (closest_loop labels min_distance closest_file = closest_file
   /\ forall l d, In l labels -> distance l = Some d ->
                  Closest.closer d min_distance = false)
  \/ exists before l after d,
       labels = (before ++ l :: after)%list
       /\ closest_loop labels min_distance closest_file = Some (l, d)
       /\ distance l = Some d
       /\ Closest.closer d min_distance = true
       /\ (forall l' d', In l' before -> distance l' = Some d' -> d < d')
       /\ (forall l' d', In l' after -> distance l' = Some d' -> d <= d').
Proof.
  induction labels as [|l0 rest IH]; intros m c.
  - left. split; [reflexivity|]. intros l d [].
  - cbn [Closest.closest_loop].
    destruct (distance l0) as [d0|] eqn:E0.
    + destruct (Closest.closer d0 m) eqn:Ec.
      * right.
        destruct (IH (Some d0) (Some (l0, d0)))
          as [[Hsame Hnone]|(before & l & after & d & -> & Hr & Hd & Hc & Hb & Ha)].
        -- exists [], l0, rest, d0. repeat split; try assumption.
           ++ intros l' d' [].
           ++ intros l' d' Hin Hd'. specialize (Hnone l' d' Hin Hd').
              apply closer_false in Hnone. destruct Hnone as (x & Ex & Hx).
              injection Ex as <-. exact Hx.
        -- exists (l0 :: before), l, after, d.
           simpl in Hc. apply Qltb_lt in Hc.
           repeat split; try assumption.
           ++ apply (closer_trans d d0 m Hc Ec).
           ++ intros l' d' [<-|Hin] Hd'; [|apply (Hb l' d' Hin Hd')].
              rewrite E0 in Hd'. injection Hd' as <-. exact Hc.
      * destruct (IH m c)
          as [[Hsame Hnone]|(before & l & after & d & -> & Hr & Hd & Hc & Hb & Ha)].
        -- left. split; [exact Hsame|].
           intros l d [<-|Hin] Hd; [|apply (Hnone l d Hin Hd)].
           rewrite E0 in Hd. injection Hd as <-. exact Ec.
        -- right. exists (l0 :: before), l, after, d.
           repeat split; try assumption.
           intros l' d' [<-|Hin] Hd'; [|apply (Hb l' d' Hin Hd')].
           rewrite E0 in Hd'. injection Hd' as <-.
           apply closer_false in Ec. destruct Ec as (x & -> & Hx).
           simpl in Hc. apply Qltb_lt in Hc. lra.
    + destruct (IH m c)
        as [[Hsame Hnone]|(before & l & after & d & -> & Hr & Hd & Hc & Hb & Ha)].
      * left. split; [exact Hsame|].
        intros l d [<-|Hin] Hd; [congruence|apply (Hnone l d Hin Hd)].
      * right. exists (l0 :: before), l, after, d.
        repeat split; try assumption.
        intros l' d' [<-|Hin] Hd'; [congruence|apply (Hb l' d' Hin Hd')].
Qed.

(** X17: when no file covers the crater, the closest file reported is the
    first, in the order of the files, among those of least distance that
    have their four bounds; none is reported exactly when no file has its
    four bounds. *)
Theorem closest_is_first_nearest labels :
  snd (Jezero.check_coverage labels) = [] ->
  match Closest.closest root labels with
  | None => forall l, In l labels -> distance l = None
  | Some (l, d) =>
      exists before after,
        labels = (before ++ l :: after)%list
        /\ distance l = Some d
        /\ (forall l' d', In l' before -> distance l' = Some d' -> d < d')
        /\ (forall l' d', In l' after -> distance l' = Some d' -> d <= d')
  end.
Proof.
  intros Hnone. unfold Closest.closest. rewrite Hnone.
  destruct (closest_loop_spec labels None None)
    as [[-> Hall]|(before & l & after & d & E & -> & Hd & _ & Hb & Ha)].
  - intros l Hl. destruct (distance l) as [d|] eqn:Ed; [|reflexivity].
    specialize (Hall l d Hl Ed). discriminate Hall.
  - exists before, after. auto.
Qed.

End ClosestFacts.

(** X18: a file with its four bounds and well-formed ranges covers the
    crater iff its distance to the crater is 0 on both axes. *)
Theorem covering_iff_zero_distance l lat_lo lat_hi lon_lo lon_hi :
  Jezero.min_lat l = Some lat_lo -> Jezero.max_lat l = Some lat_hi ->
  Jezero.min_lon l = Some lon_lo -> Jezero.max_lon l = Some lon_hi ->
  lat_lo <= lat_hi -> lon_lo <= lon_hi ->
  (Jezero.covers_jezero l = true
   <-> Closest.axis_distance Jezero.jezero_lat lat_lo lat_hi == 0
       /\ Closest.axis_distance Jezero.jezero_lon lon_lo lon_hi == 0).
Proof.
  intros E1 E2 E3 E4 Hlat Hlon.
  destruct (axis_distance_cases Jezero.jezero_lat lat_lo lat_hi Hlat)
    as (_ & _ & _ & Ha).
  destruct (axis_distance_cases Jezero.jezero_lon lon_lo lon_hi Hlon)
    as (_ & _ & _ & Ho).
  rewrite Ha, Ho. unfold Jezero.covers_jezero. rewrite E1, E2, E3, E4.
  rewrite !andb_true_iff, !Qle_bool_iff. tauto.
Qed.

Lemma closest_is_first_nearest_sample :
  match Closest.closest (fun x => x)
          [Samples.unread_label; Samples.megt44n090hb_label;
           Samples.megt44n090hb_label] with
  | None =>
      forall l,
        In l [Samples.unread_label; Samples.megt44n090hb_label;
              Samples.megt44n090hb_label] ->
        Closest.distance (fun x => x) l = None
  | Some (l, d) =>
      exists before after,
        [Samples.unread_label; Samples.megt44n090hb_label;
         Samples.megt44n090hb_label] = (before ++ l :: after)%list
        /\ Closest.distance (fun x => x) l = Some d
        /\ (forall l' d', In l' before ->
                          Closest.distance (fun x => x) l' = Some d' -> d < d')
        /\ (forall l' d', In l' after ->
                          Closest.distance (fun x => x) l' = Some d' -> d <= d')
  end.
Proof. apply (closest_is_first_nearest (fun x => x)). reflexivity. Defined.

Lemma covering_iff_zero_distance_sample :
  Jezero.covers_jezero Samples.megt44n000hb_label = true
  <-> Closest.axis_distance Jezero.jezero_lat 0 44 == 0
      /\ Closest.axis_distance Jezero.jezero_lon 0 90 == 0.
Proof.
  apply (covering_iff_zero_distance Samples.megt44n000hb_label);
    try reflexivity; discriminate.
Defined.

(** * analyze_mola_labels.py: regions and resolutions from file names *)

Lemma prefix_head_differs g a c s :
  a <> c -> String.prefix (String a g) (String c s) = false.
Proof. intros H. simpl. destruct (ascii_dec a c); [contradiction|reflexivity]. Qed.

(** A word that does not start with a digit is not found in front of
    digits. *)
Lemma contains_after_digits a g s t :
  digit_of a = None -> all_digits s ->
  contains (String a g) (s ++ t) = contains (String a g) t.
Proof.
  intros Ha. induction s as [|c s IH]; intros Hs; [reflexivity|].
  inversion Hs as [|? ? Hc Hs']; subst.
  cbn [append contains]. rewrite prefix_head_differs, (IH Hs'); [reflexivity|].
  intros ->. contradiction.
Qed.

Lemma band_region_forms latitude hemisphere :
  hemisphere = "North" \/ hemisphere = "South" ->
  In (Naming.band_region latitude hemisphere) region_groups
  \/ Naming.band_region latitude hemisphere
     = (str_of_N latitude ++ "° " ++ hemisphere)%string.
Proof.
  unfold Naming.band_region. intros H.
  destruct (latitude =? 0)%N; [left; simpl; auto|].
  destruct (latitude =? 44)%N;
    [left; destruct H as [->| ->]; simpl; auto|].
  destruct (latitude =? 88)%N;
    [left; destruct H as [->| ->]; simpl; auto 8|].
  right. reflexivity.
Qed.

(** The regions [extract_key_info] can give. *)
Lemma infer_region_forms filename :
  In (Naming.infer_region filename) region_groups
  \/ Naming.infer_region filename = "Unknown"
  \/ exists latitude hemisphere,
       (hemisphere = "North" \/ hemisphere = "South")
       /\ Naming.infer_region filename
          = (str_of_N latitude ++ "° " ++ hemisphere)%string.
Proof.
  unfold Naming.infer_region.
  destruct (contains "megt_n_" (Naming.lower filename)); [left; simpl; auto 8|].
  destruct (contains "megt_s_" (Naming.lower filename)); [left; simpl; auto 8|].
  destruct (Naming.search_band (Naming.lower filename)) as [[band h]|];
    [|right; left; reflexivity].
  destruct (digits_value 0 band) as [latitude|]; [|right; left; reflexivity].
  set (hemisphere := if Ascii.eqb h "n" then "North" else "South").
  assert (Hh : hemisphere = "North" \/ hemisphere = "South")
    by (unfold hemisphere; destruct (Ascii.eqb h "n"); auto).
  destruct (band_region_forms latitude hemisphere Hh) as [H|H]; [left; exact H|].
  right. right. exists latitude, hemisphere. auto.
Qed.

(** X19: a file is listed under a region group of the summary exactly when
    the region [extract_key_info] gave it is that group: the substring test
    never lists a file under a second group, and files of an unknown name or
    of another latitude band are listed under none. *)
Theorem region_group_exact filename group :
  In group region_groups ->
  (contains group (Naming.infer_region filename) = true
   <-> Naming.infer_region filename = group).
Proof.
  intros Hg.
  assert (Hself : contains group group = true).
  { simpl in Hg.
    repeat (destruct Hg as [<-|Hg]; [reflexivity|]). destruct Hg. }
  split; [|intros ->; exact Hself].
  destruct (infer_region_forms filename) as [H|[H|(n & h & Hh & H)]].
  - revert H. generalize (Naming.infer_region filename) as r. intros r Hr.
    simpl in Hg, Hr.
    repeat (destruct Hg as [<-|Hg];
            [repeat (destruct Hr as [<-|Hr];
                     [first [reflexivity|discriminate]|]);
             destruct Hr|]).
    destruct Hg.
  - rewrite H. simpl in Hg.
    repeat (destruct Hg as [<-|Hg]; [discriminate|]). destruct Hg.
  - rewrite H. simpl in Hg.
    repeat (destruct Hg as [<-|Hg];
            [rewrite contains_after_digits
               by (first [reflexivity|apply str_of_N_digits]);
             destruct Hh as [->| ->]; discriminate|]).
    destruct Hg.
Qed.

Lemma region_group_exact_sample :
  contains "Near-Polar North" (Naming.infer_region "megt88n180eb.lbl") = true
  <-> Naming.infer_region "megt88n180eb.lbl" = "Near-Polar North".
Proof. apply region_group_exact. simpl. auto. Defined.

Example regions_of_names :
  map Naming.infer_region
      ["megt00n000hb.lbl"; "MEGT44S090GB.LBL"; "megt88n180eb.lbl";
       "megt_n_128_1.lbl"; "megt_s_512_3.lbl"; "megt90n000cb.lbl"; "notes.lbl"]
  = ["Equatorial"; "Mid-South"; "Near-Polar North"; "North Polar";
     "South Polar"; "90° North"; "Unknown"]
  /\ map Naming.infer_resolution
         ["megt00n000hb.lbl"; "MEGT44S090GB.LBL"; "megt88n180eb.lbl";
          "megt_n_128_1.lbl"; "megt_s_512_3.lbl"; "megt90n000cb.lbl";
          "notes.lbl"]
     = [Some 128; Some 64; Some 16; Some 128; Some 512; None; None]%N.
Proof. split; reflexivity. Qed.

Lemma contains_tail p c s :
  contains p (String c s) = false -> contains p s = false.
Proof.
  cbn [contains]. intros H. apply orb_false_iff in H. apply H.
Qed.

Lemma contains_underscore_head s :
  contains "_" (String "_" s) = true.
Proof.
  cbn [contains String.prefix].
  destruct (ascii_dec "_" "_"); [|contradiction].
  destruct s; reflexivity.
Qed.

Lemma digits_run_keeps_clear s :
  contains "_" s = false -> contains "_" (snd (Naming.digits_run s)) = false.
Proof.
  induction s as [|c s IH]; intros H; [reflexivity|].
  cbn [Naming.digits_run]. destruct (Naming.is_digit c); [|exact H].
  specialize (IH (contains_tail _ _ _ H)).
  destruct (Naming.digits_run s) as [run rest]. exact IH.
Qed.

Lemma after_literal_keeps_clear p : forall s rest,
  Naming.after_literal p s = Some rest ->
  contains "_" s = false -> contains "_" rest = false.
Proof.
  induction p as [|a p IH]; intros s rest; simpl.
  - intros E. injection E as <-. auto.
  - destruct s as [|b s]; [discriminate|].
    destruct (Ascii.eqb a b); [|discriminate].
    intros E H. apply (IH s rest E), (contains_tail _ _ _ H).
Qed.

Lemma match_tiers_needs_underscore s :
  contains "_" s = false -> Naming.match_tiers s = None.
Proof.
  intros H. unfold Naming.match_tiers.
  pose proof (digits_run_keeps_clear s H) as Hrest.
  destruct (Naming.digits_run s) as [tier rest]. simpl in Hrest.
  destruct tier as [|c tier]; [reflexivity|].
  destruct rest as [|b rest]; [reflexivity|].
  cbn [Naming.after_literal].
  destruct (Ascii.eqb "_" b) eqn:E; [|reflexivity].
  apply Ascii.eqb_eq in E. subst b.
  rewrite contains_underscore_head in Hrest. discriminate.
Qed.

Lemma skip_to_tiers_needs_underscore s :
  contains "_" s = false -> Naming.skip_to_tiers s = None.
Proof.
  induction s as [|c s IH]; intros H.
  - reflexivity.
  - cbn [Naming.skip_to_tiers]. rewrite (match_tiers_needs_underscore _ H).
    destruct (Ascii.eqb c "010"); [reflexivity|].
    apply IH, (contains_tail _ _ _ H).
Qed.

Lemma search_tiers_needs_underscore s :
  contains "_" s = false -> Naming.search_tiers s = None.
Proof.
  induction s as [|c s IH]; intros H; [reflexivity|].
  cbn [Naming.search_tiers].
  rewrite (IH (contains_tail _ _ _ H)).
  destruct (Naming.after_literal "megt" (String c s)) as [rest|] eqn:E;
    [|reflexivity].
  rewrite (skip_to_tiers_needs_underscore rest
             (after_literal_keeps_clear _ _ _ E H)).
  reflexivity.
Qed.

Lemma lower_char_underscore c :
  Naming.lower_char c = "_"%char -> c = "_"%char.
Proof.
  destruct c as [[] [] [] [] [] [] [] []]; cbv; intros H;
    first [reflexivity|discriminate H].
Qed.

Lemma lower_keeps_clear s :
  contains "_" s = false -> contains "_" (Naming.lower s) = false.
Proof.
  induction s as [|c s IH]; intros H; [reflexivity|].
  cbn [Naming.lower contains String.prefix] in *.
  apply orb_false_iff in H. destruct H as [Hc Hs].
  rewrite (IH Hs), orb_false_r.
  destruct (ascii_dec "_" (Naming.lower_char c)) as [E|E]; [|reflexivity].
  symmetry in E. apply lower_char_underscore in E. subst c.
  destruct (ascii_dec "_" "_"); [|contradiction].
  destruct s; discriminate Hc.
Qed.

(** A name without underscore takes its resolution from its letters. *)
Lemma resolution_from_letters filename :
  contains "_" filename = false ->
  Naming.infer_resolution filename
  = if contains "hb" (Naming.lower filename) then Some 128%N
    else if contains "gb" (Naming.lower filename) then Some 64%N
    else if contains "fb" (Naming.lower filename) then Some 32%N
    else if contains "eb" (Naming.lower filename) then Some 16%N
    else None.
Proof.
  intros H. unfold Naming.infer_resolution.
  rewrite (search_tiers_needs_underscore _ (lower_keeps_clear _ H)).
  reflexivity.
Qed.

Lemma run_raises_without_resolution infos :
  (exists f, In f infos /\ pixels_per_degree f = None) ->
  run infos = Raise ValueError.
Proof.
  intros (f & Hin & Hnone). unfold run, print_summary.
  rewrite sort_by_resolution_raises; [reflexivity| |].
  - intros entry He. destruct (datasets_key_source infos entry He) as (g & _ & Hg).
    exists g. exact Hg.
  - assert (Hk : In (resolution_key f) (map fst (analyze_all_labels infos))).
    { apply datasets_keys. exists f. auto. }
    apply in_map_iff in Hk. destruct Hk as (entry & He & Hentry).
    exists entry, f. auto.
Qed.

(** X20: a label file whose name has no underscore and, in lower case,
    none of the letter pairs [hb], [gb], [fb], [eb] gets no resolution, and
    the report of any directory that holds it ends in [ValueError], whatever
    its bounds and whatever the other files are; the 4 pixels/degree tiles,
    named [..cb.lbl], are such files. *)
Theorem unnamed_resolution_aborts filename lat_lo lat_hi lon_lo lon_hi
  before after :
  contains "_" filename = false ->
  contains "hb" (Naming.lower filename) = false ->
  contains "gb" (Naming.lower filename) = false ->
  contains "fb" (Naming.lower filename) = false ->
  contains "eb" (Naming.lower filename) = false ->
  pixels_per_degree
    (Naming.extract_key_info filename lat_lo lat_hi lon_lo lon_hi) = None
  /\ run (before
          ++ Naming.extract_key_info filename lat_lo lat_hi lon_lo lon_hi
          :: after)
     = Raise ValueError.
Proof.
  intros Hu Hh Hg Hf He.
  assert (Hnone : pixels_per_degree
                    (Naming.extract_key_info filename lat_lo lat_hi lon_lo lon_hi)
                  = None).
  { simpl. rewrite (resolution_from_letters filename Hu), Hh, Hg, Hf, He.
    reflexivity. }
  split; [exact Hnone|].
  apply run_raises_without_resolution.
  eexists. split; [|exact Hnone]. apply in_or_app. right. left. reflexivity.
Qed.

Lemma unnamed_resolution_aborts_sample :
  pixels_per_degree
    (Naming.extract_key_info "megt90n000cb.lbl"
                             (Some (-90 # 1)) (Some 90) (Some 0) (Some 360))
  = None
  /\ run ([Samples.megt00n000hb]
          ++ Naming.extract_key_info "megt90n000cb.lbl"
               (Some (-90 # 1)) (Some 90) (Some 0) (Some 360)
          :: [Samples.megt00n000gb])
     = Raise ValueError.
Proof. apply unnamed_resolution_aborts; reflexivity. Defined.

(** * analyze_mola_labels.py: what a reported gap means *)

Lemma gap_between_in current next g :
  In g (Spec.gap_between current next) -> g = (snd current, fst next).
Proof.
  unfold Spec.gap_between. destruct (Qgtb (fst next - snd current) 1).
  - intros [<-|[]]. reflexivity.
  - intros [].
Qed.

Lemma pairwise_gap_starts intervals g :
  In g (Spec.pairwise_gaps intervals) ->
  exists c, In c intervals /\ fst g = snd c.
Proof.
  induction intervals as [|current rest IH]; [intros []|].
  destruct rest as [|next rest]; [intros []|].
  cbn [Spec.pairwise_gaps]. intros H. apply in_app_or in H.
  destruct H as [H|H].
  - apply gap_between_in in H. subst g. exists current. simpl. auto.
  - destruct (IH H) as (c & Hc & E). exists c. split; [right; exact Hc|exact E].
Qed.

Lemma pairwise_gaps_clear intervals :
  StronglySorted (fun a b => fst a <= fst b) intervals ->
  StronglySorted (fun a b => snd a <= snd b) intervals ->
  forall g iv, In g (Spec.pairwise_gaps intervals) -> In iv intervals ->
               snd iv <= fst g \/ snd g <= fst iv.
Proof.
  induction intervals as [|current rest IH]; intros Hlo Hhi g iv; [intros []|].
  destruct rest as [|next rest]; [intros []|].
  inversion Hlo as [|? ? Hlo' Hlo1]; subst.
  inversion Hhi as [|? ? Hhi' Hhi1]; subst.
  cbn [Spec.pairwise_gaps]. intros Hg Hiv. apply in_app_or in Hg.
  rewrite Forall_forall in Hlo1, Hhi1.
  destruct Hg as [Hg|Hg].
  - apply gap_between_in in Hg. subst g. simpl.
    destruct Hiv as [<-|Hiv]; [left; apply Qle_refl|]. right.
    destruct Hiv as [<-|Hiv]; [apply Qle_refl|].
    inversion Hlo' as [|? ? _ Hn]; subst. rewrite Forall_forall in Hn.
    apply Hn, Hiv.
  - destruct Hiv as [<-|Hiv]; [|apply (IH Hlo' Hhi' g iv Hg Hiv)].
    left. destruct (pairwise_gap_starts (next :: rest) g Hg) as (c & Hc & ->).
    apply Hhi1, Hc.
Qed.

(** X11: in a group whose usable intervals, sorted by their lower end,
    also have their upper ends in ascending order, every reported gap other
    than the wrap-around gap is really uncovered: no usable interval of the
    group reaches inside it. *)
Theorem reported_gaps_uncovered files g :
  StronglySorted (fun a b => snd a <= snd b) (Spec.sorted_intervals files) ->
  In g (region_gaps files) ->
  In g (Spec.wraparound_gap (Spec.sorted_intervals files))
  \/ forall iv, In iv (longitude_coverage files) ->
                snd iv <= fst g \/ snd g <= fst iv.
Proof.
  intros Hhi Hg. rewrite region_gaps_split in Hg.
  destruct (1 <? List.length files)%nat; [|destruct Hg].
  apply in_app_or in Hg. destruct Hg as [Hg|Hg]; [right|left; exact Hg].
  intros iv Hiv.
  apply (pairwise_gaps_clear (Spec.sorted_intervals files)
           (sorted_intervals_ascending files) Hhi g iv Hg).
  apply (Permutation_in _ (Permutation_sym (sorted_intervals_perm files))), Hiv.
Qed.

Lemma reported_gaps_uncovered_sample :
  In (100, 105)
     (Spec.wraparound_gap
        (Spec.sorted_intervals [Samples.span 105 200; Samples.span 0 100]))
  \/ forall iv,
       In iv (longitude_coverage [Samples.span 105 200; Samples.span 0 100]) ->
       snd iv <= fst (100, 105) \/ snd (100, 105) <= fst iv.
Proof.
  apply reported_gaps_uncovered.
  - repeat constructor. discriminate.
  - left. reflexivity.
Defined.

(** Without that order of the upper ends a gap can be reported inside an
    interval: here [(50, 60)], inside [[0, 100]]. *)
Example gap_inside_an_interval :
  region_gaps [Samples.span 0 100; Samples.span 0 50; Samples.span 60 200]
  = [(50, 60)].
Proof. reflexivity. Qed.

(** * analyze_mola_labels.py: keys, missing bounds and warnings *)

(** X21: the key under which a record is filed reads back, in the sort of
    the summary, as the resolution of the record; the key of a record
    without resolution cannot be read and raises [ValueError]. *)
Theorem resolution_key_round_trip f :
  (forall n, pixels_per_degree f = Some n ->
             key_int (resolution_key f) = Ok (Z.of_N n))
  /\ (pixels_per_degree f = None ->
      key_int (resolution_key f) = Raise ValueError)
  /\ (forall n, key_int (resolution_key f) = Ok n ->
                pixels_per_degree f = Some (Z.to_N n)).
Proof.
  rewrite key_int_resolution. repeat split.
  - intros n ->. reflexivity.
  - intros ->. reflexivity.
  - intros n. destruct (pixels_per_degree f) as [m|]; [|discriminate].
    intros E. injection E as <-. rewrite N2Z.id. reflexivity.
Qed.

Lemma find_overlaps_bounded high low_files :
  find_overlaps high (filter Order.has_bounds low_files)
  = find_overlaps high low_files.
Proof.
  induction low_files as [|f rest IH]; [reflexivity|].
  cbn [filter find_overlaps].
  destruct (Order.has_bounds f) eqn:E.
  - cbn [find_overlaps]. rewrite IH. reflexivity.
  - rewrite IH. unfold Order.has_bounds in E. unfold overlap_with.
    destruct (bounds f); [discriminate|reflexivity].
Qed.

(** X22: records that lack one of their four bounds have no part in the
    comparison of two resolutions: taking them out of both groups leaves
    what is printed unchanged. *)
Theorem comparison_ignores_unbounded high_files low_files :
  flat_map (report_high (filter Order.has_bounds low_files))
           (filter Order.has_bounds high_files)
  = flat_map (report_high low_files) high_files.
Proof.
  induction high_files as [|f rest IH]; [reflexivity|].
  cbn [filter flat_map].
  assert (Hf : report_high (filter Order.has_bounds low_files) f
               = report_high low_files f).
  { unfold report_high. destruct (bounds f); [|reflexivity].
    rewrite find_overlaps_bounded. reflexivity. }
  destruct (Order.has_bounds f) eqn:E.
  - cbn [flat_map]. rewrite IH, Hf. reflexivity.
  - rewrite IH. unfold Order.has_bounds in E. unfold report_high at 2.
    destruct (bounds f); [discriminate|reflexivity].
Qed.

Lemma group_by_region_entry dataset k vs :
  In (k, vs) (group_by_region dataset)
  <-> (exists f, In f dataset /\ region f = k)
      /\ vs = filter (fun f => String.eqb (region f) k) dataset.
Proof.
  assert (Hnd : NoDup (map fst (group_by_region dataset)))
    by (apply group_nodup; constructor).
  assert (Hget : forall key,
             dict_get key (group_by_region dataset)
             = filter (fun f => String.eqb (region f) key) dataset).
  { intros key. unfold group_by_region. rewrite dict_get_group. reflexivity. }
  assert (Hkeys : forall key,
             In key (map fst (group_by_region dataset))
             <-> exists f, In f dataset /\ region f = key).
  { intros key. unfold group_by_region. rewrite group_keys. simpl. intuition. }
  split.
  - intros Hin. split.
    + apply Hkeys. apply (in_map fst) in Hin. exact Hin.
    + rewrite <- Hget. symmetry. apply dict_get_entry; assumption.
  - intros [Hk ->]. apply Hkeys in Hk. apply in_map_iff in Hk.
    destruct Hk as ([k' vs'] & Ek & Hin). simpl in Ek. subst k'.
    rewrite <- Hget, (dict_get_entry _ _ _ Hnd Hin). exact Hin.
Qed.

(** X23: the gap warnings of a completed coverage analysis are exactly
    these: one for each resolution and each region text found among the
    files of that resolution, provided the text does not contain [Polar] and
    the gaps of the files of that very region are not empty.  Regions are
    compared as whole texts here, so a latitude band that the summary lists
    under no region group is checked for gaps all the same. *)
Theorem gap_warnings_spec datasets rep w :
  analyze_coverage_gaps datasets = Ok rep ->
  (In w (warnings rep) <->
   exists entry,
     In entry datasets
     /\ gw_resolution w = fst entry
     /\ (exists f, In f (snd entry) /\ region f = gw_region w)
     /\ contains "Polar" (gw_region w) = false
     /\ gw_gaps w
        = region_gaps (filter (fun f => String.eqb (region f) (gw_region w))
                              (snd entry))
     /\ gw_gaps w <> []).
Proof.
  unfold analyze_coverage_gaps. intros H.
  apply bind_ok in H. destruct H as (found & _ & E). injection E as <-.
  cbn [warnings]. rewrite in_flat_map. split.
  - intros (entry & He & Hw). unfold dataset_warnings in Hw.
    apply in_flat_map in Hw. destruct Hw as ([k vs] & Hg & Hw).
    apply region_warning_in in Hw. destruct Hw as (Hp & Hne & ->).
    apply group_by_region_entry in Hg. destruct Hg as [Hk ->].
    exists entry. simpl in *. auto 8.
  - intros (entry & He & Hres & Hk & Hp & Hgaps & Hne).
    exists entry. split; [exact He|]. unfold dataset_warnings.
    apply in_flat_map.
    exists (gw_region w,
            filter (fun f => String.eqb (region f) (gw_region w)) (snd entry)).
    split; [apply group_by_region_entry; auto|].
    apply region_warning_in. simpl. rewrite <- Hgaps.
    split; [exact Hp|]. split; [exact Hne|].
    destruct w as [r g gs]. simpl in *. subst r. reflexivity.
Qed.

Lemma gap_warnings_spec_sample :
  exists rep,
    analyze_coverage_gaps
      (analyze_all_labels [Samples.span 10 200; Samples.blank]) = Ok rep
    /\ (In {| gw_resolution := "4 pixels/degree";
              gw_region := "Equatorial";
              gw_gaps := [(200, 10)] |} (warnings rep) <->
        exists entry,
          In entry (analyze_all_labels [Samples.span 10 200; Samples.blank])
          /\ "4 pixels/degree" = fst entry
          /\ (exists f, In f (snd entry) /\ region f = "Equatorial")
          /\ contains "Polar" "Equatorial" = false
          /\ [(200, 10)]
             = region_gaps (filter (fun f => String.eqb (region f) "Equatorial")
                                   (snd entry))
          /\ [(200, 10)] <> []).
Proof.
  assert (H : exists rep,
             analyze_coverage_gaps
               (analyze_all_labels [Samples.span 10 200; Samples.blank])
             = Ok rep) by (eexists; reflexivity).
  destruct H as [rep H]. exists rep. split; [exact H|].
  exact (gap_warnings_spec _ rep
           {| gw_resolution := "4 pixels/degree";
              gw_region := "Equatorial";
              gw_gaps := [(200, 10)] |} H).
Defined.

(** A band the summary lists under no region group, with a gap found. *)
Example unlisted_band_is_checked :
  exists report,
    run [Naming.extract_key_info "megt22n000hb.lbl"
           (Some 0) (Some 22) (Some 0) (Some 90);
         Naming.extract_key_info "megt22n180hb.lbl"
           (Some 0) (Some 22) (Some 180) (Some 360)] = Ok report
    /\ map res_regions (sum_resolutions report) = [[]]
    /\ warnings (sum_gaps report)
       = [{| gw_resolution := "128 pixels/degree";
             gw_region := "22° North";
             gw_gaps := [(90, 180)] |}].
Proof. eexists. repeat split; reflexivity. Qed.

(** * The two scripts on the same label line *)

Lemma digits_run_none t :
  Content.no_digit_ahead t -> Naming.digits_run t = (EmptyString, t).
Proof.
  unfold Content.no_digit_ahead. destruct t as [|c t]; [reflexivity|].
  cbn [Naming.digits_run]. destruct (Naming.is_digit c); [|reflexivity].
  destruct (Naming.digits_run t). discriminate.
Qed.

Lemma digits_run_app d t :
  fst (Naming.digits_run d) = d -> Content.no_digit_ahead t ->
  Naming.digits_run (d ++ t) = (d, t).
Proof.
  intros Hd Ht. induction d as [|c d IH].
  - apply digits_run_none, Ht.
  - cbn [append Naming.digits_run] in *.
    destruct (Naming.is_digit c); [|discriminate].
    destruct (Naming.digits_run d) as [run rest] eqn:E.
    simpl in Hd. injection Hd as Hd. rewrite (IH Hd). reflexivity.
Qed.

Lemma is_digit_plain c :
  Naming.is_digit c = true ->
  Reading.isspace c = false /\ Ascii.eqb c "=" = false
  /\ Ascii.eqb c "<" = false /\ Ascii.eqb c "+" = false
  /\ Ascii.eqb c "-" = false /\ Ascii.eqb "." c = false.
Proof.
  destruct c as [[] [] [] [] [] [] [] []]; cbv; intros H;
    first [discriminate H|repeat split].
Qed.

Lemma digits_head d :
  Content.digits d ->
  exists c d', d = String c d' /\ Naming.is_digit c = true.
Proof.
  intros [Hne Hd]. destruct d as [|c d]; [congruence|].
  exists c, d. split; [reflexivity|].
  cbn [Naming.digits_run] in Hd. destruct (Naming.is_digit c); [reflexivity|].
  discriminate.
Qed.

Lemma digits_plain d : fst (Naming.digits_run d) = d -> Content.plain d.
Proof.
  induction d as [|c d IH]; intros H; [constructor|].
  cbn [Naming.digits_run] in H.
  destruct (Naming.is_digit c) eqn:E; [|discriminate].
  destruct (Naming.digits_run d) as [run rest]. simpl in *.
  injection H as H. constructor; [|apply IH, H].
  destruct (is_digit_plain c E) as (H1 & H2 & H3 & _). auto.
Qed.

Lemma plain_app a b :
  Content.plain a -> Content.plain b -> Content.plain (a ++ b).
Proof.
  unfold Content.plain. induction a as [|c a IH]; intros Ha Hb; [exact Hb|].
  inversion Ha; subst. constructor; [assumption|]. apply IH; assumption.
Qed.

Lemma signs_plain sign : Content.signs sign -> Content.plain sign.
Proof.
  intros [->|[->| ->]]; repeat constructor.
Qed.

(** A plain text is left alone by the cuts and by the strip. *)
Lemma plain_fixed v :
  Content.plain v ->
  Reading.before "=" v = v /\ Reading.before "<" v = v
  /\ Reading.lstrip v = v /\ Reading.rstrip v = v.
Proof.
  induction v as [|c v IH]; intros H; [repeat split|].
  unfold Content.plain in H. simpl in H.
  inversion H as [|? ? (Hs & He & Hl) Hv]; subst.
  destruct (IH Hv) as (I1 & I2 & I3 & I4).
  cbn [Reading.before Reading.lstrip Reading.rstrip].
  rewrite He, Hl, Hs, I1, I2, I4.
  repeat split. destruct v; reflexivity.
Qed.

Lemma lstrip_plain_head c s :
  Reading.isspace c = false -> Reading.lstrip (String c s) = String c s.
Proof. intros H. simpl. rewrite H. reflexivity. Qed.

Lemma after_literal_self p t : Naming.after_literal p (p ++ t) = Some t.
Proof.
  induction p as [|a p IH]; simpl; [reflexivity|].
  rewrite Ascii.eqb_refl. exact IH.
Qed.

Lemma after_literal_char c t :
  Naming.after_literal (String c "") (String c t) = Some t.
Proof. simpl. rewrite Ascii.eqb_refl. reflexivity. Qed.

Lemma after_literal_none_app p : forall a t,
  Naming.after_literal p a = None ->
  (String.length p <= String.length a)%nat ->
  Naming.after_literal p (a ++ t) = None.
Proof.
  induction p as [|x p IH]; intros a t; simpl; [discriminate|].
  destruct a as [|y a]; simpl; [lia|].
  destruct (Ascii.eqb x y); [|reflexivity].
  intros H Hlen. apply IH; [exact H|lia].
Qed.

Lemma append_length (a b : string) :
  String.length (a ++ b) = (String.length a + String.length b)%nat.
Proof. induction a as [|c a IH]; simpl; [|rewrite IH]; reflexivity. Qed.

(** The search passes over a text in which the name starts nowhere. *)
Lemma search_skip name t : forall front,
  Content.starts_nowhere name front = true ->
  Content.search_value name (front ++ name ++ t)
  = Content.search_value name (name ++ t).
Proof.
  induction front as [|c front IH]; intros H; [reflexivity|].
  cbn [Content.starts_nowhere] in H.
  destruct (Naming.after_literal name (String c front ++ name)) eqn:E;
    [discriminate|].
  change (String c front ++ name ++ t)%string
    with (String c (front ++ name ++ t)).
  cbn [Content.search_value].
  replace (String c (front ++ name ++ t))
    with ((String c front ++ name) ++ t)%string
    by (rewrite append_assoc_string; reflexivity).
  rewrite (after_literal_none_app name _ t E)
    by (rewrite append_length; simpl; lia).
  apply IH, H.
Qed.

Lemma match_value_empty : Content.match_value "" = None.
Proof. reflexivity. Qed.

Lemma search_at_name name t v :
  Content.match_value t = Some v ->
  Content.search_value name (name ++ t) = Some v.
Proof.
  intros H.
  destruct (name ++ t)%string as [|c s] eqn:E.
  - destruct name; [|discriminate]. simpl in E. subst t. discriminate.
  - cbn [Content.search_value]. rewrite <- E, after_literal_self, H.
    reflexivity.
Qed.

Lemma after_literal_prefix p : forall s rest,
  Naming.after_literal p s = Some rest -> String.prefix p s = true.
Proof.
  induction p as [|a p IH]; intros s rest H.
  - destruct s; reflexivity.
  - destruct s as [|b s]; simpl in H; [discriminate|].
    destruct (Ascii.eqb a b) eqn:E; [|discriminate].
    apply Ascii.eqb_eq in E. subst b. simpl.
    destruct (ascii_dec a a); [|contradiction]. exact (IH s rest H).
Qed.

Lemma search_none name s :
  contains name s = false -> Content.search_value name s = None.
Proof.
  induction s as [|c s IH]; intros H; [reflexivity|].
  cbn [Content.search_value]. cbn [contains] in H.
  apply orb_false_iff in H. destruct H as [Hp Hs].
  destruct (Naming.after_literal name (String c s)) as [rest|] eqn:E.
  - apply after_literal_prefix in E. congruence.
  - apply IH, Hs.
Qed.

Lemma no_digit_after_pad pad unit :
  Reading.all_space pad = true ->
  Content.no_digit_ahead (pad ++ "<" ++ unit)
  /\ Naming.after_literal "." (pad ++ "<" ++ unit) = None.
Proof.
  unfold Content.no_digit_ahead. destruct pad as [|c pad]; [split; reflexivity|].
  cbn [Reading.all_space]. rewrite andb_true_iff. intros [Hc _].
  cbn [append Naming.digits_run Naming.after_literal].
  destruct (Naming.is_digit c) eqn:E.
  - destruct (is_digit_plain c E) as (Hs & _). congruence.
  - split; [reflexivity|].
    destruct (Ascii.eqb "." c) eqn:Ed; [|reflexivity].
    apply Ascii.eqb_eq in Ed. subst c. discriminate Hc.
Qed.

(** The head of [sign ++ whole] is neither white space nor, when there is
    no sign, a sign. *)
Lemma value_head sign whole t :
  Content.signs sign -> Content.digits whole ->
  Reading.lstrip (sign ++ whole ++ t) = (sign ++ whole ++ t)%string
  /\ Content.sign_of (sign ++ whole ++ t) = (sign, (whole ++ t)%string).
Proof.
  intros Hsign Hwhole.
  destruct (digits_head whole Hwhole) as (c & d & -> & Hc).
  destruct (is_digit_plain c Hc) as (Hs & _ & _ & Hp & Hm & _).
  destruct Hsign as [->|[->| ->]]; cbn [append].
  - split; [apply lstrip_plain_head, Hs|].
    unfold Content.sign_of. rewrite Hp, Hm. reflexivity.
  - split; reflexivity.
  - split; reflexivity.
Qed.

Lemma match_value_decimal pad0 pad1 sign whole frac tail :
  Reading.all_space pad0 = true -> Reading.all_space pad1 = true ->
  Content.signs sign -> Content.digits whole -> Content.digits frac ->
  Content.no_digit_ahead tail ->
  Content.match_value
    (pad0 ++ "=" ++ pad1 ++ sign ++ whole ++ "." ++ frac ++ tail)
  = Some (sign ++ whole ++ "." ++ frac)%string.
Proof.
  intros H0 H1 Hsign Hwhole Hfrac Htail. unfold Content.match_value.
  rewrite (lstrip_space pad0 _ H0).
  change ("=" ++ pad1 ++ sign ++ whole ++ "." ++ frac ++ tail)%string
    with (String "="%char (pad1 ++ sign ++ whole ++ "." ++ frac ++ tail)).
  rewrite (lstrip_plain_head "="%char _ eq_refl).
  cbn [Naming.after_literal Ascii.eqb Bool.eqb].
  rewrite (lstrip_space pad1 _ H1).
  destruct (value_head sign whole ("." ++ frac ++ tail) Hsign Hwhole)
    as [-> ->].
  destruct Hwhole as [Hne Hw].
  rewrite (digits_run_app whole ("." ++ frac ++ tail) Hw eq_refl).
  destruct whole as [|c whole]; [congruence|].
  change ("." ++ frac ++ tail)%string with (String "."%char (frac ++ tail)).
  cbn [Naming.after_literal Ascii.eqb Bool.eqb].
  destruct Hfrac as [Hnf Hf].
  rewrite (digits_run_app frac tail Hf Htail). cbn [fst].
  destruct frac as [|f frac]; [congruence|]. reflexivity.
Qed.

Lemma match_value_integer pad0 pad1 sign whole tail :
  Reading.all_space pad0 = true -> Reading.all_space pad1 = true ->
  Content.signs sign -> Content.digits whole ->
  Content.no_digit_ahead tail -> Naming.after_literal "." tail = None ->
  Content.match_value (pad0 ++ "=" ++ pad1 ++ sign ++ whole ++ tail) = None.
Proof.
  intros H0 H1 Hsign Hwhole Htail Hdot. unfold Content.match_value.
  rewrite (lstrip_space pad0 _ H0).
  change ("=" ++ pad1 ++ sign ++ whole ++ tail)%string
    with (String "="%char (pad1 ++ sign ++ whole ++ tail)).
  rewrite (lstrip_plain_head "="%char _ eq_refl).
  rewrite (after_literal_char "="%char).
  rewrite (lstrip_space pad1 _ H1).
  destruct (value_head sign whole tail Hsign Hwhole) as [-> ->].
  destruct Hwhole as [Hne Hw].
  rewrite (digits_run_app whole tail Hw Htail).
  destruct whole as [|c whole]; [reflexivity|].
  destruct tail as [|x tail]; [reflexivity|].
  cbn [Naming.after_literal] in Hdot |- *.
  destruct (Ascii.eqb "." x); [discriminate Hdot|reflexivity].
Qed.

Lemma decimal_text_plain sign whole frac :
  Content.signs sign -> Content.digits whole -> Content.digits frac ->
  Content.plain (sign ++ whole ++ "." ++ frac).
Proof.
  intros Hs [_ Hw] [_ Hf].
  apply plain_app; [apply signs_plain, Hs|].
  apply plain_app; [apply digits_plain, Hw|].
  apply (plain_app "." frac); [repeat constructor|apply digits_plain, Hf].
Qed.

Lemma name_with_pad name pad0 :
  Reading.before "=" name = name -> Reading.all_space pad0 = true ->
  Reading.before "=" (name ++ pad0) = (name ++ pad0)%string.
Proof.
  intros Hn Hp.
  rewrite (before_app_free "=" name pad0 Hn), (before_space "=" pad0 eq_refl Hp).
  reflexivity.
Qed.

Lemma line_then_rest name pad0 pad1 v pad2 unit rest :
  ((name ++ pad0 ++ "=" ++ pad1 ++ v ++ pad2 ++ "<" ++ unit) ++ rest)%string
  = (name ++ pad0 ++ "=" ++ pad1 ++ v ++ pad2 ++ "<" ++ unit ++ rest)%string.
Proof. rewrite !append_assoc_string. reflexivity. Qed.

(** X24: on a label line that gives a field as a signed decimal with digits
    on both sides of the point, the two scripts hand the same text to
    [float]: [extract_key_info] finds it by its search of the whole text,
    whatever stands before and after the line, as long as the field name
    starts nowhere before it, and [check_coverage] takes it from the
    line. *)
Theorem scripts_agree_on_decimal
  name front pad0 pad1 sign whole frac pad2 unit rest :
  Content.starts_nowhere name front = true ->
  Reading.before "=" name = name ->
  Reading.all_space pad0 = true -> Reading.all_space pad1 = true ->
  Reading.all_space pad2 = true ->
  Content.signs sign -> Content.digits whole -> Content.digits frac ->
  Content.search_value name
    (front ++ (name ++ pad0 ++ "=" ++ pad1
               ++ (sign ++ whole ++ "." ++ frac) ++ pad2 ++ "<" ++ unit)
     ++ rest)
  = Some (sign ++ whole ++ "." ++ frac)%string
  /\ Reading.value_text
       ((name ++ pad0) ++ "=" ++ pad1
        ++ (sign ++ whole ++ "." ++ frac) ++ pad2 ++ "<" ++ unit)
     = Some (sign ++ whole ++ "." ++ frac)%string.
Proof.
  intros Hfront Hname H0 H1 H2 Hsign Hwhole Hfrac. split.
  - rewrite line_then_rest.
    rewrite (search_skip name _ front Hfront).
    apply search_at_name.
    replace (pad0 ++ "=" ++ pad1 ++ (sign ++ whole ++ "." ++ frac)
             ++ pad2 ++ "<" ++ unit ++ rest)%string
      with (pad0 ++ "=" ++ pad1 ++ sign ++ whole ++ "." ++ frac
            ++ pad2 ++ "<" ++ unit ++ rest)%string
      by (rewrite !append_assoc_string; reflexivity).
    apply match_value_decimal; try assumption.
    apply (no_digit_after_pad pad2 (unit ++ rest) H2).
  - destruct (plain_fixed _ (decimal_text_plain sign whole frac Hsign Hwhole Hfrac))
      as (P1 & P2 & P3 & P4).
    apply (value_text_of_line (name ++ pad0) pad1 _ pad2 unit);
      try assumption.
    apply name_with_pad; assumption.
Qed.

Lemma scripts_agree_on_decimal_sample :
  Content.search_value "MINIMUM_LATITUDE"
    (("PDS_VERSION_ID = PDS3" ++ Texts.nl ++ "  ")
     ++ ("MINIMUM_LATITUDE" ++ "        " ++ "=" ++ " "
         ++ ("-" ++ "44" ++ "." ++ "0") ++ " " ++ "<" ++ "DEGREE>")
     ++ (Texts.nl ++ "MAXIMUM_LATITUDE = 0.0 <DEGREE>"))
  = Some ("-" ++ "44" ++ "." ++ "0")%string
  /\ Reading.value_text
       (("MINIMUM_LATITUDE" ++ "        ") ++ "=" ++ " "
        ++ ("-" ++ "44" ++ "." ++ "0") ++ " " ++ "<" ++ "DEGREE>")
     = Some ("-" ++ "44" ++ "." ++ "0")%string.
Proof.
  apply scripts_agree_on_decimal; try reflexivity.
  - right. right. reflexivity.
  - split; [discriminate|reflexivity].
  - split; [discriminate|reflexivity].
Defined.

(** X25: on a label line that gives a field as an integer, without decimal
    point, the two scripts part: [check_coverage] hands the digits to
    [float], while the search of [extract_key_info] does not match the line,
    and finds nothing at all when the field is named nowhere else in the
    text, which leaves the bound at [None]. *)
Theorem integer_bound_unread
  head name' front pad0 pad1 sign whole pad2 unit rest :
  Content.starts_nowhere (String head name') front = true ->
  Reading.before "=" (String head name') = String head name' ->
  Reading.all_space pad0 = true -> Reading.all_space pad1 = true ->
  Reading.all_space pad2 = true ->
  Content.signs sign -> Content.digits whole ->
  contains (String head name')
           (name' ++ pad0 ++ "=" ++ pad1
            ++ (sign ++ whole) ++ pad2 ++ "<" ++ unit ++ rest) = false ->
  Content.search_value (String head name')
    (front ++ (String head name' ++ pad0 ++ "=" ++ pad1
               ++ (sign ++ whole) ++ pad2 ++ "<" ++ unit)
     ++ rest)
  = None
  /\ Reading.value_text
       ((String head name' ++ pad0) ++ "=" ++ pad1
        ++ (sign ++ whole) ++ pad2 ++ "<" ++ unit)
     = Some (sign ++ whole)%string.
Proof.
  intros Hfront Hname H0 H1 H2 Hsign Hwhole Hrest. split.
  - rewrite line_then_rest.
    rewrite (search_skip (String head name') _ front Hfront).
    set (tail := (pad0 ++ "=" ++ pad1
                  ++ (sign ++ whole) ++ pad2 ++ "<" ++ unit ++ rest)%string)
      in *.
    change (String head name' ++ tail)%string
      with (String head (name' ++ tail)).
    cbn [Content.search_value].
    change (String head (name' ++ tail))
      with (String head name' ++ tail)%string.
    rewrite after_literal_self.
    assert (Hm : Content.match_value tail = None).
    { unfold tail.
      replace (pad0 ++ "=" ++ pad1
               ++ (sign ++ whole) ++ pad2 ++ "<" ++ unit ++ rest)%string
        with (pad0 ++ "=" ++ pad1
              ++ sign ++ whole ++ pad2 ++ "<" ++ unit ++ rest)%string
        by (rewrite !append_assoc_string; reflexivity).
      destruct (no_digit_after_pad pad2 (unit ++ rest) H2) as [Hd Hdot].
      apply match_value_integer; assumption. }
    rewrite Hm. apply search_none, Hrest.
  - assert (Hplain : Content.plain (sign ++ whole)).
    { apply plain_app; [apply signs_plain, Hsign|].
      apply digits_plain, Hwhole. }
    destruct (plain_fixed _ Hplain) as (P1 & P2 & P3 & P4).
    apply (value_text_of_line (String head name' ++ pad0) pad1 _ pad2 unit);
      try assumption.
    apply name_with_pad; assumption.
Qed.

Lemma integer_bound_unread_sample :
  Content.search_value (String "M" "INIMUM_LATITUDE")
    (("PDS_VERSION_ID = PDS3" ++ Texts.nl)
     ++ (String "M" "INIMUM_LATITUDE" ++ " " ++ "=" ++ " "
         ++ ("-" ++ "88") ++ " " ++ "<" ++ "DEGREE>")
     ++ (Texts.nl ++ "MAXIMUM_LATITUDE = 0.0 <DEGREE>"))
  = None
  /\ Reading.value_text
       ((String "M" "INIMUM_LATITUDE" ++ " ") ++ "=" ++ " "
        ++ ("-" ++ "88") ++ " " ++ "<" ++ "DEGREE>")
     = Some ("-" ++ "88")%string.
Proof.
  apply integer_bound_unread; try reflexivity.
  - right. right. reflexivity.
  - split; [discriminate|reflexivity].
Defined.
